(** * Autograph: the pookalam pattern engine and the drawing canvas

    A shallow embedding of [src/utils/pookalam.jsx] (the fractal basis
    library and the pattern composer [finalPookalam]) and of
    [src/components/DrawingCanvas.jsx] (the point sampler, the segment
    partition, the animation state machine and the wheel-zoom handler).

    JavaScript numbers are modelled by the real numbers of the Standard
    Library wherever the code is plain arithmetic and trigonometry: the
    statements are then the exact versions of what the program satisfies up
    to rounding.  The point sampler, whose subject is NaN and Infinity, is
    modelled on binary64 floats.  Integers that the code obtains with
    [Math.floor] or uses as loop counters are [Z] and [nat]. *)

From Stdlib Require Import String.
From Stdlib Require Import Reals Lra Lia ZArith List Bool Psatz.
From Stdlib Require PrimFloat FloatOps.
Import ListNotations.

Open Scope R_scope.

(** ** JavaScript primitives used by the sources *)

Module Js.

(** [Math.floor]. *)
Definition floor (x : R) : Z := Zfloor x.

(** The [ToInt32] conversion that every bitwise operator applies to its
    operands and to its result: wrap-around into [-2^31, 2^31). *)
Definition ToInt32 (z : Z) : Z := ((z + 2 ^ 31) mod 2 ^ 32 - 2 ^ 31)%Z.

(** The [ToUint32] conversion of [>>>]. *)
Definition ToUint32 (z : Z) : Z := (z mod 2 ^ 32)%Z.

(** [a & b]. *)
Definition and32 (a b : Z) : Z := ToInt32 (Z.land (ToInt32 a) (ToInt32 b)).

(** [a | b]. *)
Definition or32 (a b : Z) : Z := ToInt32 (Z.lor (ToInt32 a) (ToInt32 b)).

(** [a ^ b]. *)
Definition xor32 (a b : Z) : Z := ToInt32 (Z.lxor (ToInt32 a) (ToInt32 b)).

(** [a << k]. *)
Definition shl32 (a k : Z) : Z := ToInt32 (Z.shiftl (ToInt32 a) (k mod 32)).

(** [a >>> k]. *)
Definition shru32 (a k : Z) : Z := Z.shiftr (ToUint32 a) (k mod 32).

(** [Math.imul(a, b)]. *)
Definition imul (a b : Z) : Z := ToInt32 (ToInt32 a * ToInt32 b).

(** [x || d] on numbers: [0] is falsy, so the default [d] replaces it. *)
Definition or_default (x d : R) : R := if Req_dec_T x 0 then d else x.

(** [arr[i]] for an index computed with [Math.floor]: [undefined] outside
    the array. *)
Definition index {A : Type} (arr : list A) (i : Z) : option A :=
  if (i <? 0)%Z then None else nth_error arr (Z.to_nat i).

End Js.

(** ** The deterministic generator *)

Module Rng.

(** Modelled from the spec: [src/utils/rng], which both sources import, is
    not among the source files.  The spec describes its [mulberry32] as a
    seedable 32-bit generator of the xorshift-multiply family whose [next()]
    is a float in [0,1) and a pure function of the internal 32-bit state.
    [mix] is the bit mixing of the usual mulberry32, from the state to the
    32-bit numerator of the float returned. *)
Definition mix (a : Z) : Z :=
  let t := Js.ToInt32 a in
  let t := Js.imul (Js.xor32 t (Js.shru32 t 15)) (Js.or32 t 1) in
  let t := Js.xor32 t (t + Js.imul (Js.xor32 t (Js.shru32 t 7)) (Js.or32 t 61)) in
  Js.shru32 (Js.xor32 t (Js.shru32 t 14)) 0.

(** Modelled from the spec: the numerator, in [0, 2^32), of the [k]-th draw
    (from 0).  Each call adds [0x6D2B79F5] to the state, which the bit
    operators read modulo 2^32. *)
Definition draw (seed : Z) (k : nat) : Z :=
  mix (seed + (Z.of_nat k + 1) * 1831565813).

(** Modelled from the spec: the value of the [k]-th call (from 0) of the
    closure [mulberry32(seed)], a real in [0,1). *)
Definition mulberry32 (seed : Z) (k : nat) : R :=
  IZR (draw seed k) / 4294967296.

End Rng.

(** ** [src/utils/pookalam.jsx] *)

Module Pookalam.

Definition PHI : R := (1 + sqrt 5) / 2.
Definition PHI_INV : R := 1 / PHI.

(** *** The fractal basis library [fractalPatterns] *)

(** [Math.log] is undefined (NaN) on negative numbers and [-Infinity] at 0;
    [ln] is 0 there.  Every statement below that involves [fibonacci] either
    keeps the argument of the logarithm positive or says so. *)
Definition fibonacci (t scale freq amplitude : R) : R :=
  let fibScale := 1 + ln (1 + t / (2 * PI)) * PHI_INV in
  scale * fibScale * (1 + amplitude * sin (freq * t)).

(** [((n & -n) << 1) & n ? 1 : -1]. *)
Definition dragonValue (n : Z) : R :=
  if (Js.and32 (Js.shl32 (Js.and32 n (- n)) 1) n =? 0)%Z then -1 else 1.

Definition dragon (t scale freq amplitude : R) : R :=
  let n := Js.floor ((t * freq) / (2 * PI)) in
  scale * (1 + amplitude * dragonValue n * cos (t * freq)).

(** The loop [for (i = 0; i < 4; i++) sum += ...]. *)
Definition koch_sum (t freq : R) : R :=
  fold_left (fun sum i => sum + cos (freq * 3 ^ i * t) / 3 ^ i) (seq 0 4) 0.

Definition koch (t scale freq amplitude : R) : R :=
  scale * (1 + amplitude * koch_sum t freq).

(** The escape loop of [mandelbrot]: [fuel] iterations are left, [(zr, zi)]
    is the current [z] and [magnitude] the last magnitude computed. *)
Fixpoint mandel_loop (fuel : nat) (zr zi magnitude : R) : R :=
  match fuel with
  | O => magnitude
  | S fuel' =>
      let newR := zr * zr - zi * zi + 0.3 in
      let newI := 2 * zr * zi + 0.1 in
      let magnitude := sqrt (newR * newR + newI * newI) in
      if Rgt_dec magnitude 2 then magnitude
      else mandel_loop fuel' newR newI magnitude
  end.

Definition mandelbrot (t scale freq amplitude : R) : R :=
  let magnitude := mandel_loop 8 (cos t) (sin t) 0 in
  scale * (1 + amplitude * sin (magnitude * freq * t)).

Definition fern (t scale freq amplitude : R) : R :=
  let leaf := exp (- t * 0.5) * cos (freq * t) * sin (t * 2) in
  scale * (1 + amplitude * leaf).

(** The keys of the registry, and the registry itself. *)
Inductive Pattern : Type :=
  Fibonacci | Dragon | Koch | Mandelbrot | Fern.

Definition fractalPatterns (name : Pattern) : R -> R -> R -> R -> R :=
  match name with
  | Fibonacci => fibonacci
  | Dragon => dragon
  | Koch => koch
  | Mandelbrot => mandelbrot
  | Fern => fern
  end.

(** [Object.keys(fractalPatterns)], in insertion order. *)
Definition patternTypes : list Pattern :=
  [Fibonacci; Dragon; Koch; Mandelbrot; Fern].

(** *** The pattern composer [finalPookalam] *)

Record Params : Type := mkParams {
  size : R;
  density : R;
  petals : R;
  style : Z;
  complexity : R;
  symmetry : R
}.

Inductive Layer : Type := main | petalsLayer | core.

Record Point : Type := mkPoint {
  x : R;
  y : R;
  depth : Z;
  layer : Layer;
  color : Z;
  pattern : Pattern
}.

Definition layer_eqb (a b : Layer) : bool :=
  match a, b with
  | main, main | petalsLayer, petalsLayer | core, core => true
  | _, _ => false
  end.

(** [Math.sqrt(x * x + y * y)] of a point. *)
Definition distanceFromOrigin (p : Point) : R :=
  sqrt (x p * x p + y p * y p).

Section Composer.

(** The generator of [src/utils/rng]: [mulberry32 seed k] is the value of
    the [k]-th call (from 0) of the closure [mulberry32(seed)]. *)
Variable mulberry32 : Z -> nat -> R.

(** Everything the layer loop reads that is fixed before it starts. *)
Record Setup : Type := mkSetup {
  baseRadius : R;
  complexityFactor : R;
  numLayers : Z;
  mainPetals : Z;
  goldenAngle : R;
  primaryPattern : Pattern;
  secondaryPattern : Pattern;
  asymmetryOffset : R
}.

(** Lines 67-82: the constants, the seeded generator and its three draws.
    A draw outside [0,1) indexes the registry out of range; the pattern
    name is then [undefined] and the first call through it throws. *)
Definition setup (params : Params) : option Setup :=
  let complexityFactor := Js.or_default (complexity params) 0.7 in
  let symmetryFactor := Js.or_default (symmetry params) 1.0 in
  let rand := mulberry32 (style params + 54321) in
  let len := IZR (Z.of_nat (length patternTypes)) in
  match Js.index patternTypes (Js.floor (rand 0%nat * len)),
        Js.index patternTypes (Js.floor (rand 1%nat * len)) with
  | Some primary, Some secondary =>
      Some {| baseRadius := size params;
              complexityFactor := complexityFactor;
              numLayers := Z.max 3 (Js.floor (density params * 10));
              mainPetals := Z.max 4 (Js.floor (petals params));
              goldenAngle := 2 * PI * PHI_INV;
              primaryPattern := primary;
              secondaryPattern := secondary;
              asymmetryOffset :=
                (1 - symmetryFactor) * (rand 2%nat - 0.5) * 0.3 |}
  | _, _ => None
  end.

(** The per-layer quantities of lines 85-93. *)
Definition layerProgress (s : Setup) (layerIdx : nat) : R :=
  INR layerIdx / (IZR (numLayers s) - 1).

Definition currentRadius (s : Setup) (layerIdx : nat) : R :=
  baseRadius s * (1 - layerProgress s layerIdx * 0.9).

Definition amplitude (s : Setup) (layerIdx : nat) : R :=
  (0.05 + complexityFactor s * 0.15) *
  (1 + sin (layerProgress s layerIdx * PI)).

(** Lines 96-122: the main ring point of a layer. *)
Definition r_main (s : Setup) (t : R) (layerIdx : nat) : R :=
  let patternBlend := sin (layerProgress s layerIdx * PI) in
  let primaryWeight := patternBlend in
  let secondaryWeight := 1 - patternBlend in
  let r1 := fractalPatterns (primaryPattern s) t
              (currentRadius s layerIdx) (IZR (mainPetals s))
              (amplitude s layerIdx) in
  let r2 := fractalPatterns (secondaryPattern s) (t + asymmetryOffset s)
              (currentRadius s layerIdx) (IZR (mainPetals s) * 0.7)
              (amplitude s layerIdx * 0.6) in
  Rmin (r1 * primaryWeight + r2 * secondaryWeight)
       (currentRadius s layerIdx).

Definition mainPoint (s : Setup) (t : R) (layerIdx : nat) : Point :=
  {| x := r_main s t layerIdx * cos t;
     y := r_main s t layerIdx * sin t;
     depth := Z.of_nat layerIdx * 50;
     layer := main;
     color := Js.floor (INR layerIdx * 7 / IZR (numLayers s));
     pattern := primaryPattern s |}.

(** Lines 126-129. *)
Definition numDetailPetals (s : Setup) : Z :=
  Js.floor (IZR (mainPetals s) * (0.5 + complexityFactor s * 0.5)).

(** Lines 132-165: one detail petal of a layer. *)
Definition petalPoint (s : Setup) (t : R) (layerIdx petalIdx : nat) : Point :=
  let petalRadius :=
    currentRadius s layerIdx * (0.4 + complexityFactor s * 0.3) in
  let petalAngle :=
    INR petalIdx / IZR (numDetailPetals s) * 2 * PI + INR layerIdx * 0.1 in
  let petalCenterRadius := currentRadius s layerIdx * 0.6 in
  let petalCenterX := petalCenterRadius * cos petalAngle in
  let petalCenterY := petalCenterRadius * sin petalAngle in
  let localT := t * (1 + INR petalIdx * 0.1) + petalAngle in
  let r_petal := fractalPatterns (secondaryPattern s) localT
                   (petalRadius * 0.4)
                   (IZR (Js.floor (4 + complexityFactor s * 4)))
                   (amplitude s layerIdx * 1.5) in
  let finalX := petalCenterX + r_petal * cos localT in
  let finalY := petalCenterY + r_petal * sin localT in
  let distanceFromOrigin := sqrt (finalX * finalX + finalY * finalY) in
  let scaleDown := baseRadius s / distanceFromOrigin in
  let clamp := if Rgt_dec distanceFromOrigin (baseRadius s) then true else false in
  {| x := if clamp then finalX * scaleDown else finalX;
     y := if clamp then finalY * scaleDown else finalY;
     depth := Z.of_nat layerIdx * 50 + 500;
     layer := petalsLayer;
     color := (Z.of_nat petalIdx + Z.of_nat layerIdx) mod 5 + 2;
     pattern := secondaryPattern s |}.

(** Lines 125-167: the detail petals of a layer. *)
Definition petalPoints (s : Setup) (t : R) (layerIdx : nat) : list Point :=
  if Rgt_dec (complexityFactor s) 0.4
  then map (petalPoint s t layerIdx) (seq 0 (Z.to_nat (numDetailPetals s)))
  else [].

(** Lines 171-188: the radius of the core point of a layer. *)
Definition r_core (s : Setup) (t : R) (layerIdx : nat) : R :=
  let coreRadius := currentRadius s layerIdx * 0.25 in
  let coreComplexity := Js.floor (4 + complexityFactor s * 8) in
  let coreAmplitude :=
    amplitude s layerIdx * (2 - layerProgress s layerIdx) in
  let r_core_base :=
    fold_left
      (fun acc harmonic =>
         acc +
         (fractalPatterns (primaryPattern s) (t * INR harmonic)
            (coreRadius / (INR harmonic * 2))
            (IZR coreComplexity * INR harmonic)
            (coreAmplitude / INR harmonic)
          - coreRadius / (INR harmonic * 2)))
      (seq 1 3) coreRadius in
  Rmin r_core_base coreRadius.

(** Lines 170-198: the core point, for the innermost layers only. *)
Definition corePoints (s : Setup) (t : R) (layerIdx : nat) : list Point :=
  if Rge_dec (INR layerIdx) (IZR (numLayers s) * 0.6)
  then [ {| x := r_core s t layerIdx
                 * cos (t + INR layerIdx * goldenAngle s);
            y := r_core s t layerIdx
                 * sin (t + INR layerIdx * goldenAngle s);
            depth := Z.of_nat layerIdx * 50 + 1000;
            layer := core;
            color := 7 + Z.of_nat layerIdx mod 2;
            pattern := primaryPattern s |} ]
  else [].

(** One turn of the layer loop: the points pushed, in push order. *)
Definition layerPoints (s : Setup) (t : R) (layerIdx : nat) : list Point :=
  mainPoint s t layerIdx :: petalPoints s t layerIdx ++ corePoints s t layerIdx.

(** [finalPookalam(params)(t)]: [None] when the call throws. *)
Definition finalPookalam (params : Params) (t : R) : option (list Point) :=
  match setup params with
  | Some s => Some (flat_map (layerPoints s t) (seq 0 (Z.to_nat (numLayers s))))
  | None => None
  end.

End Composer.

(** *** Vocabulary of the statements about the composer *)

(** The generator contract the composer relies on: every draw is in [0,1). *)
Definition unit_interval_rng (mulberry32 : Z -> nat -> R) : Prop :=
  forall seed k, 0 <= mulberry32 seed k < 1.

(** How many points of a fragment belong to a layer. *)
Definition count_layer (l : Layer) (pts : list Point) : nat :=
  List.length (filter (fun p => layer_eqb (layer p) l) pts).

(** A basis function stays in the band [scale * (1 ± amplitude * K)] for
    every phase and frequency (radius unit and modulation depth are not
    negative). *)
Definition within_band (f : R -> R -> R -> R -> R) (K : R) : Prop :=
  forall t scale freq amplitude,
    0 <= scale -> 0 <= amplitude ->
    scale * (1 - amplitude * K) <= f t scale freq amplitude
      <= scale * (1 + amplitude * K).

(** The logarithmic factor of [fibonacci]. *)
Definition fibScale (t : R) : R := 1 + ln (1 + t / (2 * PI)) * PHI_INV.

(** The preset [traditional] of lines 207-214, and variations of it. *)
Definition traditional : Params :=
  {| size := 100; density := 0.6; petals := 8; style := 1;
     complexity := 0.5; symmetry := 1.0 |}.

Definition with_complexity (c : R) (p : Params) : Params :=
  {| size := size p; density := density p; petals := petals p;
     style := style p; complexity := c; symmetry := symmetry p |}.

Definition with_style (n : Z) (p : Params) : Params :=
  {| size := size p; density := density p; petals := petals p;
     style := n; complexity := complexity p; symmetry := symmetry p |}.

(** A complexity far outside the documented range, with style 2. *)
Definition runaway : Params := with_complexity 100 (with_style 2 traditional).

Definition with_density (d : R) (p : Params) : Params :=
  {| size := size p; density := d; petals := petals p;
     style := style p; complexity := complexity p; symmetry := symmetry p |}.

Definition with_petals (n : R) (p : Params) : Params :=
  {| size := size p; density := density p; petals := n;
     style := style p; complexity := complexity p; symmetry := symmetry p |}.

End Pookalam.

(** ** [src/components/DrawingCanvas.jsx] *)

Module Canvas.

(** *** The animation state machine

    The refs of the component that the frame callback [animate], the
    transport controls and [handleReset] read and write. *)

Inductive Status : Type := drawing | holding | fading.

Record AnimationState : Type := mkAnimationState {
  progress : R;                      (* progressRef *)
  running : bool;                    (* runningRef *)
  status : Status;                   (* statusRef *)
  completionTimestamp : option R;    (* completionTimestampRef, None = null *)
  lastTime : R;                      (* lastTimeRef *)
  spriteAlpha : R;                   (* spriteAlphaRef *)
  pathAlpha : R                      (* pathAlphaRef *)
}.

(** The state at mount: the initial values of the refs. *)
Definition initialState (now : R) : AnimationState :=
  {| progress := 0; running := true; status := drawing;
     completionTimestamp := None; lastTime := now;
     spriteAlpha := 1; pathAlpha := 1 |}.

(** [null] read as a number. *)
Definition toNumber (v : option R) : R :=
  match v with Some r => r | None => 0 end.

(** [handleReset], lines 831-840. *)
Definition handleReset (s : AnimationState) : AnimationState :=
  {| progress := 0;
     running := if negb (running s) then true else running s;
     status := drawing;
     completionTimestamp := None;
     lastTime := lastTime s;
     spriteAlpha := 1;
     pathAlpha := 1 |}.

(** The [play] and [pause] controls, lines 1080-1085. *)
Definition play (s : AnimationState) : AnimationState :=
  {| progress := progress s; running := true; status := status s;
     completionTimestamp := completionTimestamp s; lastTime := lastTime s;
     spriteAlpha := spriteAlpha s; pathAlpha := pathAlpha s |}.

Definition pause (s : AnimationState) : AnimationState :=
  {| progress := progress s; running := false; status := status s;
     completionTimestamp := completionTimestamp s; lastTime := lastTime s;
     spriteAlpha := spriteAlpha s; pathAlpha := pathAlpha s |}.

(** The props and the memoised point sequence that [animate] closes over;
    of the sequence only the length is read. *)
Record AnimationProps : Type := mkAnimationProps {
  speed : R;
  holdDuration : R;
  fadeDuration : R;
  pointsLength : nat
}.

(** The drawing branch, lines 983-989. *)
Definition drawingStep (c : AnimationProps) (timestamp progressSpeed : R)
    (s : AnimationState) : AnimationState :=
  let progress' := progress s + progressSpeed in
  if Rge_dec progress' (INR (pointsLength c) - 1)
  then {| progress := INR (pointsLength c) - 1;
          running := running s;
          status := holding;
          completionTimestamp := Some timestamp;
          lastTime := lastTime s;
          spriteAlpha := spriteAlpha s; pathAlpha := pathAlpha s |}
  else {| progress := progress';
          running := running s;
          status := status s;
          completionTimestamp := completionTimestamp s;
          lastTime := lastTime s;
          spriteAlpha := spriteAlpha s; pathAlpha := pathAlpha s |}.

(** The holding branch, lines 990-994. *)
Definition holdingStep (c : AnimationProps) (timestamp : R)
    (s : AnimationState) : AnimationState :=
  if Rgt_dec (timestamp - toNumber (completionTimestamp s)) (holdDuration c)
  then {| progress := progress s; running := running s;
          status := fading;
          completionTimestamp := Some timestamp;
          lastTime := lastTime s;
          spriteAlpha := spriteAlpha s; pathAlpha := pathAlpha s |}
  else s.

(** The fading branch, lines 995-1000. *)
Definition fadingStep (c : AnimationProps) (timestamp : R)
    (s : AnimationState) : AnimationState :=
  let elapsedFade := timestamp - toNumber (completionTimestamp s) in
  let currentAlpha := Rmax 0 (1 - elapsedFade / fadeDuration c) in
  let s' := {| progress := progress s; running := running s;
               status := status s;
               completionTimestamp := completionTimestamp s;
               lastTime := lastTime s;
               spriteAlpha := currentAlpha; pathAlpha := currentAlpha |} in
  if Rle_dec currentAlpha 0 then handleReset s' else s'.

(** The state part of one call of [animate(timestamp)], lines 978-1001
    (drawing the scene and requesting the next frame change no ref). *)
Definition animate (c : AnimationProps) (timestamp : R)
    (s : AnimationState) : AnimationState :=
  let deltaTime := timestamp - lastTime s in
  let s := {| progress := progress s; running := running s;
              status := status s;
              completionTimestamp := completionTimestamp s;
              lastTime := timestamp;
              spriteAlpha := spriteAlpha s; pathAlpha := pathAlpha s |} in
  if running s && (0 <? pointsLength c)%nat then
    let progressSpeed := speed c * 50 * deltaTime / 1000 in
    match status s with
    | drawing => drawingStep c timestamp progressSpeed s
    | holding => holdingStep c timestamp s
    | fading => fadingStep c timestamp s
    end
  else s.

(** What can happen to the refs between two renders. *)
Inductive Event : Type :=
| Frame (timestamp : R)     (* the frame callback *)
| Play
| Pause
| Reset.                    (* the reset control *)

Definition step (c : AnimationProps) (s : AnimationState) (e : Event)
    : AnimationState :=
  match e with
  | Frame timestamp => animate c timestamp s
  | Play => play s
  | Pause => pause s
  | Reset => handleReset s
  end.

(** *** Vocabulary of the statements about the animation *)

(** The progress cursor is an index into the sequence. *)
Definition progress_in_range (c : AnimationProps) (s : AnimationState) : Prop :=
  0 <= progress s <= INR (pointsLength c) - 1.

(** A run of frames: the refs after calling [animate] at each timestamp. *)
Definition ticks (c : AnimationProps) (s : AnimationState) (tss : list R)
    : AnimationState :=
  fold_left (fun s timestamp => animate c timestamp s) tss s.

(** Every frame of the run finds the machine running and in the drawing
    phase, and no frame delta is negative. *)
Fixpoint drawing_ticks (c : AnimationProps) (s : AnimationState)
    (tss : list R) : Prop :=
  match tss with
  | [] => True
  | timestamp :: rest =>
      lastTime s <= timestamp /\ status s = drawing /\ running s = true /\
      drawing_ticks c (animate c timestamp s) rest
  end.

(** The states the refs can be in: from mount, by frames whose timestamps do
    not go back, and by the transport controls. *)
Inductive Reachable (c : AnimationProps) : AnimationState -> Prop :=
| reach_mount (now : R) : Reachable c (initialState now)
| reach_frame (s : AnimationState) (timestamp : R) :
    Reachable c s -> lastTime s <= timestamp ->
    Reachable c (animate c timestamp s)
| reach_control (s : AnimationState) (e : Event) :
    Reachable c s -> (forall timestamp, e <> Frame timestamp) ->
    Reachable c (step c s e).

(** The alpha that the fading branch computes at [timestamp]. *)
Definition currentAlpha (c : AnimationProps) (timestamp : R)
    (s : AnimationState) : R :=
  Rmax 0 (1 - (timestamp - toNumber (completionTimestamp s)) / fadeDuration c).

(** The two ways [handleReset] gets called on the refs: the reset control,
    and a frame of the fading phase whose alpha has reached 0. *)
Inductive resets (c : AnimationProps) (s : AnimationState) : Event -> Prop :=
| reset_control : resets c s Reset
| reset_after_fade (timestamp : R) :
    running s = true -> (0 < pointsLength c)%nat -> status s = fading ->
    currentAlpha c timestamp s <= 0 ->
    resets c s (Frame timestamp).

(** The state every reset leaves, whatever it found. *)
Definition freshly_reset (s : AnimationState) : Prop :=
  running s = true /\ progress s = 0 /\ spriteAlpha s = 1 /\
  pathAlpha s = 1 /\ status s = drawing.

(** The default props of the component (lines 728-733) over a sequence of
    100 points, and three states of its refs. *)
Definition defaultProps : AnimationProps :=
  {| speed := 2; holdDuration := 1500; fadeDuration := 2000;
     pointsLength := 100 |}.

Definition pausedState : AnimationState := pause (initialState 0).

Definition fadingState : AnimationState :=
  {| progress := 99; running := true; status := fading;
     completionTimestamp := Some 0; lastTime := 1990;
     spriteAlpha := 0.005; pathAlpha := 0.005 |}.

(** *** The view transform and the wheel handler *)

Record View : Type := mkView {
  width : R;
  height : R;
  scale : R;
  zoom : R;
  offset_x : R;
  offset_y : R
}.

(** [toCanvasCoords], lines 765-771. *)
Definition toCanvasCoords (v : View) (x y : R) : R * R :=
  (width v / 2 + (x + offset_x v) * scale v * zoom v,
   height v / 2 - (y + offset_y v) * scale v * zoom v).

(** [toWorldCoords], lines 773-779. *)
Definition toWorldCoords (v : View) (cx cy : R) : R * R :=
  ((cx - width v / 2) / (scale v * zoom v) - offset_x v,
   (height v / 2 - cy) / (scale v * zoom v) - offset_y v).

(** The world point under a surface point is the same in two views. *)
Definition same_world_point (v v' : View) (cx cy : R) : Prop :=
  toWorldCoords v cx cy = toWorldCoords v' cx cy.

(** What the wheel handler reads of the event and of
    [getBoundingClientRect()]. *)
Record WheelEvent : Type := mkWheelEvent {
  clientX : R;
  clientY : R;
  deltaY : R
}.

Record Rect : Type := mkRect {
  left : R;
  top : R;
  rect_width : R;
  rect_height : R
}.

(** The cursor in surface coordinates, lines 1059-1060. *)
Definition mouseX (v : View) (rect : Rect) (e : WheelEvent) : R :=
  (clientX e - left rect) * (width v / rect_width rect).

Definition mouseY (v : View) (rect : Rect) (e : WheelEvent) : R :=
  (clientY e - top rect) * (height v / rect_height rect).

(** Line 1062-1064. *)
Definition newZoom (v : View) (e : WheelEvent) : R :=
  let zoomFactor := 0.1 in
  let delta := if Rgt_dec (deltaY e) 0 then - zoomFactor else zoomFactor in
  Rmin (Rmax 0.01 (zoom v + delta * zoom v)) 100.

(** [handleWheel], lines 1052-1077: the view after the calls of [setZoom]
    and [setOffset], or [None] when the handler returns before them.
    [setZoomIsFunction] is the test [typeof setZoom === "function"]. *)
Definition handleWheel (setZoomIsFunction : bool) (v : View) (rect : Rect)
    (e : WheelEvent) : option View :=
  if negb setZoomIsFunction then None
  else
    let mouseX := mouseX v rect e in
    let mouseY := mouseY v rect e in
    let newZoom := newZoom v e in
    if Req_dec_T newZoom (zoom v) then None
    else
      let worldX := (mouseX - width v / 2) / (scale v * zoom v) - offset_x v in
      let worldY := (height v / 2 - mouseY) / (scale v * zoom v) - offset_y v in
      let newOffsetX := (mouseX - width v / 2) / (scale v * newZoom) - worldX in
      let newOffsetY := (height v / 2 - mouseY) / (scale v * newZoom) - worldY in
      Some {| width := width v; height := height v; scale := scale v;
              zoom := newZoom;
              offset_x := newOffsetX; offset_y := newOffsetY |}.

(** The first component of the file, [EnhancedDrawingCanvas]: it keeps the
    zoom in its own state, reads the cursor without rescaling and clamps the
    zoom to [0.1, 10]. *)
Module Enhanced.

Definition mouseX (rect : Rect) (e : WheelEvent) : R := clientX e - left rect.
Definition mouseY (rect : Rect) (e : WheelEvent) : R := clientY e - top rect.

(** Lines 517-519. *)
Definition newZoom (v : View) (e : WheelEvent) : R :=
  let zoomFactor := 0.1 in
  let delta := if Rgt_dec (deltaY e) 0 then - zoomFactor else zoomFactor in
  Rmin (Rmax 0.1 (zoom v + delta * zoom v)) 10.

(** [handleWheel], lines 510-532. *)
Definition handleWheel (v : View) (rect : Rect) (e : WheelEvent)
    : option View :=
  let mouseX := mouseX rect e in
  let mouseY := mouseY rect e in
  let newZoom := newZoom v e in
  if Req_dec_T newZoom (zoom v) then None
  else
    let newOffsetX :=
      offset_x v
      - ((mouseX - width v / 2) / scale v) * (1 / zoom v - 1 / newZoom) in
    let newOffsetY :=
      offset_y v
      + ((mouseY - height v / 2) / scale v) * (1 / zoom v - 1 / newZoom) in
    Some {| width := width v; height := height v; scale := scale v;
            zoom := newZoom;
            offset_x := newOffsetX; offset_y := newOffsetY |}.

End Enhanced.

(** The default canvas (800 x 500, 50 pixels per unit) shown at half its
    resolution, and a wheel turn towards the user over its upper right. *)
Definition defaultView : View :=
  {| width := 800; height := 500; scale := 50; zoom := 1;
     offset_x := 0; offset_y := 0 |}.

Definition halfRect : Rect :=
  {| left := 10; top := 20; rect_width := 400; rect_height := 250 |}.

Definition wheelIn : WheelEvent :=
  {| clientX := 310; clientY := 70; deltaY := -100 |}.

(** *** The segment partition [pathSegments] *)

Inductive Mode : Type :=
| fractal | oneD | parametric | implicit
| otherMode.     (* any other string *)

Definition is_fractal (m : Mode) : bool :=
  match m with fractal => true | _ => false end.

Section Segments.

(** The generator of [src/utils/rng], as in the composer. *)
Variable mulberry32 : Z -> nat -> R.

(** The type of the point objects: the partition never looks inside them. *)
Variable A : Type.

Record Segment : Type := mkSegment {
  color : string;
  points : list A
}.

Definition colors : list string :=
  [ "255, 165, 0"; "220, 20, 60"; "255, 215, 0";
    "139, 0, 139"; "0, 191, 255"; "50, 205, 50" ]%string.

(** The variables of the loop of lines 811-824; [calls] counts the calls of
    [rand()] made so far. *)
Record SegmentLoop : Type := mkSegmentLoop {
  segments : list Segment;
  colorIndex : nat;
  calls : nat;
  pointsUntilChange : Z;
  currentSegment : Segment
}.

(** [Math.floor(rand() * 400 + 200)]. *)
Definition nextRun (rand : nat -> R) (k : nat) : Z :=
  Js.floor (rand k * 400 + 200).

Definition colorAt (i : nat) : string := nth i colors ""%string.

(** Lines 811-814. *)
Definition segmentInit (rand : nat -> R) : SegmentLoop :=
  {| segments := [];
     colorIndex := 0;
     calls := 1;
     pointsUntilChange := nextRun rand 0;
     currentSegment := {| color := colorAt 0; points := [] |} |}.

(** The body of [for (const point of points)], lines 816-823. *)
Definition segmentStep (rand : nat -> R) (st : SegmentLoop) (point : A)
    : SegmentLoop :=
  let current := {| color := color (currentSegment st);
                    points := points (currentSegment st) ++ [point] |} in
  let pointsUntilChange := (pointsUntilChange st - 1)%Z in
  if (pointsUntilChange <=? 0)%Z then
    let colorIndex := ((colorIndex st + 1) mod length colors)%nat in
    {| segments := segments st ++ [current];
       colorIndex := colorIndex;
       calls := S (calls st);
       pointsUntilChange := nextRun rand (calls st);
       currentSegment := {| color := colorAt colorIndex; points := [] |} |}
  else
    {| segments := segments st;
       colorIndex := colorIndex st;
       calls := calls st;
       pointsUntilChange := pointsUntilChange;
       currentSegment := current |}.

(** [pathSegments], lines 797-829. *)
Definition pathSegments (mode : Mode) (pts : list A) : list Segment :=
  match pts with
  | [] => []
  | _ :: _ =>
      if negb (is_fractal mode)
      then [ {| color := "52, 152, 219"; points := pts |} ]
      else
        let rand := mulberry32 (Z.of_nat (length pts)) in
        let st := fold_left (segmentStep rand) pts (segmentInit rand) in
        if (0 <? length (points (currentSegment st)))%nat
        then segments st ++ [currentSegment st]
        else segments st
  end.

End Segments.

Arguments color {A} _.
Arguments points {A} _.
Arguments segments {A} _.
Arguments colorIndex {A} _.
Arguments calls {A} _.
Arguments pointsUntilChange {A} _.
Arguments currentSegment {A} _.
Arguments segmentStep {A} rand st point.
Arguments segmentInit {A} rand.
Arguments pathSegments mulberry32 {A} mode pts.

(** What is left of a segment when its points are forgotten: its colour and
    how many points it holds. *)
Definition outline {A : Type} (g : Segment A) : string * nat :=
  (color g, List.length (points g)).

(** The points the segment loop has consumed so far, in order. *)
Definition consumed {A : Type} (st : SegmentLoop A) : list A :=
  concat (map points (segments st)) ++ points (currentSegment st).

(** No segment is pushed empty. *)
Definition pushed_nonempty {A : Type} (st : SegmentLoop A) : Prop :=
  Forall (fun g => points g <> []) (segments st).

(** The loop variables with the points forgotten. *)
Definition shape {A : Type} (st : SegmentLoop A)
    : list (string * nat) * nat * nat * Z * (string * nat) :=
  (map outline (segments st), colorIndex st, calls st, pointsUntilChange st,
   outline (currentSegment st)).

(** Three points, and three labels standing for other points. *)
Definition threePoints : list (R * R) := [(1, 0); (0, 1); (-1, 0)].
Definition threeLabels : list string := ["a"; "b"; "c"]%string.

End Canvas.

(** ** The point sampler [EquationPlotter] of [DrawingCanvas.jsx]

    Lines 618-670.  Its subject is which samples are kept, and that depends on
    NaN and Infinity: numbers are binary64 floats here.  The loops run on a
    float counter, so they take fuel; [None] is a loop that has not ended
    within it. *)

Module Plotter.

Import PrimFloat.
Local Open Scope float_scope.

(** The [{ x, y }] of a point object. *)
Record SamplePoint : Type := mkSamplePoint {
  x : float;
  y : float
}.

(** [Number.isFinite] on a number. *)
Definition isFinite (v : float) : bool := is_finite v.

(** [Math.PI]. *)
Definition Math_PI : float := 0x1.921fb54442d18p+1.

(** The [equation] prop: not a function, a function from the angle to an
    array of points (what fractal mode spreads), or a function to a number
    (what 1d mode plots). *)
Inductive EquationProp : Type :=
| notAFunction
| pointsFunction (f : float -> list SamplePoint)
| numberFunction (f : float -> float).

(** [view], of which only the bounds are read. *)
Record ViewBox : Type := mkViewBox {
  xMin : float;
  xMax : float;
  yMin : float;
  yMax : float
}.

(** Lines 631-633: [for (let t = 0; t < Math.PI * 2; t += tStep)]. *)
Fixpoint fractalLoop (fuel : nat) (equation : float -> list SamplePoint)
    (tStep t : float) (points : list SamplePoint)
    : option (list SamplePoint) :=
  match fuel with
  | O => None
  | S fuel' =>
      if t <? Math_PI * 2
      then fractalLoop fuel' equation tStep (t + tStep) (points ++ equation t)
      else Some points
  end.

(** Lines 636-641: [for (let x = xMin; x <= xMax; x += step)]. *)
Fixpoint oneDLoop (fuel : nat) (equation : float -> float)
    (xMax step x : float) (points : list SamplePoint)
    : option (list SamplePoint) :=
  match fuel with
  | O => None
  | S fuel' =>
      if x <=? xMax
      then
        let y := equation x in
        oneDLoop fuel' equation xMax step (x + step)
          (if isFinite y then points ++ [ {| x := x; y := y |} ] else points)
      else Some points
  end.

(** Lines 646-651; a falsy [result] is [None]. *)
Fixpoint parametricLoop (fuel : nat) (parametric : float -> option SamplePoint)
    (tRange step t : float) (points : list SamplePoint)
    : option (list SamplePoint) :=
  match fuel with
  | O => None
  | S fuel' =>
      if t <=? tRange
      then
        parametricLoop fuel' parametric tRange step (t + step)
          (match parametric t with
           | Some result =>
               if isFinite (x result) && isFinite (y result)
               then points ++ [ {| x := x result; y := y result |} ]
               else points
           | None => points
           end)
      else Some points
  end.

(** Lines 658-663: the inner loop on [y]. *)
Fixpoint implicitInner (fuel : nat) (implicit : float -> float -> float)
    (yMax stepY x y : float) (points : list SamplePoint)
    : option (list SamplePoint) :=
  match fuel with
  | O => None
  | S fuel' =>
      if y <=? yMax
      then
        let value := implicit x y in
        let tolerance := 0x1.999999999999ap-4 in     (* 0.1 *)
        implicitInner fuel' implicit yMax stepY x (y + stepY)
          (if abs value <? tolerance
           then points ++ [ {| x := x; y := y |} ] else points)
      else Some points
  end.

(** Lines 657-664: the outer loop on [x]. *)
Fixpoint implicitOuter (fuel : nat) (implicit : float -> float -> float)
    (v : ViewBox) (stepX stepY x : float) (points : list SamplePoint)
    : option (list SamplePoint) :=
  match fuel with
  | O => None
  | S fuel' =>
      if x <=? xMax v
      then
        match implicitInner fuel' implicit (yMax v) stepY x (yMin v) points with
        | Some points' =>
            implicitOuter fuel' implicit v stepX stepY (x + stepX) points'
        | None => None
        end
      else Some points
  end.

(** [EquationPlotter].  Spreading a number throws at the first turn of the
    fractal loop and the [catch] returns the points gathered, none; an array
    fails [Number.isFinite], as NaN does. *)
Definition EquationPlotter (fuel : nat) (mode : Canvas.Mode)
    (equation : EquationProp)
    (parametric : option (float -> option SamplePoint))
    (implicit : option (float -> float -> float))
    (resolution : float) (view : ViewBox) : option (list SamplePoint) :=
  match mode, equation, parametric, implicit with
  | Canvas.fractal, pointsFunction f, _, _ =>
      let tStep := (Math_PI * 2) / (resolution * 20) in
      fractalLoop fuel f tStep 0 []
  | Canvas.fractal, numberFunction _, _, _ => Some []
  | Canvas.oneD, numberFunction f, _, _ =>
      let step := 1 / resolution in
      oneDLoop fuel f (xMax view) step (xMin view) []
  | Canvas.oneD, pointsFunction _, _, _ =>
      let step := 1 / resolution in
      oneDLoop fuel (fun _ => nan) (xMax view) step (xMin view) []
  | Canvas.parametric, _, Some p, _ =>
      let tRange := Math_PI * 2 in
      let numPoints := resolution * 200 in
      let step := (tRange * 2) / numPoints in
      parametricLoop fuel p tRange step (- tRange) []
  | Canvas.implicit, _, _, Some g =>
      let numSteps := resolution * 15 in
      let stepX := (xMax view - xMin view) / numSteps in
      let stepY := (yMax view - yMin view) / numSteps in
      implicitOuter fuel g view stepX stepY (xMin view) []
  | _, _, _, _ => Some []
  end.

(** The view the component samples over (line 782), and a source of points
    whose abscissa is not a number. *)
Definition staticView : ViewBox :=
  {| xMin := -12; xMax := 12; yMin := -12; yMax := 12 |}.

Definition nanSource (t : float) : list SamplePoint :=
  [ {| x := nan; y := t |} ].

(** Every point of a sequence passes [Number.isFinite] on the coordinates
    that come from the source. *)
Definition all_finite (pts : list SamplePoint) : Prop :=
  Forall (fun p => isFinite (x p) = true /\ isFinite (y p) = true) pts.

Definition all_finite_y (pts : list SamplePoint) : Prop :=
  Forall (fun p => isFinite (y p) = true) pts.

End Plotter.

(** ** The renderer of [DrawingCanvas.jsx] *)

Module Scene.

(** [Math.log10], on positive numbers. *)
Definition log10 (x : R) : R := ln x / ln 10.

(** [Math.pow(10, n)] for an integer [n]. *)
Definition pow10 (n : Z) : R := Rpower 10 (IZR n).

(** [calculateAdaptiveGridStep], lines 600-613. *)
Definition calculateAdaptiveGridStep (currentScale : R) : R :=
  let desiredPixelSpacing := 60 in
  let minUnitsPerLine := desiredPixelSpacing / currentScale in
  let magnitude := pow10 (Js.floor (log10 minUnitsPerLine)) in
  let residual := minUnitsPerLine / magnitude in
  if Rgt_dec residual 5 then 10 * magnitude
  else if Rgt_dec residual 2 then 5 * magnitude
  else 2 * magnitude.

(** [a || b] on objects: [undefined] is the only falsy one. *)
Definition or_else {A : Type} (a b : option A) : option A :=
  match a with Some _ => a | None => b end.

(** What [Sprite] paints: the image, translated to the position and rotated,
    or the fallback dot (lines 701-713). *)
Inductive SpriteCommand : Type :=
| drawImage (spriteX spriteY angle alpha : R)
| fillDot (spriteX spriteY alpha : R).

Section SpriteSection.

(** [Math.atan2]. *)
Variable atan2 : R -> R -> R.

(** Lines 681-691: where the marker goes; [None] is a read through
    [undefined], which throws. *)
Definition spritePosition (pts : list (R * R)) (currentIndex lastIndex : Z)
    (frac : R) : option (R * R) :=
  if (currentIndex >=? lastIndex)%Z then Js.index pts lastIndex
  else
    let current := or_else (Js.index pts currentIndex) (Js.index pts 0) in
    let next :=
      or_else (Js.index pts (Z.min (currentIndex + 1) lastIndex)) current in
    match current, next with
    | Some current, Some next =>
        Some (fst current + (fst next - fst current) * frac,
              snd current + (snd next - snd current) * frac)
    | _, _ => None
    end.

(** Lines 692-699: which way the marker points. *)
Definition spriteAngle (pts : list (R * R)) (currentIndex lastIndex : Z)
    : option R :=
  if (0 <? currentIndex)%Z && (currentIndex <? Z.of_nat (List.length pts) - 1)%Z
  then
    match Js.index pts (Z.max 0 (currentIndex - 1)),
          Js.index pts (Z.min (currentIndex + 1) lastIndex) with
    | Some prev, Some next =>
        Some (atan2 (snd next - snd prev) (fst next - fst prev))
    | _, _ => None
    end
  else if (1 <? List.length pts)%nat then
    match Js.index pts 1, Js.index pts 0 with
    | Some p1, Some p0 => Some (atan2 (snd p1 - snd p0) (fst p1 - fst p0))
    | _, _ => None
    end
  else Some 0.

(** [Sprite], lines 675-714, for an array [pts] of surface points.
    [spriteComplete] is the test [sprite && sprite.complete]; [None] is a
    call that paints nothing. *)
Definition Sprite (pts : list (R * R)) (progress alpha : R)
    (spriteComplete : bool) : option SpriteCommand :=
  if (List.length pts =? 0)%nat then None
  else
    let lastIndex := (Z.of_nat (List.length pts) - 1)%Z in
    let safeProgress := Rmax 0 (Rmin progress (IZR lastIndex)) in
    let currentIndex := Js.floor safeProgress in
    let frac := safeProgress - IZR currentIndex in
    match Js.index pts currentIndex with
    | None => None
    | Some _ =>
        match spritePosition pts currentIndex lastIndex frac,
              spriteAngle pts currentIndex lastIndex with
        | Some (spriteX, spriteY), Some angle =>
            Some (if spriteComplete
                  then drawImage spriteX spriteY angle alpha
                  else fillDot spriteX spriteY alpha)
        | _, _ => None
        end
    end.

End SpriteSection.

(** One [beginPath ... stroke] of the path loop. *)
Record Stroke : Type := mkStroke {
  strokeColor : string;
  strokeAlpha : R;
  lineWidth : Z;
  path : list (R * R)
}.

Section PathSection.

(** The point objects and their [x] and [y]. *)
Variable A : Type.
Variable coords : A -> R * R.

(** Line 921-924. *)
Definition pointsToDraw (s : Canvas.AnimationState) (pointsLength : nat) : Z :=
  match Canvas.status s with
  | Canvas.drawing => Js.floor (Canvas.progress s)
  | _ => Z.of_nat pointsLength
  end.

(** The loop of lines 925-948 over the remaining segments: the strokes
    painted, in order. *)
Fixpoint drawSegments (v : Canvas.View) (mode : Canvas.Mode) (pathAlpha : R)
    (pointsToDraw : Z) (segments : list (Canvas.Segment A)) : list Stroke :=
  match segments with
  | [] => []
  | segment :: rest =>
      if (pointsToDraw <=? 0)%Z then []
      else
        let pointsInThisSegment :=
          Z.min (Z.of_nat (List.length (Canvas.points segment))) pointsToDraw in
        let segmentPoints :=
          firstn (Z.to_nat pointsInThisSegment) (Canvas.points segment) in
        let pointsToDraw' :=
          (pointsToDraw - Z.of_nat (List.length segmentPoints))%Z in
        if (List.length segmentPoints <? 2)%nat
        then drawSegments v mode pathAlpha pointsToDraw' rest
        else
          {| strokeColor := Canvas.color segment;
             strokeAlpha := pathAlpha;
             lineWidth := if Canvas.is_fractal mode then 2 else 3;
             path := map (fun p => Canvas.toCanvasCoords v (fst (coords p))
                                     (snd (coords p)))
                         segmentPoints |}
          :: drawSegments v mode pathAlpha pointsToDraw' rest
  end.

End PathSection.

Arguments drawSegments {A} coords v mode pathAlpha pointsToDraw segments.

(** The points the path loop goes through before it stops, painted or not:
    the slices [segment.points.slice(0, pointsInThisSegment)]. *)
Fixpoint slices {A : Type} (pointsToDraw : Z)
    (segments : list (Canvas.Segment A)) : list (list A) :=
  match segments with
  | [] => []
  | segment :: rest =>
      if (pointsToDraw <=? 0)%Z then []
      else
        let segmentPoints :=
          firstn (Z.to_nat (Z.min (Z.of_nat (List.length (Canvas.points segment)))
                                  pointsToDraw))
                 (Canvas.points segment) in
        segmentPoints
        :: slices (pointsToDraw - Z.of_nat (List.length segmentPoints)) rest
  end.

End Scene.

(** ** The pointer handlers of [DrawingCanvas.jsx] and the zoom buttons of
    [App.jsx] *)

Module Pointer.

(** What the mouse handlers read of the event. *)
Record MouseEvent : Type := mkMouseEvent {
  clientX : R;
  clientY : R
}.

(** The refs [isDragging] and [lastMousePos]. *)
Record Drag : Type := mkDrag {
  isDragging : bool;
  lastMousePos : R * R
}.

(** The cursor in surface coordinates, lines 1024-1025 and 1037-1038. *)
Definition surfacePos (v : Canvas.View) (rect : Canvas.Rect) (e : MouseEvent)
    : R * R :=
  ((clientX e - Canvas.left rect)
     * (Canvas.width v / Canvas.rect_width rect),
   (clientY e - Canvas.top rect)
     * (Canvas.height v / Canvas.rect_height rect)).

(** [handleMouseDown], lines 1019-1029. *)
Definition handleMouseDown (v : Canvas.View) (rect : Canvas.Rect)
    (e : MouseEvent) (d : Drag) : Drag :=
  {| isDragging := true; lastMousePos := surfacePos v rect e |}.

(** [handleMouseUp], lines 1030-1032. *)
Definition handleMouseUp (d : Drag) : Drag :=
  {| isDragging := false; lastMousePos := lastMousePos d |}.

(** [handleMouseMove], lines 1033-1051: the refs and the view after it. *)
Definition handleMouseMove (v : Canvas.View) (rect : Canvas.Rect)
    (e : MouseEvent) (d : Drag) : Drag * Canvas.View :=
  if negb (isDragging d) then (d, v)
  else
    let currentMouseX := fst (surfacePos v rect e) in
    let currentMouseY := snd (surfacePos v rect e) in
    let dx_canvas := currentMouseX - fst (lastMousePos d) in
    let dy_canvas := currentMouseY - snd (lastMousePos d) in
    let dx_world := dx_canvas / (Canvas.scale v * Canvas.zoom v) in
    let dy_world := dy_canvas / (Canvas.scale v * Canvas.zoom v) in
    ({| isDragging := isDragging d;
        lastMousePos := (currentMouseX, currentMouseY) |},
     {| Canvas.width := Canvas.width v; Canvas.height := Canvas.height v;
        Canvas.scale := Canvas.scale v; Canvas.zoom := Canvas.zoom v;
        Canvas.offset_x := Canvas.offset_x v + dx_world;
        Canvas.offset_y := Canvas.offset_y v - dy_world |}).

(** A drag gesture after the button went down: the moves, in order. *)
Fixpoint moves (rect : Canvas.Rect) (es : list MouseEvent)
    (d : Drag) (v : Canvas.View) : Drag * Canvas.View :=
  match es with
  | [] => (d, v)
  | e :: rest =>
      let (d', v') := handleMouseMove v rect e d in moves rect rest d' v'
  end.

(** A view with another zoom. *)
Definition setZoom (z : R) (v : Canvas.View) : Canvas.View :=
  {| Canvas.width := Canvas.width v; Canvas.height := Canvas.height v;
     Canvas.scale := Canvas.scale v; Canvas.zoom := z;
     Canvas.offset_x := Canvas.offset_x v;
     Canvas.offset_y := Canvas.offset_y v |}.

(** [handleZoomIn] and [handleZoomOut] of [App.jsx], lines 184-185. *)
Definition handleZoomIn (prev : R) : R := Rmin (prev * 1.3) 100.
Definition handleZoomOut (prev : R) : R := Rmax (prev / 1.3) 0.01.

(** [handleResetView] of [App.jsx], lines 179-182, with the [resetView] it
    calls (lines 1087-1090). *)
Definition handleResetView (v : Canvas.View) : Canvas.View :=
  {| Canvas.width := Canvas.width v; Canvas.height := Canvas.height v;
     Canvas.scale := Canvas.scale v; Canvas.zoom := 1;
     Canvas.offset_x := 0; Canvas.offset_y := 0 |}.

(** What can change the zoom of the application. *)
Inductive ZoomEvent : Type :=
| Wheel (rect : Canvas.Rect) (e : Canvas.WheelEvent)
| ZoomIn
| ZoomOut
| ResetView.

Definition zoomStep (v : Canvas.View) (e : ZoomEvent) : Canvas.View :=
  match e with
  | Wheel rect w =>
      match Canvas.handleWheel true v rect w with
      | Some v' => v'
      | None => v
      end
  | ZoomIn => setZoom (handleZoomIn (Canvas.zoom v)) v
  | ZoomOut => setZoom (handleZoomOut (Canvas.zoom v)) v
  | ResetView => handleResetView v
  end.

End Pointer.

(** ** Vocabulary of the further statements *)

Module Notions.

Import Canvas.

(** The alphas of the refs: equal, in [0,1], and 1 outside the fading
    phase. *)
Definition alphas_sound (s : AnimationState) : Prop :=
  spriteAlpha s = pathAlpha s /\ 0 <= pathAlpha s <= 1 /\
  (status s <> fading -> pathAlpha s = 1).

(** Outside the drawing phase the completion timestamp is set and is not
    later than the last frame. *)
Definition completion_recorded (s : AnimationState) : Prop :=
  status s <> drawing ->
  exists t, completionTimestamp s = Some t /\ t <= lastTime s.

(** The refs with another [lastTime]. *)
Definition at_time (now : R) (s : AnimationState) : AnimationState :=
  {| progress := progress s; running := running s; status := status s;
     completionTimestamp := completionTimestamp s; lastTime := now;
     spriteAlpha := spriteAlpha s; pathAlpha := pathAlpha s |}.

(** A zoom the application can be at. *)
Definition zoom_in_range (v : View) : Prop := 0.01 <= zoom v <= 100.

(** The point between [a] and [b] at the fraction [frac] of the way. *)
Definition lerp (a b : R * R) (frac : R) : R * R :=
  (fst a + (fst b - fst a) * frac, snd a + (snd b - snd a) * frac).

(** The position of a sprite command. *)
Definition commandPosition (c : Scene.SpriteCommand) : R * R :=
  match c with
  | Scene.drawImage x y _ _ => (x, y)
  | Scene.fillDot x y _ => (x, y)
  end.

(** The locals [lastIndex], [safeProgress] and [currentIndex] of [Sprite]
    (lines 677-679), and the last two as naturals. *)
Definition lastIndex (pts : list (R * R)) : Z :=
  (Z.of_nat (List.length pts) - 1)%Z.

Definition safeProgress (pts : list (R * R)) (progress : R) : R :=
  Rmax 0 (Rmin progress (IZR (lastIndex pts))).

Definition currentIndex (pts : list (R * R)) (progress : R) : Z :=
  Js.floor (safeProgress pts progress).

Definition lastNat (pts : list (R * R)) : nat := (List.length pts - 1)%nat.

Definition markerIndex (pts : list (R * R)) (progress : R) : nat :=
  Z.to_nat (currentIndex pts progress).

(** The surface points of a list of point objects: the
    [map((p) => toCanvasCoords(p.x, p.y))] of lines 936 and 949. *)
Definition surfacePath {A : Type} (coords : A -> R * R) (v : View)
    (l : list A) : list (R * R) :=
  map (fun p => toCanvasCoords v (fst (coords p)) (snd (coords p))) l.

(** A slice the path loop strokes: it has two points or more. *)
Definition strokable {A : Type} (l : list A) : bool :=
  (2 <=? List.length l)%nat.

(** Parameters with another symmetry, and with another size. *)
Definition with_symmetry (sy : R) (p : Pookalam.Params) : Pookalam.Params :=
  {| Pookalam.size := Pookalam.size p; Pookalam.density := Pookalam.density p;
     Pookalam.petals := Pookalam.petals p; Pookalam.style := Pookalam.style p;
     Pookalam.complexity := Pookalam.complexity p;
     Pookalam.symmetry := sy |}.

Definition with_size (sz : R) (p : Pookalam.Params) : Pookalam.Params :=
  {| Pookalam.size := sz; Pookalam.density := Pookalam.density p;
     Pookalam.petals := Pookalam.petals p; Pookalam.style := Pookalam.style p;
     Pookalam.complexity := Pookalam.complexity p;
     Pookalam.symmetry := Pookalam.symmetry p |}.

(** A point moved away from the origin by the factor [k]. *)
Definition scalePoint (k : R) (p : Pookalam.Point) : Pookalam.Point :=
  {| Pookalam.x := k * Pookalam.x p; Pookalam.y := k * Pookalam.y p;
     Pookalam.depth := Pookalam.depth p; Pookalam.layer := Pookalam.layer p;
     Pookalam.color := Pookalam.color p;
     Pookalam.pattern := Pookalam.pattern p |}.

(** The first layer index that gets a core point: the least integer that
    is at least [0.6 * numLayers]. *)
Definition firstCoreLayer (numLayers : Z) : Z := ((3 * numLayers + 4) / 5)%Z.

(** What the segment loop keeps true between two points: [rand] has been
    called once more than segments were pushed; the colour index is the
    number of segments pushed, modulo 6; the [i]-th segment pushed has the
    [i]-th colour of the cycle and as many points as the [i]-th draw said;
    the segment being filled has the next colour and is short of its draw by
    [pointsUntilChange], which is at least 1. *)
Definition runs_sound {A : Type} (rand : nat -> R) (st : SegmentLoop A)
    : Prop :=
  calls st = S (List.length (segments st)) /\
  colorIndex st = (List.length (segments st) mod 6)%nat /\
  color (currentSegment st) = colorAt (colorIndex st) /\
  (1 <= pointsUntilChange st)%Z /\
  (Z.of_nat (List.length (points (currentSegment st))) + pointsUntilChange st
   = nextRun rand (List.length (segments st)))%Z /\
  forall i g,
    nth_error (segments st) i = Some g ->
    color g = colorAt (i mod 6) /\
    Z.of_nat (List.length (points g)) = nextRun rand i.

(** The locals [finalX] and [finalY] of a detail petal before the test of
    line 152. *)
Definition unclampedPetal (s : Pookalam.Setup) (t : R)
    (layerIdx petalIdx : nat) : R * R :=
  let petalRadius :=
    Pookalam.currentRadius s layerIdx
    * (0.4 + Pookalam.complexityFactor s * 0.3) in
  let petalAngle :=
    INR petalIdx / IZR (Pookalam.numDetailPetals s) * 2 * PI
    + INR layerIdx * 0.1 in
  let petalCenterRadius := Pookalam.currentRadius s layerIdx * 0.6 in
  let localT := t * (1 + INR petalIdx * 0.1) + petalAngle in
  let r_petal :=
    Pookalam.fractalPatterns (Pookalam.secondaryPattern s) localT
      (petalRadius * 0.4)
      (IZR (Js.floor (4 + Pookalam.complexityFactor s * 4)))
      (Pookalam.amplitude s layerIdx * 1.5) in
  (petalCenterRadius * cos petalAngle + r_petal * cos localT,
   petalCenterRadius * sin petalAngle + r_petal * sin localT).

(** A setup with a base radius [k] times as long. *)
Definition resized (k : R) (s : Pookalam.Setup) : Pookalam.Setup :=
  {| Pookalam.baseRadius := k * Pookalam.baseRadius s;
     Pookalam.complexityFactor := Pookalam.complexityFactor s;
     Pookalam.numLayers := Pookalam.numLayers s;
     Pookalam.mainPetals := Pookalam.mainPetals s;
     Pookalam.goldenAngle := Pookalam.goldenAngle s;
     Pookalam.primaryPattern := Pookalam.primaryPattern s;
     Pookalam.secondaryPattern := Pookalam.secondaryPattern s;
     Pookalam.asymmetryOffset := Pookalam.asymmetryOffset s |}.

(** A segment that is none: the value of an index out of range. *)
Definition noSegment {A : Type} : Segment A :=
  {| color := ""%string; points := [] |}.

End Notions.

(** * Properties *)

(** ** The animation state machine *)

Module AnimationFacts.

Import Canvas.

(** Case analysis on the tests of the frame callback. *)
Ltac split_tests :=
  repeat match goal with
  | |- context [Rge_dec ?a ?b] => destruct (Rge_dec a b)
  | |- context [Rgt_dec ?a ?b] => destruct (Rgt_dec a b)
  | |- context [Rle_dec ?a ?b] => destruct (Rle_dec a b)
  end.

Lemma nonempty_length (c : AnimationProps) :
  (0 < pointsLength c)%nat -> 0 <= INR (pointsLength c) - 1.
Proof.
  intros H. apply (le_INR 1) in H. cbn in H. lra.
Qed.

Lemma guard_open (c : AnimationProps) (b : bool) :
  b = true -> (0 < pointsLength c)%nat ->
  b && (0 <? pointsLength c)%nat = true.
Proof.
  intros -> H. apply Nat.ltb_lt in H. now rewrite H.
Qed.

(** A paused machine, or one with no points, only records the timestamp. *)
Lemma animate_guarded (c : AnimationProps) (timestamp : R) (s : AnimationState) :
  running s && (0 <? pointsLength c)%nat = false ->
  progress (animate c timestamp s) = progress s /\
  status (animate c timestamp s) = status s /\
  running (animate c timestamp s) = running s.
Proof.
  intros H. unfold animate. cbn [running]. rewrite H. cbn. auto.
Qed.

Lemma handleReset_fresh (s : AnimationState) : freshly_reset (handleReset s).
Proof.
  unfold freshly_reset, handleReset; cbn.
  destruct (running s); cbn; auto.
Qed.

(** Resetting twice is resetting once. *)
Lemma handleReset_idempotent (s : AnimationState) :
  handleReset (handleReset s) = handleReset s.
Proof.
  unfold handleReset; cbn. now destruct (running s).
Qed.

(** The upper bound needs nothing of the speed or of the clock. *)
Lemma animate_upper (c : AnimationProps) (timestamp : R) (s : AnimationState) :
  (0 < pointsLength c)%nat ->
  progress s <= INR (pointsLength c) - 1 ->
  progress (animate c timestamp s) <= INR (pointsLength c) - 1.
Proof.
  intros Hlen Hup. pose proof (nonempty_length c Hlen) as Hn.
  unfold animate. cbn [running status].
  destruct (running s && (0 <? pointsLength c)%nat); [|exact Hup].
  destruct (status s).
  - unfold drawingStep; cbn [progress]. split_tests; cbn; lra.
  - unfold holdingStep. split_tests; cbn; lra.
  - unfold fadingStep. split_tests; cbn; lra.
Qed.

Lemma animate_lower (c : AnimationProps) (timestamp : R) (s : AnimationState) :
  (0 < pointsLength c)%nat -> 0 <= speed c -> lastTime s <= timestamp ->
  0 <= progress s ->
  0 <= progress (animate c timestamp s).
Proof.
  intros Hlen Hsp Hdt Hlo. pose proof (nonempty_length c Hlen) as Hn.
  assert (0 <= speed c * 50 * (timestamp - lastTime s) / 1000) as Hadv by nra.
  unfold animate. cbn [running status lastTime].
  destruct (running s && (0 <? pointsLength c)%nat); [|exact Hlo].
  destruct (status s).
  - unfold drawingStep; cbn [progress]. split_tests; cbn; lra.
  - unfold holdingStep. split_tests; cbn; lra.
  - unfold fadingStep. split_tests; cbn; lra.
Qed.

Lemma animate_monotone (c : AnimationProps) (timestamp : R) (s : AnimationState) :
  0 <= speed c -> lastTime s <= timestamp ->
  progress s <= INR (pointsLength c) - 1 ->
  status s = drawing ->
  progress s <= progress (animate c timestamp s).
Proof.
  intros Hsp Hdt Hup Hst.
  assert (0 <= speed c * 50 * (timestamp - lastTime s) / 1000) as Hadv by nra.
  unfold animate. cbn [running status lastTime]. rewrite Hst.
  destruct (running s && (0 <? pointsLength c)%nat); [|cbn; lra].
  unfold drawingStep; cbn [progress]. split_tests; cbn; lra.
Qed.

Lemma animate_in_range (c : AnimationProps) (timestamp : R) (s : AnimationState) :
  (0 < pointsLength c)%nat -> 0 <= speed c -> lastTime s <= timestamp ->
  progress_in_range c s -> progress_in_range c (animate c timestamp s).
Proof.
  intros Hlen Hsp Hdt [Hlo Hup]. split.
  - now apply animate_lower.
  - now apply animate_upper.
Qed.


(** The same over a whole run of frames that all find the machine running
    and drawing: the cursor never goes back and never passes the end. *)
Lemma drawing_ticks_monotone (c : AnimationProps) (tss : list R) :
  (0 < pointsLength c)%nat -> 0 <= speed c ->
  forall s, progress_in_range c s -> drawing_ticks c s tss ->
  progress s <= progress (ticks c s tss)
  /\ progress_in_range c (ticks c s tss).
Proof.
  intros Hlen Hsp. induction tss as [|timestamp rest IH]; intros s Hin Hrun.
  - cbn. split; [lra | exact Hin].
  - destruct Hrun as (Hdt & Hst & Hr & Hrest).
    pose proof (animate_in_range c timestamp s Hlen Hsp Hdt Hin) as Hin'.
    pose proof (animate_monotone c timestamp s Hsp Hdt (proj2 Hin) Hst) as Hle.
    destruct (IH _ Hin' Hrest) as [Hle' Hfin].
    cbn. fold (ticks c (animate c timestamp s) rest). split; [lra | exact Hfin].
Qed.

(** Every state the refs can reach has its cursor in range. *)
Lemma reachable_progress_in_range (c : AnimationProps) (s : AnimationState) :
  (0 < pointsLength c)%nat -> 0 <= speed c ->
  Reachable c s -> progress_in_range c s.
Proof.
  intros Hlen Hsp Hreach. pose proof (nonempty_length c Hlen) as Hn.
  induction Hreach as [now | s timestamp _ IH Hdt | s e _ IH Hctl].
  - unfold progress_in_range; cbn. lra.
  - now apply animate_in_range.
  - destruct e as [timestamp | | |]; cbn.
    + now elim (Hctl timestamp).
    + exact IH.
    + exact IH.
    + unfold progress_in_range; cbn. lra.
Qed.

Lemma INR_100 : INR 100 = 100.
Proof. rewrite INR_IZR_INZ. reflexivity. Qed.



(** C4. A frame that finds the machine running in the drawing phase over a
    sequence that is not empty advances the cursor by exactly
    [speed * 50 * deltaTime / 1000]; when the result reaches [len - 1] the
    cursor is clamped to [len - 1], the phase becomes holding and the frame's
    timestamp is recorded.  With 100 points, speed 2 and a delta of 1000 ms
    the cursor clamps to 99 and the phase becomes holding. *)
Theorem drawing_frame_advances_or_clamps
    (c : AnimationProps) (timestamp : R) (s : AnimationState) :
  running s = true -> (0 < pointsLength c)%nat -> status s = drawing ->
  let deltaTime := timestamp - lastTime s in
  let advanced := progress s + speed c * 50 * deltaTime / 1000 in
  let s' := animate c timestamp s in
  (advanced < INR (pointsLength c) - 1 ->
   progress s' = advanced /\ status s' = drawing) /\
  (advanced >= INR (pointsLength c) - 1 ->
   progress s' = INR (pointsLength c) - 1 /\ status s' = holding /\
   completionTimestamp s' = Some timestamp) /\
  (pointsLength c = 100%nat -> speed c = 2 -> deltaTime = 1000 ->
   0 <= progress s ->
   progress s' = 99 /\ status s' = holding).
Proof.
  intros Hrun Hlen Hst deltaTime advanced s'.
  assert (s' = drawingStep c timestamp (speed c * 50 * deltaTime / 1000)
                 {| progress := progress s; running := running s;
                    status := status s;
                    completionTimestamp := completionTimestamp s;
                    lastTime := timestamp;
                    spriteAlpha := spriteAlpha s; pathAlpha := pathAlpha s |})
    as Hs'.
  { unfold s', animate. cbn [running status].
    rewrite (guard_open c _ Hrun Hlen), Hst. reflexivity. }
  rewrite Hs'. unfold drawingStep. cbn [progress status completionTimestamp].
  fold advanced. rewrite Hst.
  destruct (Rge_dec advanced (INR (pointsLength c) - 1)) as [Hge | Hlt];
    cbn [progress status completionTimestamp].
  - split; [intros; lra|]. split; [auto|].
    intros H100 _ _ _. rewrite H100, INR_100. split; [lra | reflexivity].
  - split; [auto|]. split; [intros; lra|].
    intros H100 Hsp Hdt Hlo. exfalso. apply Hlt.
    unfold advanced. rewrite H100, INR_100, Hsp, Hdt. lra.
Qed.

Lemma drawing_frame_advances_or_clamps_witness :
  progress (animate defaultProps 1000 (initialState 0)) = 99 /\
  status (animate defaultProps 1000 (initialState 0)) = holding.
Proof.
  apply (drawing_frame_advances_or_clamps defaultProps 1000 (initialState 0)).
  - reflexivity.
  - cbn. lia.
  - reflexivity.
  - reflexivity.
  - reflexivity.
  - cbn. lra.
  - cbn. lra.
Defined.

(** C10. Every reset, by the reset control or by the frame of the fading
    phase whose alpha has reached 0, leaves [running] true together with
    progress 0, both alphas 1 and the drawing phase: a reset while paused
    resumes the animation. *)
Theorem reset_resumes_animation
    (c : AnimationProps) (s : AnimationState) (e : Event) :
  resets c s e -> freshly_reset (step c s e).
Proof.
  intros [ | timestamp Hrun Hlen Hst Halpha]; cbn [step].
  - apply handleReset_fresh.
  - unfold animate. cbn [running status].
    rewrite (guard_open c _ Hrun Hlen), Hst.
    unfold fadingStep. cbn [completionTimestamp].
    fold (currentAlpha c timestamp s).
    destruct (Rle_dec (currentAlpha c timestamp s) 0) as [_ | Hn].
    + apply handleReset_fresh.
    + contradiction.
Qed.

Lemma fadingState_alpha : currentAlpha defaultProps 2000 fadingState <= 0.
Proof.
  unfold currentAlpha, Rmax. cbn.
  destruct (Rle_dec 0 (1 - (2000 - 0) / 2000)); lra.
Qed.

Lemma reset_resumes_animation_witness :
  (running pausedState = false /\
   freshly_reset (step defaultProps pausedState Reset)) /\
  freshly_reset (step defaultProps fadingState (Frame 2000)).
Proof.
  split; [split|].
  - reflexivity.
  - apply (reset_resumes_animation defaultProps pausedState Reset).
    apply reset_control.
  - apply (reset_resumes_animation defaultProps fadingState (Frame 2000)).
    apply reset_after_fade.
    + reflexivity.
    + cbn. lia.
    + reflexivity.
    + exact fadingState_alpha.
Defined.

End AnimationFacts.

(** ** The view transform *)

Module ViewFacts.

Import Canvas.

(** Surface to world is the inverse of world to surface, in every view
    with a scale and a zoom that are not 0. *)
Lemma toWorldCoords_toCanvasCoords (v : View) (x y : R) :
  scale v * zoom v <> 0 ->
  toWorldCoords v (fst (toCanvasCoords v x y)) (snd (toCanvasCoords v x y))
  = (x, y).
Proof.
  intros Hsz. unfold toWorldCoords, toCanvasCoords. cbn [fst snd].
  assert (zoom v <> 0 /\ scale v <> 0) as Hnz.
  { split; intros H0; apply Hsz; rewrite H0; ring. }
  f_equal; field; exact Hnz.
Qed.

(** C5. A wheel event that changes the zoom leaves the world point under the
    cursor where it was: the surface position of the cursor maps to the same
    world coordinates under the old view and under the view the handler
    sets.  This holds for the handler of [DrawingCanvas] and for the one of
    [EnhancedDrawingCanvas]. *)
Theorem wheel_zoom_keeps_pivot (v : View) (rect : Rect) (e : WheelEvent) :
  (forall setZoomIsFunction v',
     handleWheel setZoomIsFunction v rect e = Some v' ->
     zoom v' <> zoom v /\
     same_world_point v v' (mouseX v rect e) (mouseY v rect e)) /\
  (forall v',
     Enhanced.handleWheel v rect e = Some v' ->
     zoom v' <> zoom v /\
     same_world_point v v' (Enhanced.mouseX rect e) (Enhanced.mouseY rect e)).
Proof.
  split.
  - intros b v' H. unfold handleWheel in H.
    destruct (negb b); [discriminate|].
    destruct (Req_dec_T (newZoom v e) (zoom v)) as [|Hne]; [discriminate|].
    injection H as <-. split; [exact Hne|].
    unfold same_world_point, toWorldCoords; cbn.
    f_equal; ring.
  - intros v' H. unfold Enhanced.handleWheel in H.
    destruct (Req_dec_T (Enhanced.newZoom v e) (zoom v)) as [|Hne];
      [discriminate|].
    injection H as <-. split; [exact Hne|].
    unfold same_world_point, toWorldCoords; cbn.
    unfold Rdiv. rewrite !Rinv_mult.
    f_equal; ring.
Qed.

Lemma wheelIn_newZoom : newZoom defaultView wheelIn = 1.1.
Proof.
  unfold newZoom, Rmin, Rmax. cbn.
  destruct (Rgt_dec (-100) 0); [lra|].
  destruct (Rle_dec 0.01 (1 + 0.1 * 1)); [|lra].
  destruct (Rle_dec (1 + 0.1 * 1) 100); lra.
Qed.

Lemma wheel_zoom_keeps_pivot_witness :
  exists v',
    handleWheel true defaultView halfRect wheelIn = Some v' /\
    zoom v' <> zoom defaultView /\
    same_world_point defaultView v'
      (mouseX defaultView halfRect wheelIn)
      (mouseY defaultView halfRect wheelIn).
Proof.
  destruct (handleWheel true defaultView halfRect wheelIn) as [v'|] eqn:H.
  - exists v'. split; [reflexivity|].
    exact (proj1 (wheel_zoom_keeps_pivot defaultView halfRect wheelIn) true v' H).
  - exfalso. unfold handleWheel in H. cbn [negb] in H.
    destruct (Req_dec_T (newZoom defaultView wheelIn) (zoom defaultView))
      as [Heq|]; [|discriminate].
    rewrite wheelIn_newZoom in Heq. cbn in Heq. lra.
Defined.

End ViewFacts.

(** ** The segment partition *)

Module SegmentFacts.

Import Canvas.

Section Partition.

Variable A : Type.
Variable rand : nat -> R.

Lemma consumed_step (st : SegmentLoop A) (point : A) :
  consumed (segmentStep rand st point) = consumed st ++ [point].
Proof.
  unfold consumed, segmentStep.
  destruct (pointsUntilChange st - 1 <=? 0)%Z; cbn.
  - rewrite map_app, concat_app. cbn. now rewrite !app_nil_r, app_assoc.
  - now rewrite app_assoc.
Qed.

Lemma consumed_loop (pts : list A) (st : SegmentLoop A) :
  consumed (fold_left (segmentStep rand) pts st) = consumed st ++ pts.
Proof.
  revert st. induction pts as [|point rest IH]; intros st; cbn.
  - now rewrite app_nil_r.
  - rewrite IH, consumed_step, <- app_assoc. reflexivity.
Qed.

Lemma pushed_nonempty_step (st : SegmentLoop A) (point : A) :
  pushed_nonempty st -> pushed_nonempty (segmentStep rand st point).
Proof.
  unfold pushed_nonempty, segmentStep. intros H.
  destruct (pointsUntilChange st - 1 <=? 0)%Z; cbn; [|exact H].
  apply Forall_app. split; [exact H|].
  constructor; [|constructor]. cbn.
  destruct (points (currentSegment st)); discriminate.
Qed.

Lemma pushed_nonempty_loop (pts : list A) (st : SegmentLoop A) :
  pushed_nonempty st ->
  pushed_nonempty (fold_left (segmentStep rand) pts st).
Proof.
  revert st. induction pts as [|point rest IH]; intros st H; cbn.
  - exact H.
  - apply IH, pushed_nonempty_step, H.
Qed.

End Partition.

Lemma shape_step {A B : Type} (rand : nat -> R)
    (st : SegmentLoop A) (st' : SegmentLoop B) (a : A) (b : B) :
  shape st = shape st' ->
  shape (segmentStep rand st a) = shape (segmentStep rand st' b).
Proof.
  unfold shape, outline. intros H.
  injection H as Hsegs Hci Hcalls Hpuc Hcol Hlen.
  unfold segmentStep. rewrite Hpuc.
  destruct (pointsUntilChange st' - 1 <=? 0)%Z; cbn.
  - rewrite !map_app, Hsegs, Hci, Hcalls. cbn.
    rewrite !length_app, Hlen, Hcol. reflexivity.
  - rewrite !length_app, Hsegs, Hci, Hcalls, Hlen, Hcol. reflexivity.
Qed.

Lemma shape_loop {A B : Type} (rand : nat -> R) (pts : list A) :
  forall (pts' : list B) (st : SegmentLoop A) (st' : SegmentLoop B),
    List.length pts' = List.length pts ->
    shape st = shape st' ->
    shape (fold_left (segmentStep rand) pts st)
    = shape (fold_left (segmentStep rand) pts' st').
Proof.
  induction pts as [|a rest IH]; intros [|b rest'] st st' Hlen Hsh;
    try discriminate; cbn.
  - exact Hsh.
  - apply IH; [now injection Hlen | now apply shape_step].
Qed.

Lemma pathSegments_nonempty (mulberry32 : Z -> nat -> R) (A : Type)
    (mode : Mode) (pts : list A) :
  pts <> [] ->
  pathSegments mulberry32 mode pts =
  if negb (is_fractal mode)
  then [ {| color := "52, 152, 219"; points := pts |} ]
  else
    let rand := mulberry32 (Z.of_nat (List.length pts)) in
    let st := fold_left (segmentStep rand) pts (segmentInit rand) in
    if (0 <? List.length (points (currentSegment st)))%nat
    then segments st ++ [currentSegment st]
    else segments st.
Proof.
  destruct pts; [congruence | reflexivity].
Qed.

(** C8. The segments of a point sequence partition it: concatenated in
    segment order, their point lists are the sequence itself, point for point
    and in order, and no segment is empty.  Where the boundaries fall and
    which colours are used is decided by the length of the sequence alone
    (the generator is seeded with it): two sequences of the same length get
    segments of the same lengths and colours. *)
Theorem pathSegments_partition
    (mulberry32 : Z -> nat -> R) (A : Type) (mode : Mode) (pts : list A) :
  concat (map points (pathSegments mulberry32 mode pts)) = pts /\
  Forall (fun g => points g <> []) (pathSegments mulberry32 mode pts) /\
  (forall (B : Type) (pts' : list B),
     List.length pts' = List.length pts ->
     map outline (pathSegments mulberry32 mode pts')
     = map outline (pathSegments mulberry32 mode pts)).
Proof.
  destruct pts as [|a rest].
  { cbn. repeat split; [constructor|].
    intros B [|b rest'] H; [reflexivity | discriminate]. }
  assert (a :: rest <> []) as Hpts by discriminate.
  remember (a :: rest) as pts eqn:Hdef.
  rewrite (pathSegments_nonempty mulberry32 A mode pts Hpts). cbv zeta.
  set (rand := mulberry32 (Z.of_nat (List.length pts))).
  destruct (is_fractal mode) eqn:Hmode; cbn [negb].
  - pose proof (consumed_loop A rand pts (segmentInit rand)) as Hall.
    pose proof (pushed_nonempty_loop A rand pts (segmentInit rand)
                  (Forall_nil _)) as Hne.
    assert (forall (B : Type) (pts' : list B),
              List.length pts' = List.length pts ->
              shape (fold_left (segmentStep rand) pts (segmentInit rand))
              = shape (fold_left (segmentStep rand) pts' (segmentInit rand)))
      as Hshape.
    { intros B pts' Hlen. now apply shape_loop. }
    remember (fold_left (segmentStep rand) pts (segmentInit rand)) as st
      eqn:Hst.
    change (consumed (segmentInit rand)) with (@nil A) in Hall.
    unfold consumed in Hall. unfold pushed_nonempty in Hne.
    rewrite app_nil_l in Hall.
    split; [|split].
    + destruct (points (currentSegment st)) as [|p ps] eqn:Hcur;
        cbn [Nat.ltb Nat.leb List.length].
      * now rewrite app_nil_r in Hall.
      * rewrite map_app, concat_app. cbn [map concat].
        now rewrite app_nil_r, Hcur.
    + destruct (points (currentSegment st)) as [|p ps] eqn:Hcur;
        cbn [Nat.ltb Nat.leb List.length].
      * exact Hne.
      * apply Forall_app. split; [exact Hne|].
        constructor; [|constructor]. now rewrite Hcur.
    + intros B pts' Hlen.
      assert (pts' <> []) as Hpts'.
      { intros ->. rewrite Hdef in Hlen. discriminate. }
      rewrite (pathSegments_nonempty mulberry32 B mode pts' Hpts').
      rewrite Hmode. cbn [negb]. cbv zeta.
      rewrite Hlen. fold rand.
      specialize (Hshape B pts' Hlen).
      remember (fold_left (segmentStep rand) pts' (segmentInit rand)) as st'
        eqn:Hst'.
      unfold shape in Hshape.
      injection Hshape as Hsegs _ _ _ Hcol Hcur.
      rewrite <- Hcur.
      destruct (0 <? List.length (points (currentSegment st)))%nat.
      * rewrite !map_app, Hsegs. cbn [map]. unfold outline at 2 4.
        now rewrite Hcol, Hcur.
      * now rewrite Hsegs.
  - cbn [map concat]. rewrite app_nil_r. repeat split.
    + constructor; [exact Hpts | constructor].
    + intros B pts' Hlen.
      assert (pts' <> []) as Hpts'.
      { intros ->. rewrite Hdef in Hlen. discriminate. }
      rewrite (pathSegments_nonempty mulberry32 B mode pts' Hpts').
      rewrite Hmode. cbn [negb map]. unfold outline.
      cbn [color points]. now rewrite Hlen.
Qed.

Lemma pathSegments_partition_witness :
  concat (map points (pathSegments Rng.mulberry32 fractal threePoints))
  = threePoints /\
  map outline (pathSegments Rng.mulberry32 fractal threeLabels)
  = map outline (pathSegments Rng.mulberry32 fractal threePoints).
Proof.
  split.
  - exact (proj1 (pathSegments_partition Rng.mulberry32 _ fractal threePoints)).
  - apply (proj2 (proj2
             (pathSegments_partition Rng.mulberry32 _ fractal threePoints))).
    reflexivity.
Defined.

End SegmentFacts.

(** ** The generator *)

Module RngFacts.

Lemma draw_range (seed : Z) (k : nat) :
  (0 <= Rng.draw seed k < 4294967296)%Z.
Proof.
  unfold Rng.draw, Rng.mix, Js.shru32, Js.ToUint32.
  change (0 mod 32)%Z with 0%Z. rewrite Z.shiftr_0_r.
  change 4294967296%Z with (2 ^ 32)%Z.
  apply Z.mod_pos_bound. lia.
Qed.

(** The model of the generator draws from [0,1). *)
Lemma mulberry32_unit_interval : Pookalam.unit_interval_rng Rng.mulberry32.
Proof.
  intros seed k. unfold Rng.mulberry32.
  destruct (draw_range seed k) as [Hlo Hhi].
  apply IZR_le in Hlo. apply IZR_lt in Hhi. lra.
Qed.

End RngFacts.

(** ** The pattern composer *)

Module ComposerFacts.

Import Pookalam.

(** *** Floors of the literals the composer meets *)

Lemma floor_IZR (z : Z) : Js.floor (IZR z) = z.
Proof. apply ZfloorZ. Qed.

Lemma floor_between (x : R) (z : Z) :
  IZR z <= x < IZR z + 1 -> Js.floor x = z.
Proof. apply Zfloor_eq. Qed.

(** *** The setup never fails on a generator that draws from [0,1) *)

Lemma index_of_unit_draw (r : R) :
  0 <= r < 1 ->
  exists name,
    Js.index patternTypes
      (Js.floor (r * IZR (Z.of_nat (List.length patternTypes)))) = Some name.
Proof.
  intros [Hlo Hhi]. cbn [patternTypes List.length Z.of_nat Pos.of_succ_nat Pos.succ].
  destruct (Zfloor_bound (r * 5)) as [Hfl Hfu].
  unfold Js.floor.
  assert (0 <= Zfloor (r * 5) < 5)%Z as Hz.
  { split.
    - apply Zfloor_lub. cbn. nra.
    - apply lt_IZR. lra. }
  set (z := Zfloor (r * 5)) in *.
  assert (z = 0 \/ z = 1 \/ z = 2 \/ z = 3 \/ z = 4)%Z as Hcases by lia.
  destruct Hcases as [-> | [-> | [-> | [-> | ->]]]];
    eexists; reflexivity.
Qed.

Section WithGenerator.

Variable mulberry32 : Z -> nat -> R.
Hypothesis draws : unit_interval_rng mulberry32.

Lemma setup_total (params : Params) :
  exists primary secondary,
    setup mulberry32 params =
    Some {| baseRadius := size params;
            complexityFactor := Js.or_default (complexity params) 0.7;
            numLayers := Z.max 3 (Js.floor (density params * 10));
            mainPetals := Z.max 4 (Js.floor (petals params));
            goldenAngle := 2 * PI * PHI_INV;
            primaryPattern := primary;
            secondaryPattern := secondary;
            asymmetryOffset :=
              (1 - Js.or_default (symmetry params) 1.0)
              * (mulberry32 (style params + 54321) 2%nat - 0.5) * 0.3 |}.
Proof.
  destruct (index_of_unit_draw _ (draws (style params + 54321)%Z 0%nat))
    as [primary Hp].
  destruct (index_of_unit_draw _ (draws (style params + 54321)%Z 1%nat))
    as [secondary Hs].
  exists primary, secondary. unfold setup. rewrite Hp, Hs. reflexivity.
Qed.

End WithGenerator.

(** *** Counting the points of a layer *)

Lemma count_layer_app (l : Layer) (a b : list Point) :
  count_layer l (a ++ b) = (count_layer l a + count_layer l b)%nat.
Proof. unfold count_layer. now rewrite filter_app, length_app. Qed.

Lemma count_layer_flat_map (l : Layer) (f : nat -> list Point) (n : nat)
    (idxs : list nat) :
  (forall i, count_layer l (f i) = n) ->
  count_layer l (flat_map f idxs) = (List.length idxs * n)%nat.
Proof.
  intros H. induction idxs as [|i rest IH]; cbn [flat_map List.length].
  - reflexivity.
  - rewrite count_layer_app, H, IH. cbn. reflexivity.
Qed.

Lemma count_petalPoints_map (s : Setup) (t : R) (i : nat) (l : Layer)
    (idxs : list nat) :
  count_layer l (map (petalPoint s t i) idxs) =
  if layer_eqb petalsLayer l then List.length idxs else 0%nat.
Proof.
  unfold count_layer.
  induction idxs as [|j rest IH]; cbn [map filter].
  - now destruct (layer_eqb petalsLayer l).
  - cbn [layer petalPoint]. destruct (layer_eqb petalsLayer l); cbn; now rewrite IH.
Qed.

(** The detail petals a layer gets. *)
Lemma count_petalPoints (s : Setup) (t : R) (i : nat) :
  count_layer petalsLayer (petalPoints s t i) =
  if Rgt_dec (complexityFactor s) 0.4
  then Z.to_nat (numDetailPetals s) else 0%nat.
Proof.
  unfold petalPoints. destruct (Rgt_dec (complexityFactor s) 0.4).
  - rewrite count_petalPoints_map. cbn. apply length_seq.
  - reflexivity.
Qed.

Lemma count_layerPoints_main (s : Setup) (t : R) (i : nat) :
  count_layer main (layerPoints s t i) = 1%nat.
Proof.
  unfold layerPoints.
  change (mainPoint s t i :: petalPoints s t i ++ corePoints s t i)
    with ([mainPoint s t i] ++ petalPoints s t i ++ corePoints s t i).
  rewrite !count_layer_app.
  unfold petalPoints, corePoints.
  destruct (Rgt_dec (complexityFactor s) 0.4);
    destruct (Rge_dec (INR i) (IZR (numLayers s) * 0.6));
    rewrite ?count_petalPoints_map; reflexivity.
Qed.

Lemma count_layerPoints_petals (s : Setup) (t : R) (i : nat) :
  count_layer petalsLayer (layerPoints s t i) =
  if Rgt_dec (complexityFactor s) 0.4
  then Z.to_nat (numDetailPetals s) else 0%nat.
Proof.
  unfold layerPoints.
  change (mainPoint s t i :: petalPoints s t i ++ corePoints s t i)
    with ([mainPoint s t i] ++ petalPoints s t i ++ corePoints s t i).
  rewrite !count_layer_app, count_petalPoints.
  unfold corePoints.
  destruct (Rge_dec (INR i) (IZR (numLayers s) * 0.6)); cbn; lia.
Qed.

(** *** Layer count, petal count, and when detail petals are emitted *)

Section Counts.

Variable mulberry32 : Z -> nat -> R.
Hypothesis draws : unit_interval_rng mulberry32.

(** The fragment of an angle, with the number of its points per layer. *)
Lemma fragment_counts (params : Params) (t : R) :
  exists s pts,
    setup mulberry32 params = Some s /\
    finalPookalam mulberry32 params t = Some pts /\
    complexityFactor s = Js.or_default (complexity params) 0.7 /\
    numLayers s = Z.max 3 (Js.floor (density params * 10)) /\
    mainPetals s = Z.max 4 (Js.floor (petals params)) /\
    count_layer main pts = Z.to_nat (numLayers s) /\
    count_layer petalsLayer pts =
      if Rgt_dec (complexityFactor s) 0.4
      then (Z.to_nat (numLayers s) * Z.to_nat (numDetailPetals s))%nat
      else 0%nat.
Proof.
  destruct (setup_total mulberry32 draws params) as (primary & secondary & Hs).
  eexists. eexists. split; [exact Hs|].
  unfold finalPookalam. rewrite Hs.
  split; [reflexivity|]. cbn [complexityFactor numLayers mainPetals].
  repeat split.
  - rewrite (count_layer_flat_map main _ 1%nat).
    + rewrite length_seq. cbn [numLayers]. lia.
    + intros i. apply count_layerPoints_main.
  - match goal with
    | |- count_layer _ (flat_map (layerPoints ?s0 _) _) = _ =>
        rewrite (count_layer_flat_map petalsLayer _
                   (if Rgt_dec (complexityFactor s0) 0.4
                    then Z.to_nat (numDetailPetals s0) else 0%nat))
    end.
    + rewrite length_seq. cbn [complexityFactor numLayers].
      destruct (Rgt_dec (Js.or_default (complexity params) 0.7) 0.4);
        [reflexivity | lia].
    + intros i. apply count_layerPoints_petals.
Qed.

End Counts.

Lemma or_default_nonzero (x d : R) : x <> 0 -> Js.or_default x d = x.
Proof.
  intros H. unfold Js.or_default. destruct (Req_dec_T x 0); [contradiction|].
  reflexivity.
Qed.

Lemma or_default_zero (d : R) : Js.or_default 0 d = d.
Proof.
  unfold Js.or_default. destruct (Req_dec_T 0 0); [reflexivity | congruence].
Qed.

(** C9. The composer derives the layer count [max(3, floor(density * 10))]
    and the petal count [max(4, floor(petals))]: the fragment of every angle
    has that many main-ring points, and at full complexity that many detail
    petals on each layer.  Density 0.3 gives exactly 3 layers and 2 petals
    are raised to 4. *)
Theorem layer_and_petal_counts
    (mulberry32 : Z -> nat -> R) (params : Params) (t : R) :
  unit_interval_rng mulberry32 ->
  let L := Z.max 3 (Js.floor (density params * 10)) in
  let P := Z.max 4 (Js.floor (petals params)) in
  exists s pts,
    setup mulberry32 params = Some s /\
    finalPookalam mulberry32 params t = Some pts /\
    numLayers s = L /\ mainPetals s = P /\
    count_layer main pts = Z.to_nat L /\
    (complexity params = 1 ->
     count_layer petalsLayer pts = (Z.to_nat L * Z.to_nat P)%nat) /\
    (density params = 0.3 -> L = 3%Z) /\
    (petals params = 2 -> P = 4%Z).
Proof.
  intros draws L P.
  destruct (fragment_counts mulberry32 draws params t)
    as (s & pts & Hs & Hpts & Hcf & HL & HP & Hmain & Hpetals).
  exists s, pts. fold L in HL. fold P in HP.
  repeat split; try assumption.
  - now rewrite Hmain, HL.
  - intros Hc. rewrite Hpetals, Hcf, Hc, or_default_nonzero by lra.
    destruct (Rgt_dec 1 0.4); [|lra].
    unfold numDetailPetals. rewrite Hcf, Hc, or_default_nonzero, HL, HP by lra.
    replace (IZR P * (0.5 + 1 * 0.5)) with (IZR P) by lra.
    now rewrite floor_IZR.
  - intros Hd. unfold L. rewrite Hd.
    rewrite (floor_between (0.3 * 10) 3) by lra. reflexivity.
  - intros Hp. unfold P. rewrite Hp.
    rewrite (floor_IZR 2). reflexivity.
Qed.

Lemma layer_and_petal_counts_witness :
  exists s pts,
    setup Rng.mulberry32 (with_density 0.3 (with_petals 2 traditional))
      = Some s /\
    finalPookalam Rng.mulberry32 (with_density 0.3 (with_petals 2 traditional)) 0
      = Some pts /\
    numLayers s = 3%Z /\ mainPetals s = 4%Z /\ count_layer main pts = 3%nat.
Proof.
  destruct (layer_and_petal_counts Rng.mulberry32
              (with_density 0.3 (with_petals 2 traditional)) 0
              RngFacts.mulberry32_unit_interval)
    as (s & pts & Hs & Hpts & HL & HP & Hmain & _ & Hd & Hp).
  exists s, pts.
  rewrite (Hd eq_refl) in HL, Hmain. rewrite (Hp eq_refl) in HP.
  repeat split; assumption.
Defined.

(** What the source does at complexity 0: [params.complexity || 0.7] reads
    it as 0.7, which passes the test [complexityFactor > 0.4], so detail
    petals are emitted on every layer. *)
Lemma zero_complexity_emits_petals
    (mulberry32 : Z -> nat -> R) (params : Params) (t : R) :
  unit_interval_rng mulberry32 ->
  complexity params = 0 ->
  exists s pts,
    setup mulberry32 params = Some s /\
    finalPookalam mulberry32 params t = Some pts /\
    complexityFactor s = 0.7 /\
    count_layer petalsLayer pts =
      (Z.to_nat (numLayers s) * Z.to_nat (numDetailPetals s))%nat.
Proof.
  intros draws Hc.
  destruct (fragment_counts mulberry32 draws params t)
    as (s & pts & Hs & Hpts & Hcf & _ & _ & _ & Hpetals).
  exists s, pts. rewrite Hc, or_default_zero in Hcf.
  repeat split; try assumption.
  rewrite Hpetals, Hcf. destruct (Rgt_dec 0.7 0.4); [reflexivity | lra].
Qed.

(** Away from 0 the test is the one the source spells out: a complexity of
    at most 0.4 that is not 0 gives no detail petal. *)
Lemma low_complexity_skips_petals
    (mulberry32 : Z -> nat -> R) (params : Params) (t : R) :
  unit_interval_rng mulberry32 ->
  complexity params <= 0.4 -> complexity params <> 0 ->
  exists pts,
    finalPookalam mulberry32 params t = Some pts /\
    count_layer petalsLayer pts = 0%nat.
Proof.
  intros draws Hle Hnz.
  destruct (fragment_counts mulberry32 draws params t)
    as (s & pts & Hs & Hpts & Hcf & _ & _ & _ & Hpetals).
  exists pts. split; [assumption|].
  rewrite Hpetals, Hcf, or_default_nonzero by assumption.
  destruct (Rgt_dec (complexity params) 0.4); [lra | reflexivity].
Qed.

(** C7, at the input where the source departs from it: the preset
    [traditional] with complexity 0 (which is at most 0.4) yields 36 detail
    petal points at angle 0, six on each of its six layers. *)
Theorem zero_complexity_fragment_has_petals :
  exists pts,
    finalPookalam Rng.mulberry32 (with_complexity 0 traditional) 0 = Some pts /\
    count_layer petalsLayer pts = 36%nat.
Proof.
  destruct (zero_complexity_emits_petals Rng.mulberry32
              (with_complexity 0 traditional) 0
              RngFacts.mulberry32_unit_interval eq_refl)
    as (s & pts & Hs & Hpts & Hcf & Hcount).
  exists pts. split; [assumption|].
  destruct (setup_total Rng.mulberry32 RngFacts.mulberry32_unit_interval
              (with_complexity 0 traditional)) as (primary & secondary & Hs').
  rewrite Hs' in Hs. injection Hs as <-.
  rewrite Hcount. unfold numDetailPetals.
  cbn [numLayers mainPetals complexityFactor with_complexity traditional
       density petals complexity].
  rewrite or_default_zero.
  rewrite (floor_between (0.6 * 10) 6) by lra.
  rewrite (floor_IZR 8).
  change (Z.max 4 8) with 8%Z. change (Z.max 3 6) with 6%Z.
  rewrite (floor_between (8 * (0.5 + 0.7 * 0.5)) 6) by lra.
  reflexivity.
Qed.

End ComposerFacts.

(** ** The fractal basis library *)

Module BasisFacts.

Import Pookalam.

(** A modulation [u] between [-K] and [K] keeps [scale * (1 + amplitude * u)]
    in the band of [K]. *)
Lemma band_of_modulation (scale amplitude u K : R) :
  0 <= scale -> 0 <= amplitude -> - K <= u <= K ->
  scale * (1 - amplitude * K) <= scale * (1 + amplitude * u)
    <= scale * (1 + amplitude * K).
Proof.
  intros Hs Ha [Hl Hu].
  assert (0 <= scale * amplitude) as Hsa by nra.
  split; nra.
Qed.

Lemma dragonValue_cases (n : Z) : dragonValue n = -1 \/ dragonValue n = 1.
Proof.
  unfold dragonValue.
  destruct (Js.and32 (Js.shl32 (Js.and32 n (- n)) 1) n =? 0)%Z; auto.
Qed.

Lemma dragon_band : within_band dragon 1.
Proof.
  intros t scale freq amplitude Hs Ha. unfold dragon. cbv zeta.
  rewrite (Rmult_assoc amplitude).
  apply band_of_modulation; try assumption.
  pose proof (COS_bound (t * freq)) as Hc.
  destruct (dragonValue_cases (Js.floor (t * freq / (2 * PI)))) as [-> | ->];
    lra.
Qed.

Lemma koch_sum_bound (t freq : R) : - (40 / 27) <= koch_sum t freq <= 40 / 27.
Proof.
  unfold koch_sum. cbn [fold_left seq pow].
  pose proof (COS_bound (freq * 1 * t)) as H0.
  pose proof (COS_bound (freq * (3 * 1) * t)) as H1.
  pose proof (COS_bound (freq * (3 * (3 * 1)) * t)) as H2.
  pose proof (COS_bound (freq * (3 * (3 * (3 * 1))) * t)) as H3.
  lra.
Qed.

Lemma koch_band : within_band koch (40 / 27).
Proof.
  intros t scale freq amplitude Hs Ha. unfold koch.
  apply band_of_modulation; try assumption. apply koch_sum_bound.
Qed.

Lemma mandelbrot_band : within_band mandelbrot 1.
Proof.
  intros t scale freq amplitude Hs Ha. unfold mandelbrot.
  apply band_of_modulation; try assumption.
  pose proof (SIN_bound (mandel_loop 8 (cos t) (sin t) 0 * freq * t)). lra.
Qed.

(** A wider band contains a narrower one. *)
Lemma within_band_wider (f : R -> R -> R -> R -> R) (K K' : R) :
  K <= K' -> within_band f K -> within_band f K'.
Proof.
  intros HK H t scale freq amplitude Hs Ha.
  destruct (H t scale freq amplitude Hs Ha) as [Hl Hu].
  assert (0 <= scale * amplitude) as Hsa by nra.
  split; nra.
Qed.

(** The envelope of [fern] is at most 1 from phase 0 on. *)
Lemma fern_envelope (t : R) : 0 <= t -> 0 < exp (- t * 0.5) <= 1.
Proof.
  intros Ht. split; [apply exp_pos|].
  replace (- t * 0.5) with (- (t * 0.5)) by ring.
  rewrite exp_Ropp.
  pose proof (exp_ineq1_le (t * 0.5)) as H.
  pose proof (exp_pos (t * 0.5)) as Hp.
  rewrite <- Rinv_1. apply Rinv_le_contravar; lra.
Qed.

Lemma leaf_bound (t freq : R) :
  - exp (- t * 0.5) <= exp (- t * 0.5) * cos (freq * t) * sin (t * 2)
    <= exp (- t * 0.5).
Proof.
  pose proof (exp_pos (- t * 0.5)) as He.
  pose proof (COS_bound (freq * t)) as Hc.
  pose proof (SIN_bound (t * 2)) as Hs.
  assert (-1 <= cos (freq * t) * sin (t * 2) <= 1) as Hp by (split; nra).
  split; nra.
Qed.

Lemma fern_envelope_band (t scale freq amplitude : R) :
  0 <= scale -> 0 <= amplitude ->
  scale * (1 - amplitude * exp (- t * 0.5)) <= fern t scale freq amplitude
    <= scale * (1 + amplitude * exp (- t * 0.5)).
Proof.
  intros Hs Ha. unfold fern.
  apply band_of_modulation; try assumption. apply leaf_bound.
Qed.

Lemma PHI_INV_pos : 0 < PHI_INV.
Proof.
  unfold PHI_INV, PHI. pose proof (sqrt_pos 5) as H.
  apply Rdiv_lt_0_compat; lra.
Qed.

Lemma ln_nonneg (x : R) : 1 <= x -> 0 <= ln x.
Proof.
  intros [Hlt | <-].
  - rewrite <- ln_1. left. apply ln_increasing; lra.
  - rewrite ln_1. lra.
Qed.

Lemma fibScale_ge_1 (t : R) : 0 <= t -> 1 <= fibScale t.
Proof.
  intros Ht. unfold fibScale.
  pose proof PHI_INV_pos as Hphi. pose proof Rgt_2PI_0 as Hpi.
  assert (0 <= t / (2 * PI)) as Hq.
  { apply Rmult_le_pos; [lra|]. left. now apply Rinv_0_lt_compat. }
  pose proof (ln_nonneg (1 + t / (2 * PI))) as Hln.
  nra.
Qed.

Lemma fibonacci_scaled_band (t scale freq amplitude : R) :
  0 <= t -> 0 <= scale -> 0 <= amplitude ->
  scale * fibScale t * (1 - amplitude) <= fibonacci t scale freq amplitude
    <= scale * fibScale t * (1 + amplitude).
Proof.
  intros Ht Hs Ha. unfold fibonacci. fold (fibScale t).
  pose proof (fibScale_ge_1 t Ht) as Hf.
  pose proof (SIN_bound (freq * t)) as Hsin.
  assert (0 <= scale * fibScale t) as Hsf by nra.
  assert (0 <= scale * fibScale t * amplitude) as Hsfa by nra.
  split; nra.
Qed.

(** The value of [fibonacci] one logarithmic unit out, unmodulated. *)
Lemma fibonacci_at_e :
  fibonacci (2 * PI * (exp 1 - 1)) 1 1 0 = 1 + PHI_INV.
Proof.
  unfold fibonacci. pose proof Rgt_2PI_0 as Hpi.
  replace (1 + 2 * PI * (exp 1 - 1) / (2 * PI)) with (exp 1) by (field; lra).
  rewrite ln_exp. ring.
Qed.

Lemma fibonacci_no_band : ~ (exists K, within_band fibonacci K).
Proof.
  intros [K H].
  destruct (H (2 * PI * (exp 1 - 1)) 1 1 0) as [_ Hu]; try lra.
  rewrite fibonacci_at_e in Hu. pose proof PHI_INV_pos. lra.
Qed.

(** [fern] at the phases [PI / 4 - k * PI], where [sin (2 t) = 1]. *)
Lemma fern_backwards (k : nat) :
  1 + INR k <= fern (PI / 4 - INR k * PI) 1 0 1.
Proof.
  unfold fern. set (t := PI / 4 - INR k * PI).
  replace (0 * t) with 0 by ring. rewrite cos_0.
  assert (sin (t * 2) = 1) as ->.
  { rewrite <- sin_PI2, <- (sin_period (t * 2) k). f_equal. unfold t. field. }
  pose proof (exp_ineq1_le (- t * 0.5)) as He.
  pose proof PI2_3_2. pose proof PI_4. pose proof (pos_INR k).
  assert (INR k - 1 / 2 <= - t * 0.5) as Hk by (unfold t; nra).
  lra.
Qed.

Lemma fern_no_band : ~ (exists K, within_band fern K).
Proof.
  intros [K H].
  destruct (INR_unbounded K) as [k Hk].
  destruct (H (PI / 4 - INR k * PI) 1 0 1) as [_ Hu]; try lra.
  pose proof (fern_backwards k). lra.
Qed.

(** C2, as the source has it.  The five basis functions are functions of
    their four arguments alone.  [dragon], [koch] and [mandelbrot] stay in
    the band [scale * (1 ± amplitude * K)] with [K = 40/27] at every phase.
    [fern] stays within [scale * (1 ± amplitude * exp (- t / 2))], so in
    that band from phase 0 on.  [fibonacci] carries the factor [fibScale t],
    which is at least 1 and grows with the logarithm of the phase: from
    phase 0 on it stays within [scale * fibScale t * (1 ± amplitude)]. *)
Theorem basis_functions_bounds :
  (forall name,
     name = Dragon \/ name = Koch \/ name = Mandelbrot ->
     within_band (fractalPatterns name) (40 / 27)) /\
  (forall t scale freq amplitude,
     0 <= scale -> 0 <= amplitude ->
     (scale * (1 - amplitude * exp (- t * 0.5))
        <= fern t scale freq amplitude
        <= scale * (1 + amplitude * exp (- t * 0.5))) /\
     (0 <= t ->
      scale * (1 - amplitude * (40 / 27))
        <= fern t scale freq amplitude
        <= scale * (1 + amplitude * (40 / 27)))) /\
  (forall t scale freq amplitude,
     0 <= t -> 0 <= scale -> 0 <= amplitude ->
     1 <= fibScale t /\
     scale * fibScale t * (1 - amplitude)
       <= fibonacci t scale freq amplitude
       <= scale * fibScale t * (1 + amplitude)).
Proof.
  split; [|split].
  - intros name [-> | [-> | ->]]; cbn [fractalPatterns].
    + apply (within_band_wider dragon 1); [lra | apply dragon_band].
    + apply koch_band.
    + apply (within_band_wider mandelbrot 1); [lra | apply mandelbrot_band].
  - intros t scale freq amplitude Hs Ha.
    pose proof (fern_envelope_band t scale freq amplitude Hs Ha) as Henv.
    split; [exact Henv|].
    intros Ht. destruct (fern_envelope t Ht) as [Hpos Hle].
    assert (0 <= scale * amplitude) as Hsa by nra.
    split; nra.
  - intros t scale freq amplitude Ht Hs Ha. split.
    + now apply fibScale_ge_1.
    + now apply fibonacci_scaled_band.
Qed.

Lemma basis_functions_bounds_witness :
  (100 * (1 - 0.2 * (40 / 27)) <= fractalPatterns Koch 0 100 8 0.2
     <= 100 * (1 + 0.2 * (40 / 27))) /\
  (1 <= fibScale 1 /\
   100 * fibScale 1 * (1 - 0.2) <= fibonacci 1 100 8 0.2
     <= 100 * fibScale 1 * (1 + 0.2)).
Proof.
  split.
  - apply (proj1 basis_functions_bounds Koch); [auto | lra | lra].
  - apply (proj2 (proj2 basis_functions_bounds) 1 100 8 0.2); lra.
Defined.

(** C2 as stated fails.  [fibonacci] at phase [2 * PI * (e - 1)] with scale
    1 and amplitude 0 is [1 + 1/PHI], outside [1 * (1 ± 0 * K)] whatever [K]
    is; and [fern] grows without bound towards negative phases.  So no
    constant bounds the five functions. *)
Lemma fibonacci_and_fern_leave_every_band :
  fibonacci (2 * PI * (exp 1 - 1)) 1 1 0 = 1 + PHI_INV /\
  0 < PHI_INV /\
  ~ (exists K, within_band fibonacci K) /\
  ~ (exists K, within_band fern K) /\
  ~ (exists K, forall name, within_band (fractalPatterns name) K).
Proof.
  split; [apply fibonacci_at_e|].
  split; [apply PHI_INV_pos|].
  split; [apply fibonacci_no_band|].
  split; [apply fern_no_band|].
  intros [K H]. apply fibonacci_no_band. exists K. apply (H Fibonacci).
Qed.

End BasisFacts.

(** ** The point sampler *)

Module PlotterFacts.

Import PrimFloat.
Import Plotter.

(** The 1d loop appends a sample only after [Number.isFinite(y)]. *)
Lemma oneDLoop_finite_y (equation : PrimFloat.float -> PrimFloat.float)
    (xMax step : PrimFloat.float) (fuel : nat) :
  forall x0 acc pts,
    all_finite_y acc ->
    oneDLoop fuel equation xMax step x0 acc = Some pts ->
    all_finite_y pts.
Proof.
  induction fuel as [|fuel IH]; intros x0 acc pts Hacc Hrun; cbn in Hrun.
  - discriminate.
  - destruct (PrimFloat.leb x0 xMax).
    + apply IH in Hrun; [exact Hrun|].
      destruct (isFinite (equation x0)) eqn:Hy; [|exact Hacc].
      apply Forall_app. split; [exact Hacc|].
      constructor; [exact Hy | constructor].
    + now injection Hrun as <-.
Qed.

(** The parametric loop appends a sample only after both tests. *)
Lemma parametricLoop_finite
    (parametric : PrimFloat.float -> option SamplePoint)
    (tRange step : PrimFloat.float) (fuel : nat) :
  forall t0 acc pts,
    all_finite acc ->
    parametricLoop fuel parametric tRange step t0 acc = Some pts ->
    all_finite pts.
Proof.
  induction fuel as [|fuel IH]; intros t0 acc pts Hacc Hrun; cbn in Hrun.
  - discriminate.
  - destruct (PrimFloat.leb t0 tRange).
    + apply IH in Hrun; [exact Hrun|].
      destruct (parametric t0) as [result|]; [|exact Hacc].
      destruct (isFinite (x result)) eqn:Hx; [|exact Hacc].
      destruct (isFinite (y result)) eqn:Hy; [|exact Hacc].
      apply Forall_app. split; [exact Hacc|].
      constructor; [now split | constructor].
    + now injection Hrun as <-.
Qed.

(** The two modes that test their samples: whatever the source, what they
    return has passed [Number.isFinite]. *)
Lemma tested_modes_drop_non_finite (fuel : nat)
    (parametric : option (PrimFloat.float -> option SamplePoint))
    (implicit : option (PrimFloat.float -> PrimFloat.float -> PrimFloat.float))
    (resolution : PrimFloat.float) (view : ViewBox)
    (pts : list SamplePoint) :
  (forall f,
     EquationPlotter fuel Canvas.oneD (numberFunction f) parametric implicit
       resolution view = Some pts ->
     all_finite_y pts) /\
  (forall equation,
     EquationPlotter fuel Canvas.parametric equation parametric implicit
       resolution view = Some pts ->
     all_finite pts).
Proof.
  split.
  - intros f H. cbn in H.
    eapply oneDLoop_finite_y; [|exact H]. constructor.
  - intros equation H. unfold EquationPlotter in H.
    destruct parametric as [p|].
    + destruct equation; (eapply parametricLoop_finite; [|exact H]; constructor).
    + destruct equation; injection H as <-; constructor.
Qed.

Lemma all_false (f : SamplePoint -> bool) (n : nat) :
  forall pts,
    map f pts = repeat false n ->
    List.length pts = n /\ Forall (fun p => f p = false) pts.
Proof.
  induction n as [|n IH]; intros [|p pts] H; try discriminate.
  - split; [reflexivity | constructor].
  - cbn in H. injection H as Hp Hrest.
    destruct (IH pts Hrest) as [Hlen Hall].
    split; [cbn; now rewrite Hlen | now constructor].
Qed.

(** C6, at the input where the source departs from it: in fractal mode the
    points of the source are spread into the sequence untested.  At
    resolution 1 a source whose points have NaN for abscissa yields 20
    points, every one with an abscissa that is not finite. *)
Theorem fractal_mode_appends_non_finite :
  exists pts,
    EquationPlotter 100 Canvas.fractal (pointsFunction nanSource) None None
      1%float staticView = Some pts /\
    List.length pts = 20%nat /\
    Forall (fun p => isFinite (x p) = false) pts.
Proof.
  assert (option_map (map (fun p => isFinite (x p)))
            (EquationPlotter 100 Canvas.fractal (pointsFunction nanSource)
               None None 1%float staticView)
          = Some (repeat false 20)) as H
    by (vm_compute; reflexivity).
  destruct (EquationPlotter 100 Canvas.fractal (pointsFunction nanSource)
              None None 1%float staticView) as [pts|]; [|discriminate].
  exists pts. split; [reflexivity|].
  cbn [option_map] in H. injection H as H.
  now apply all_false.
Qed.

End PlotterFacts.

(** ** The bounding radius *)

Module BoundingFacts.

Import Pookalam.

(** *** Distances *)

(** A point at radius [r] and any angle is [|r|] away from the origin. *)
Lemma polar_distance (r theta : R) :
  sqrt (r * cos theta * (r * cos theta) + r * sin theta * (r * sin theta))
  = Rabs r.
Proof.
  rewrite <- sqrt_Rsqr_abs. f_equal.
  pose proof (sin2_cos2 theta) as H. unfold Rsqr in *. nra.
Qed.

(** The rescaling of lines 149-156 brings a point that is further than
    [baseRadius] from the origin back to distance [baseRadius]. *)
Lemma scaled_down_distance (finalX finalY baseRadius : R) :
  0 < baseRadius ->
  sqrt (finalX * finalX + finalY * finalY) > baseRadius ->
  let scaleDown := baseRadius / sqrt (finalX * finalX + finalY * finalY) in
  sqrt (finalX * scaleDown * (finalX * scaleDown)
        + finalY * scaleDown * (finalY * scaleDown)) = baseRadius.
Proof.
  intros Hb Hd scaleDown.
  set (d := sqrt (finalX * finalX + finalY * finalY)) in *.
  assert (d * d = finalX * finalX + finalY * finalY) as Hdd.
  { unfold d. apply sqrt_sqrt. nra. }
  assert (d <> 0) as Hd0 by lra.
  replace (finalX * scaleDown * (finalX * scaleDown)
           + finalY * scaleDown * (finalY * scaleDown))
    with (baseRadius * baseRadius).
  - apply sqrt_square. lra.
  - unfold scaleDown.
    transitivity ((finalX * finalX + finalY * finalY) * (baseRadius * baseRadius) / (d * d)).
    + rewrite <- Hdd. field. exact Hd0.
    + field. exact Hd0.
Qed.

(** *** Lower bounds of the basis functions *)

Lemma PHI_INV_le_2 : PHI_INV <= 2.
Proof.
  unfold PHI_INV, PHI. pose proof (sqrt_pos 5) as H.
  apply (Rmult_le_reg_r ((1 + sqrt 5) / 2)); [lra|].
  unfold Rdiv. rewrite Rmult_1_l, Rinv_l by lra. lra.
Qed.

Lemma ln_lower (x : R) : 0 < x -> 1 - / x <= ln x.
Proof.
  intros Hx. pose proof (exp_ineq1_le (- ln x)) as H.
  rewrite exp_Ropp, exp_ln in H by exact Hx. lra.
Qed.

Lemma exp_monotone (u v : R) : u <= v -> exp u <= exp v.
Proof.
  intros [Hlt | ->]; [left; now apply exp_increasing | lra].
Qed.

Lemma exp_small (u : R) : u <= 3 / 40 -> exp u <= 40 / 37.
Proof.
  intros Hu. apply Rle_trans with (exp (3 / 40)); [now apply exp_monotone|].
  pose proof (exp_ineq1_le (- (3 / 40))) as H.
  rewrite exp_Ropp in H. pose proof (exp_pos (3 / 40)) as Hp.
  apply (Rmult_le_reg_r (/ exp (3 / 40))).
  - now apply Rinv_0_lt_compat.
  - rewrite Rinv_r by lra. lra.
Qed.

(** Slightly before phase 0 the logarithmic factor is still close to 1. *)
Lemma fibScale_lower (t : R) : - (3 / 20) <= t -> 9 / 10 <= fibScale t.
Proof.
  intros Ht. unfold fibScale.
  pose proof PI2_3_2 as Hpi. pose proof BasisFacts.PHI_INV_pos as Hphi.
  pose proof PHI_INV_le_2 as Hphi2.
  assert (- (1 / 40) <= t / (2 * PI)) as Hq.
  { apply (Rmult_le_reg_r (2 * PI)); [lra|].
    unfold Rdiv at 2. rewrite Rmult_assoc, Rinv_l by lra. nra. }
  set (q := t / (2 * PI)) in *.
  assert (0 < 1 + q) as Hx by lra.
  pose proof (ln_lower (1 + q) Hx) as Hln.
  assert (/ (1 + q) <= 40 / 39) as Hinv.
  { replace (40 / 39) with (/ (39 / 40)) by field.
    apply Rinv_le_contravar; lra. }
  set (l := ln (1 + q)) in *.
  assert (- (1 / 39) <= l) as Hl by lra.
  nra.
Qed.

(** The primary function of the main ring, and every function from phase 0
    on at a modulation depth of at most 2/5, is not negative. *)
Lemma basis_nonneg_forward (name : Pattern) (t scale freq amplitude : R) :
  0 <= t -> 0 <= scale -> 0 <= amplitude <= 2 / 5 ->
  0 <= fractalPatterns name t scale freq amplitude.
Proof.
  intros Ht Hs [Ha Ha'].
  assert (0 <= scale * amplitude) as Hsa by nra.
  destruct name; cbn [fractalPatterns].
  - destruct (BasisFacts.fibonacci_scaled_band t scale freq amplitude Ht Hs Ha)
      as [Hl _].
    pose proof (BasisFacts.fibScale_ge_1 t Ht) as Hf.
    assert (0 <= scale * fibScale t) by nra. nra.
  - destruct (BasisFacts.dragon_band t scale freq amplitude Hs Ha) as [Hl _].
    nra.
  - destruct (BasisFacts.koch_band t scale freq amplitude Hs Ha) as [Hl _].
    nra.
  - destruct (BasisFacts.mandelbrot_band t scale freq amplitude Hs Ha)
      as [Hl _].
    nra.
  - destruct (BasisFacts.fern_envelope_band t scale freq amplitude Hs Ha)
      as [Hl _].
    destruct (BasisFacts.fern_envelope t Ht) as [He He'].
    set (e := exp (- t * 0.5)) in *. nra.
Qed.

(** The secondary function of the main ring: the phase may start up to 3/20
    before 0, the modulation depth is at most 6/25. *)
Lemma basis_nonneg_shifted (name : Pattern) (t scale freq amplitude : R) :
  - (3 / 20) <= t -> 0 <= scale -> 0 <= amplitude <= 6 / 25 ->
  0 <= fractalPatterns name t scale freq amplitude.
Proof.
  intros Ht Hs [Ha Ha'].
  assert (0 <= scale * amplitude) as Hsa by nra.
  destruct name; cbn [fractalPatterns].
  - unfold fibonacci. fold (fibScale t).
    pose proof (fibScale_lower t Ht) as Hf.
    pose proof (SIN_bound (freq * t)) as Hsin.
    set (u := sin (freq * t)) in *. set (g := fibScale t) in *.
    assert (0 <= 1 + amplitude * u) by nra.
    assert (0 <= scale * g) by nra. nra.
  - destruct (BasisFacts.dragon_band t scale freq amplitude Hs Ha) as [Hl _].
    nra.
  - destruct (BasisFacts.koch_band t scale freq amplitude Hs Ha) as [Hl _].
    nra.
  - destruct (BasisFacts.mandelbrot_band t scale freq amplitude Hs Ha)
      as [Hl _].
    nra.
  - destruct (BasisFacts.fern_envelope_band t scale freq amplitude Hs Ha)
      as [Hl _].
    assert (exp (- t * 0.5) <= 40 / 37) as He by (apply exp_small; lra).
    pose proof (exp_pos (- t * 0.5)) as Hp.
    set (e := exp (- t * 0.5)) in *. nra.
Qed.

(** The harmonics of the core: from phase 0 on, at a modulation depth of at
    most 4/5, no function goes below minus its radius unit. *)
Lemma basis_lower_core (name : Pattern) (t scale freq amplitude : R) :
  0 <= t -> 0 <= scale -> 0 <= amplitude <= 4 / 5 ->
  - scale <= fractalPatterns name t scale freq amplitude.
Proof.
  intros Ht Hs [Ha Ha'].
  assert (0 <= scale * amplitude) as Hsa by nra.
  destruct name; cbn [fractalPatterns].
  - destruct (BasisFacts.fibonacci_scaled_band t scale freq amplitude Ht Hs Ha)
      as [Hl _].
    pose proof (BasisFacts.fibScale_ge_1 t Ht) as Hf.
    assert (0 <= scale * fibScale t) by nra. nra.
  - destruct (BasisFacts.dragon_band t scale freq amplitude Hs Ha) as [Hl _].
    nra.
  - destruct (BasisFacts.koch_band t scale freq amplitude Hs Ha) as [Hl _].
    nra.
  - destruct (BasisFacts.mandelbrot_band t scale freq amplitude Hs Ha)
      as [Hl _].
    nra.
  - destruct (BasisFacts.fern_envelope_band t scale freq amplitude Hs Ha)
      as [Hl _].
    destruct (BasisFacts.fern_envelope t Ht) as [He He'].
    set (e := exp (- t * 0.5)) in *. nra.
Qed.

(** *** One layer *)

Section Layer.

Variable s : Setup.
Variable t : R.
Variable layerIdx : nat.

Hypothesis base_pos : 0 < baseRadius s.
Hypothesis complexity_range : 0 <= complexityFactor s <= 1.
Hypothesis layers : (3 <= numLayers s)%Z.
Hypothesis asymmetry_range : - (3 / 20) <= asymmetryOffset s <= 3 / 20.
Hypothesis in_loop : INR layerIdx <= IZR (numLayers s) - 1.
Hypothesis forward : 0 <= t.

Lemma layerProgress_range : 0 <= layerProgress s layerIdx <= 1.
Proof.
  unfold layerProgress. apply IZR_le in layers.
  pose proof (pos_INR layerIdx) as Hi.
  assert (0 < IZR (numLayers s) - 1) as Hd by lra.
  split.
  - apply Rmult_le_pos; [exact Hi|]. left. now apply Rinv_0_lt_compat.
  - apply (Rmult_le_reg_r (IZR (numLayers s) - 1)); [exact Hd|].
    unfold Rdiv. rewrite Rmult_assoc, Rinv_l by lra. lra.
Qed.

Lemma currentRadius_range :
  0 < currentRadius s layerIdx <= baseRadius s.
Proof.
  unfold currentRadius. destruct layerProgress_range as [Hl Hu].
  set (p := layerProgress s layerIdx) in *. split; nra.
Qed.

Lemma patternBlend_range : 0 <= sin (layerProgress s layerIdx * PI) <= 1.
Proof.
  destruct layerProgress_range as [Hl Hu]. pose proof PI_RGT_0 as Hpi.
  split.
  - apply sin_ge_0; nra.
  - apply SIN_bound.
Qed.

Lemma amplitude_range : 0 <= amplitude s layerIdx <= 2 / 5.
Proof.
  unfold amplitude. destruct patternBlend_range as [Hl Hu].
  destruct complexity_range as [Hc Hc'].
  set (w := sin (layerProgress s layerIdx * PI)) in *.
  set (c := complexityFactor s) in *. split; nra.
Qed.

Lemma r_main_range :
  0 <= r_main s t layerIdx <= currentRadius s layerIdx.
Proof.
  unfold r_main. cbv zeta.
  destruct patternBlend_range as [Hw Hw'].
  destruct amplitude_range as [Ha Ha'].
  destruct currentRadius_range as [Hr Hr'].
  assert (0 <= fractalPatterns (primaryPattern s) t
                 (currentRadius s layerIdx) (IZR (mainPetals s))
                 (amplitude s layerIdx)) as H1.
  { apply basis_nonneg_forward; lra. }
  assert (0 <= fractalPatterns (secondaryPattern s) (t + asymmetryOffset s)
                 (currentRadius s layerIdx) (IZR (mainPetals s) * 0.7)
                 (amplitude s layerIdx * 0.6)) as H2.
  { apply basis_nonneg_shifted; lra. }
  set (r1 := fractalPatterns (primaryPattern s) _ _ _ _) in *.
  set (r2 := fractalPatterns (secondaryPattern s) _ _ _ _) in *.
  set (w := sin (layerProgress s layerIdx * PI)) in *.
  split.
  - apply Rmin_glb; [nra | lra].
  - apply Rmin_r.
Qed.

Lemma mainPoint_bounded :
  distanceFromOrigin (mainPoint s t layerIdx) <= baseRadius s.
Proof.
  unfold distanceFromOrigin, mainPoint. cbn [x y].
  rewrite polar_distance.
  destruct r_main_range as [Hl Hu]. destruct currentRadius_range as [_ Hr].
  apply Rabs_le. lra.
Qed.

(** The petal points need nothing but a positive base radius. *)
Lemma petalPoint_bounded (petalIdx : nat) :
  distanceFromOrigin (petalPoint s t layerIdx petalIdx) <= baseRadius s.
Proof.
  unfold distanceFromOrigin, petalPoint. cbv zeta. cbn [x y].
  match goal with
  | |- context [Rgt_dec ?d ?b] => destruct (Rgt_dec d b) as [Hfar | Hnear]
  end.
  - right. now apply scaled_down_distance.
  - lra.
Qed.

Lemma petalPoints_bounded :
  Forall (fun p => distanceFromOrigin p <= baseRadius s)
         (petalPoints s t layerIdx).
Proof.
  unfold petalPoints. destruct (Rgt_dec (complexityFactor s) 0.4).
  - apply Forall_map, Forall_forall. intros j _. apply petalPoint_bounded.
  - constructor.
Qed.

Lemma r_core_range :
  - (currentRadius s layerIdx * 0.25) <= r_core s t layerIdx
    <= currentRadius s layerIdx * 0.25.
Proof.
  unfold r_core. cbv zeta. cbn [fold_left seq INR].
  destruct layerProgress_range as [Hp Hp'].
  destruct amplitude_range as [Ha Ha'].
  destruct currentRadius_range as [Hr Hr'].
  set (coreRadius := currentRadius s layerIdx * 0.25).
  set (coreAmplitude := amplitude s layerIdx * (2 - layerProgress s layerIdx)).
  assert (0 <= coreRadius) as HcR by (unfold coreRadius; lra).
  assert (0 <= coreAmplitude <= 4 / 5) as [HcA HcA'].
  { unfold coreAmplitude.
    set (a := amplitude s layerIdx) in *.
    set (p := layerProgress s layerIdx) in *. split; nra. }
  assert (forall h, 1 <= h ->
            0 <= coreRadius / (h * 2) /\ 0 <= coreAmplitude / h <= 4 / 5)
    as Hargs.
  { intros h Hh. assert (0 < / h <= 1) as [Hi Hi'].
    { split; [apply Rinv_0_lt_compat; lra|].
      rewrite <- Rinv_1. apply Rinv_le_contravar; lra. }
    assert (0 < / (h * 2)) by (apply Rinv_0_lt_compat; lra).
    unfold Rdiv. repeat split; nra. }
  set (cc := IZR (Js.floor (4 + complexityFactor s * 8))).
  destruct (Hargs 1) as (Hs1 & Ha1); [lra|].
  destruct (Hargs (1 + 1)) as (Hs2 & Ha2); [lra|].
  destruct (Hargs (1 + 1 + 1)) as (Hs3 & Ha3); [lra|].
  pose proof (basis_lower_core (primaryPattern s) (t * 1)
                _ (cc * 1) _ ltac:(lra) Hs1 Ha1) as H1.
  pose proof (basis_lower_core (primaryPattern s) (t * (1 + 1))
                _ (cc * (1 + 1)) _ ltac:(lra) Hs2 Ha2) as H2.
  pose proof (basis_lower_core (primaryPattern s) (t * (1 + 1 + 1))
                _ (cc * (1 + 1 + 1)) _ ltac:(lra) Hs3 Ha3) as H3.
  set (f1 := fractalPatterns (primaryPattern s) (t * 1) _ _ _) in *.
  set (f2 := fractalPatterns (primaryPattern s) (t * (1 + 1)) _ _ _) in *.
  set (f3 := fractalPatterns (primaryPattern s) (t * (1 + 1 + 1)) _ _ _) in *.
  split.
  - apply Rmin_glb; lra.
  - apply Rmin_r.
Qed.

Lemma corePoints_bounded :
  Forall (fun p => distanceFromOrigin p <= baseRadius s)
         (corePoints s t layerIdx).
Proof.
  unfold corePoints.
  destruct (Rge_dec (INR layerIdx) (IZR (numLayers s) * 0.6));
    [|constructor].
  constructor; [|constructor].
  unfold distanceFromOrigin. cbn [x y]. rewrite polar_distance.
  destruct r_core_range as [Hl Hu]. destruct currentRadius_range as [Hr Hr'].
  apply Rabs_le. lra.
Qed.

Lemma layerPoints_bounded :
  Forall (fun p => distanceFromOrigin p <= baseRadius s)
         (layerPoints s t layerIdx).
Proof.
  unfold layerPoints. constructor; [apply mainPoint_bounded|].
  apply Forall_app. split; [apply petalPoints_bounded | apply corePoints_bounded].
Qed.

End Layer.

(** *** The whole fragment *)

Lemma or_default_range (v d : R) :
  0 <= v <= 1 -> 0 < d <= 1 -> 0 < Js.or_default v d <= 1.
Proof.
  intros Hv Hd. unfold Js.or_default. destruct (Req_dec_T v 0); lra.
Qed.

Lemma loop_index_range (L : Z) (i : nat) :
  In i (seq 0 (Z.to_nat L)) -> INR i <= IZR L - 1.
Proof.
  intros Hin. apply in_seq in Hin.
  rewrite INR_IZR_INZ, <- minus_IZR. apply IZR_le. lia.
Qed.

(** C1, as the source has it.  For a complexity and a symmetry between 0
    and 1 (the documented ranges), a positive size and an angle from 0 on, in
    particular in [0, 2 * PI), the composer returns a fragment and every
    point of it, on the main ring, on a detail petal or in the core, is at
    most [size] away from the origin. *)
Theorem fragment_within_size
    (mulberry32 : Z -> nat -> R) (params : Params) (t : R) :
  unit_interval_rng mulberry32 ->
  0 < size params ->
  0 <= complexity params <= 1 ->
  0 <= symmetry params <= 1 ->
  0 <= t < 2 * PI ->
  exists pts,
    finalPookalam mulberry32 params t = Some pts /\
    Forall (fun p => distanceFromOrigin p <= size params) pts.
Proof.
  intros draws Hsize Hc Hsym [Ht _].
  destruct (ComposerFacts.setup_total mulberry32 draws params)
    as (primary & secondary & Hs).
  unfold finalPookalam. rewrite Hs. eexists. split; [reflexivity|].
  apply Forall_flat_map, Forall_forall. intros i Hi.
  cbn [numLayers] in Hi. apply loop_index_range in Hi.
  destruct (or_default_range (complexity params) 0.7 Hc ltac:(lra)) as [Hcf Hcf'].
  destruct (or_default_range (symmetry params) 1.0 Hsym ltac:(lra)) as [Hsf Hsf'].
  destruct (draws (style params + 54321)%Z 2%nat) as [Hr Hr'].
  match goal with
  | |- Forall _ (layerPoints ?s0 _ _) =>
      change (size params) with (baseRadius s0);
      apply (layerPoints_bounded s0 t i)
  end; cbn [baseRadius complexityFactor numLayers asymmetryOffset].
  - exact Hsize.
  - lra.
  - apply Z.le_max_l.
  - set (sf := Js.or_default (symmetry params) 1.0) in *.
    set (r := mulberry32 (style params + 54321)%Z 2%nat) in *.
    split; nra.
  - exact Hi.
  - exact Ht.
Qed.

Lemma fragment_within_size_witness :
  exists pts,
    finalPookalam Rng.mulberry32 traditional 1 = Some pts /\
    Forall (fun p => distanceFromOrigin p <= size traditional) pts.
Proof.
  apply (fragment_within_size Rng.mulberry32 traditional 1).
  - exact RngFacts.mulberry32_unit_interval.
  - cbn. lra.
  - cbn. lra.
  - cbn. lra.
  - pose proof PI2_3_2. lra.
Defined.

(** *** Outside the documented ranges *)

Lemma draw_runaway :
  Rng.draw (2 + 54321) 0 = 1789592165%Z /\
  Rng.draw (2 + 54321) 1 = 1591804875%Z.
Proof. split; vm_compute; reflexivity. Qed.

Lemma dragonValue_0 : dragonValue 0 = -1.
Proof.
  unfold dragonValue.
  assert ((Js.and32 (Js.shl32 (Js.and32 0 (- 0)) 1) 0 =? 0)%Z = true) as ->
    by (vm_compute; reflexivity).
  reflexivity.
Qed.

Lemma dragon_at_0 (scale freq amplitude : R) :
  dragon 0 scale freq amplitude = scale * (1 - amplitude).
Proof.
  unfold dragon. cbv zeta.
  replace (0 * freq / (2 * PI)) with (IZR 0) by (unfold Rdiv; ring).
  rewrite ComposerFacts.floor_IZR, dragonValue_0, Rmult_0_l, cos_0. ring.
Qed.

(** The setup of [runaway]: style 2 draws [koch] and [dragon]. *)
Lemma setup_runaway :
  exists offset,
    setup Rng.mulberry32 runaway =
    Some {| baseRadius := 100; complexityFactor := 100; numLayers := 6;
            mainPetals := 8; goldenAngle := 2 * PI * PHI_INV;
            primaryPattern := Koch; secondaryPattern := Dragon;
            asymmetryOffset := (1 - 1.0) * offset * 0.3 |}.
Proof.
  eexists. unfold setup.
  cbn [runaway with_complexity with_style traditional size density petals
       style complexity symmetry patternTypes List.length Z.of_nat
       Pos.of_succ_nat Pos.succ].
  unfold Rng.mulberry32 at 1 2.
  destruct draw_runaway as [-> ->].
  rewrite (ComposerFacts.floor_between (1789592165 / 4294967296 * 5) 2) by lra.
  rewrite (ComposerFacts.floor_between (1591804875 / 4294967296 * 5) 1) by lra.
  cbn [Js.index Z.ltb Z.compare Z.to_nat Pos.to_nat Pos.iter_op Nat.add
       nth_error].
  rewrite (ComposerFacts.or_default_nonzero 100) by lra.
  rewrite (ComposerFacts.or_default_nonzero 1.0) by lra.
  rewrite (ComposerFacts.floor_between (0.6 * 10) 6) by lra.
  rewrite (ComposerFacts.floor_IZR 8).
  reflexivity.
Qed.

(** The main ring point of the outermost layer of [runaway] at angle 0,
    whenever [dragon] is the secondary function: the blend weight of the
    primary function is [sin 0 = 0] there. *)
Lemma r_main_runaway (primary : Pattern) (offset : R) :
  r_main {| baseRadius := 100; complexityFactor := 100; numLayers := 6;
            mainPetals := 8; goldenAngle := 2 * PI * PHI_INV;
            primaryPattern := primary; secondaryPattern := Dragon;
            asymmetryOffset := (1 - 1.0) * offset * 0.3 |} 0 0 = -803.
Proof.
  unfold r_main, amplitude, currentRadius, layerProgress.
  cbn [baseRadius complexityFactor numLayers mainPetals primaryPattern
       secondaryPattern asymmetryOffset INR].
  replace (0 / (6 - 1) * PI) with 0 by (unfold Rdiv; ring).
  replace (0 + (1 - 1.0) * offset * 0.3) with 0 by lra.
  cbn [fractalPatterns].
  rewrite sin_0, dragon_at_0, Rmult_0_r.
  rewrite Rmin_left; lra.
Qed.

(** Whatever the generator, if its second draw selects [dragon] the main
    ring point of the outermost layer of [runaway] at angle 0 is
    [(-803, 0)]. *)
Lemma runaway_escapes_with_dragon
    (mulberry32 : Z -> nat -> R) (primary : Pattern) (offset : R) :
  setup mulberry32 runaway =
    Some {| baseRadius := 100; complexityFactor := 100; numLayers := 6;
            mainPetals := 8; goldenAngle := 2 * PI * PHI_INV;
            primaryPattern := primary; secondaryPattern := Dragon;
            asymmetryOffset := (1 - 1.0) * offset * 0.3 |} ->
  exists pts p,
    finalPookalam mulberry32 runaway 0 = Some pts /\
    In p pts /\ layer p = main /\
    x p = -803 /\ y p = 0 /\
    distanceFromOrigin p = 803.
Proof.
  intros Hs. unfold finalPookalam. rewrite Hs.
  eexists. eexists. split; [reflexivity|].
  split; [cbn [numLayers Z.to_nat Pos.to_nat Pos.iter_op Nat.add seq flat_map
               layerPoints]; left; reflexivity|].
  unfold distanceFromOrigin, mainPoint. cbn [layer x y].
  rewrite polar_distance, r_main_runaway, cos_0, sin_0.
  split; [reflexivity|]. split; [ring|]. split; [ring|].
  rewrite Rabs_left; lra.
Qed.

(** C1 as stated fails: complexity is a finite number in [runaway] (100,
    with size 100 and style 2, whose draws select [koch] and [dragon]), and
    at angle 0 the main ring point of the outermost layer is at [(-803, 0)],
    803 away from the origin. *)
Lemma runaway_main_point_escapes :
  0 < size runaway /\ 0 <= 0 < 2 * PI /\
  exists pts p,
    finalPookalam Rng.mulberry32 runaway 0 = Some pts /\
    In p pts /\ layer p = main /\
    x p = -803 /\ y p = 0 /\
    distanceFromOrigin p = 803 /\
    ~ distanceFromOrigin p <= size runaway.
Proof.
  split; [cbn; lra|]. split; [pose proof PI_RGT_0; lra|].
  destruct setup_runaway as [offset Hs].
  destruct (runaway_escapes_with_dragon Rng.mulberry32 Koch offset Hs)
    as (pts & p & Hpts & Hin & Hlayer & Hx & Hy & Hd).
  exists pts, p. repeat split; try assumption.
  rewrite Hd. cbn. lra.
Qed.

End BoundingFacts.

(** ** The animation state machine over whole runs *)

Module MachineFacts.

Import Canvas Notions.

Lemma animate_closed_guard (c : AnimationProps) (timestamp : R)
    (s : AnimationState) :
  running s && (0 <? pointsLength c)%nat = false ->
  animate c timestamp s = at_time timestamp s.
Proof.
  intros H. unfold animate. cbn [running]. rewrite H. reflexivity.
Qed.

Lemma last_default (r : R) (l : list R) (d d' : R) :
  last (r :: l) d = last (r :: l) d'.
Proof.
  revert r. induction l as [|r' l IH]; intros r; [reflexivity|].
  change (last (r' :: l) d = last (r' :: l) d'). apply IH.
Qed.

Lemma handleReset_mount (s : AnimationState) :
  handleReset s = initialState (lastTime s).
Proof.
  unfold handleReset, initialState. now destruct (running s).
Qed.

Lemma idle_ticks (c : AnimationProps) (tss : list R) (s : AnimationState) :
  running s && (0 <? pointsLength c)%nat = false ->
  ticks c s tss = at_time (last tss (lastTime s)) s.
Proof.
  revert s. induction tss as [|timestamp rest IH]; intros s Hg.
  - cbn. now destruct s.
  - cbn [ticks fold_left]. rewrite (animate_closed_guard c timestamp s Hg).
    fold (ticks c (at_time timestamp s) rest).
    rewrite IH by exact Hg.
    unfold at_time; cbn [progress running status completionTimestamp
                         spriteAlpha pathAlpha lastTime].
    f_equal. destruct rest as [|r rest']; [reflexivity|].
    exact (last_default r rest' timestamp (lastTime s)).
Qed.

(** X1. While the machine is paused, or when the point sequence is empty,
    frames change nothing but the time of the last frame: after any run of
    frames the progress, the phase, the completion timestamp and the alphas
    are what they were.  So pausing a running machine, letting frames pass
    and playing again only moves the clock to the last of those frames: the
    next frame advances by its own delta, not by the length of the pause. *)
Theorem idle_frames_change_nothing
    (c : AnimationProps) (tss : list R) (s : AnimationState) :
  (running s = false \/ pointsLength c = 0%nat ->
   ticks c s tss = at_time (last tss (lastTime s)) s) /\
  (running s = true ->
   play (ticks c (pause s) tss) = at_time (last tss (lastTime s)) s).
Proof.
  split.
  - intros Hidle. apply idle_ticks.
    destruct Hidle as [-> | ->]; [reflexivity | apply andb_false_r].
  - intros Hrun. rewrite (idle_ticks c tss (pause s)) by reflexivity.
    unfold play, pause, at_time; cbn. now rewrite Hrun.
Qed.

Lemma idle_frames_change_nothing_witness :
  ticks defaultProps pausedState [16; 32; 48] = at_time 48 pausedState /\
  play (ticks defaultProps (pause (initialState 0)) [16; 32; 48])
  = at_time 48 (initialState 0).
Proof.
  split.
  - apply (proj1 (idle_frames_change_nothing defaultProps [16; 32; 48]
                    pausedState)).
    left. reflexivity.
  - apply (proj2 (idle_frames_change_nothing defaultProps [16; 32; 48]
                    (initialState 0))).
    reflexivity.
Defined.

Lemma alpha_at_end (fade elapsed : R) :
  0 < fade -> fade <= elapsed -> Rmax 0 (1 - elapsed / fade) = 0.
Proof.
  intros Hf He. apply Rmax_left.
  assert (1 <= elapsed / fade).
  { apply (Rmult_le_reg_r fade); [exact Hf|].
    unfold Rdiv. rewrite Rmult_assoc, Rinv_l by lra. lra. }
  lra.
Qed.

Lemma alpha_in_unit (fade elapsed : R) :
  0 < fade -> 0 <= elapsed -> 0 <= Rmax 0 (1 - elapsed / fade) <= 1.
Proof.
  intros Hf He. split; [apply Rmax_l|].
  assert (0 <= elapsed / fade).
  { apply Rmult_le_pos; [exact He|]. left. now apply Rinv_0_lt_compat. }
  apply Rmax_lub; lra.
Qed.

(** X2. The cycle closes.  A running machine in the drawing phase over a
    sequence that is not empty, given a frame that takes the cursor to the
    end, a frame more than [holdDuration] later and a frame at least
    [fadeDuration] after that, goes through holding and fading and is then
    in the state of a fresh mount.  A frame exactly [holdDuration] after the
    completion still holds. *)
Theorem animation_cycle_closes
    (c : AnimationProps) (s : AnimationState) (t1 t2 t3 : R) :
  running s = true -> (0 < pointsLength c)%nat -> status s = drawing ->
  0 < fadeDuration c ->
  progress s + speed c * 50 * (t1 - lastTime s) / 1000
    >= INR (pointsLength c) - 1 ->
  holdDuration c < t2 - t1 ->
  fadeDuration c <= t3 - t2 ->
  status (ticks c s [t1]) = holding /\
  status (ticks c s [t1; t1 + holdDuration c]) = holding /\
  status (ticks c s [t1; t2]) = fading /\
  ticks c s [t1; t2; t3] = initialState t3.
Proof.
  intros Hrun Hlen Hst Hfade Hend Hhold Hfaded.
  pose proof (AnimationFacts.guard_open c _ Hrun Hlen) as Hg.
  assert (ticks c s [t1] =
          {| progress := INR (pointsLength c) - 1; running := true;
             status := holding; completionTimestamp := Some t1;
             lastTime := t1;
             spriteAlpha := spriteAlpha s; pathAlpha := pathAlpha s |}) as H1.
  { cbn [ticks fold_left]. unfold animate. cbn [running status].
    rewrite Hg, Hst. unfold drawingStep. cbn [progress lastTime running].
    destruct (Rge_dec _ _) as [_ | Hn]; [now rewrite Hrun | contradiction]. }
  assert (forall t rest, ticks c s (t1 :: t :: rest)
                         = ticks c (animate c t (ticks c s [t1])) rest)
    as Hsplit by reflexivity.
  split; [now rewrite H1|].
  split.
  { rewrite Hsplit, H1. cbn [ticks fold_left]. unfold animate.
    cbn [running status]. apply Nat.ltb_lt in Hlen. rewrite Hlen.
    cbn [andb]. unfold holdingStep. cbn [completionTimestamp toNumber].
    destruct (Rgt_dec _ _) as [Hgt | _]; [lra | reflexivity]. }
  assert (animate c t2 (ticks c s [t1]) =
          {| progress := INR (pointsLength c) - 1; running := true;
             status := fading; completionTimestamp := Some t2;
             lastTime := t2;
             spriteAlpha := spriteAlpha s; pathAlpha := pathAlpha s |}) as H2.
  { rewrite H1. unfold animate. cbn [running status].
    pose proof Hlen as Hlen'. apply Nat.ltb_lt in Hlen'. rewrite Hlen'.
    cbn [andb]. unfold holdingStep. cbn [completionTimestamp toNumber].
    destruct (Rgt_dec _ _) as [_ | Hn]; [reflexivity | lra]. }
  split; [now rewrite Hsplit, H2|].
  rewrite Hsplit, H2. cbn [ticks fold_left]. unfold animate.
  cbn [running status]. apply Nat.ltb_lt in Hlen. rewrite Hlen. cbn [andb].
  unfold fadingStep. cbn [completionTimestamp toNumber].
  rewrite (alpha_at_end (fadeDuration c) (t3 - t2) Hfade Hfaded).
  destruct (Rle_dec 0 0) as [_ | Hn]; [reflexivity | lra].
Qed.

Lemma animation_cycle_closes_witness :
  status (ticks defaultProps (initialState 0) [1000]) = holding /\
  status (ticks defaultProps (initialState 0) [1000; 1000 + 1500]) = holding /\
  status (ticks defaultProps (initialState 0) [1000; 2501]) = fading /\
  ticks defaultProps (initialState 0) [1000; 2501; 4501] = initialState 4501.
Proof.
  apply (animation_cycle_closes defaultProps (initialState 0) 1000 2501 4501).
  - reflexivity.
  - cbn. lia.
  - reflexivity.
  - cbn. lra.
  - cbn [progress initialState speed defaultProps lastTime pointsLength].
    rewrite AnimationFacts.INR_100. lra.
  - cbn. lra.
  - cbn. lra.
Defined.

(** Every frame records its timestamp. *)
Lemma animate_lastTime (c : AnimationProps) (timestamp : R)
    (s : AnimationState) :
  lastTime (animate c timestamp s) = timestamp.
Proof.
  unfold animate. cbn [running status].
  destruct (running s && (0 <? pointsLength c)%nat); [|reflexivity].
  destruct (status s).
  - unfold drawingStep. now destruct (Rge_dec _ _).
  - unfold holdingStep. now destruct (Rgt_dec _ _).
  - unfold fadingStep. now destruct (Rle_dec _ _).
Qed.

Lemma rules_fresh (now : R) :
  alphas_sound (initialState now) /\ completion_recorded (initialState now).
Proof.
  unfold alphas_sound, completion_recorded; cbn.
  repeat split; try lra. intros H. now elim H.
Qed.

Lemma rules_frame (c : AnimationProps) (timestamp : R) (s : AnimationState) :
  0 < fadeDuration c -> lastTime s <= timestamp ->
  alphas_sound s /\ completion_recorded s ->
  alphas_sound (animate c timestamp s)
  /\ completion_recorded (animate c timestamp s).
Proof.
  intros Hfade Hdt [(Heq & Hrange & Hone) Hrec].
  unfold animate. cbn [running status].
  destruct (running s && (0 <? pointsLength c)%nat).
  2:{ unfold alphas_sound, completion_recorded; cbn.
      repeat split; try assumption; try lra.
      intros Hs. destruct (Hrec Hs) as (t & Ht & Hle).
      exists t. split; [assumption | lra]. }
  destruct (status s) eqn:Hst.
  - unfold drawingStep. cbn [progress].
    assert (pathAlpha s = 1) as H1 by (apply Hone; discriminate).
    destruct (Rge_dec _ _); unfold alphas_sound, completion_recorded; cbn.
    + repeat split; try assumption; try lra.
      intros _. exists timestamp. split; [reflexivity | lra].
    + repeat split; try assumption; try lra.
      intros H. now elim H.
  - unfold holdingStep. cbn [completionTimestamp].
    assert (pathAlpha s = 1) as H1 by (apply Hone; discriminate).
    destruct (Rgt_dec _ _); unfold alphas_sound, completion_recorded; cbn.
    + repeat split; try assumption; try lra.
      intros _. exists timestamp. split; [reflexivity | lra].
    + repeat split; try assumption; try lra.
      intros Hs. destruct (Hrec ltac:(rewrite Hst; discriminate))
        as (t & Ht & Hle).
      exists t. split; [assumption | lra].
  - destruct (Hrec ltac:(rewrite Hst; discriminate)) as (t & Ht & Hle).
    unfold fadingStep. cbn [completionTimestamp]. rewrite Ht. cbn [toNumber].
    pose proof (alpha_in_unit (fadeDuration c) (timestamp - t) Hfade
                  ltac:(lra)) as Ha.
    destruct (Rle_dec _ _).
    + rewrite handleReset_mount. apply rules_fresh.
    + unfold alphas_sound, completion_recorded; cbn.
      repeat split; try lra.
      * intros H. now elim H.
      * intros _. exists t. split; [reflexivity | lra].
Qed.

Lemma rules_reachable (c : AnimationProps) (s : AnimationState) :
  0 < fadeDuration c -> Reachable c s ->
  alphas_sound s /\ completion_recorded s.
Proof.
  intros Hfade Hreach.
  induction Hreach as [now | s timestamp _ IH Hdt | s e _ IH Hctl].
  - apply rules_fresh.
  - now apply rules_frame.
  - destruct e as [timestamp | | |]; cbn [step].
    + now elim (Hctl timestamp).
    + exact IH.
    + exact IH.
    + rewrite handleReset_mount. apply rules_fresh.
Qed.

(** X3. In every state the refs can reach (frames whose timestamps do not
    go back, play, pause, reset), with a positive fade duration, the sprite
    alpha and the path alpha are equal, lie in [0,1], and are 1 outside the
    fading phase; and outside the drawing phase the completion timestamp is
    set, to a time that is not later than the last frame, so the hold and
    the fade never measure time from [null]. *)
Theorem reachable_alphas_sound (c : AnimationProps) (s : AnimationState) :
  0 < fadeDuration c -> Reachable c s ->
  alphas_sound s /\ completion_recorded s.
Proof.
  intros Hfade Hreach. now apply (rules_reachable c s Hfade).
Qed.

Lemma reachable_alphas_sound_witness :
  alphas_sound (animate defaultProps 32 (animate defaultProps 16
                  (initialState 0))).
Proof.
  apply (reachable_alphas_sound defaultProps).
  - cbn. lra.
  - apply reach_frame; [apply reach_frame|].
    + apply reach_mount.
    + cbn. lra.
    + rewrite animate_lastTime. lra.
Defined.

(** A frame of the drawing phase that does not reach the end. *)
Lemma animate_drawing_short (c : AnimationProps) (timestamp : R)
    (s : AnimationState) :
  running s = true -> (0 < pointsLength c)%nat -> status s = drawing ->
  status (animate c timestamp s) = drawing ->
  progress (animate c timestamp s)
  = progress s + speed c * 50 * (timestamp - lastTime s) / 1000.
Proof.
  intros Hr Hlen Hst. unfold animate. cbn [running status].
  rewrite Hr. apply Nat.ltb_lt in Hlen. rewrite Hlen. cbn [andb].
  rewrite Hst. unfold drawingStep. cbn [progress lastTime].
  destruct (Rge_dec _ _); cbn [status progress]; [discriminate | reflexivity].
Qed.

Lemma drawing_run (c : AnimationProps) (tss : list R) :
  (0 < pointsLength c)%nat ->
  forall s, drawing_ticks c s tss ->
  status (ticks c s tss) = drawing ->
  progress (ticks c s tss)
  = progress s + speed c * 50 * (last tss (lastTime s) - lastTime s) / 1000.
Proof.
  intros Hlen. induction tss as [|timestamp rest IH]; intros s Hrun Hend.
  - cbn. lra.
  - destruct Hrun as (_ & Hst & Hr & Hrest).
    unfold ticks in *. cbn [fold_left] in *.
    assert (status (animate c timestamp s) = drawing) as Hmid.
    { destruct rest as [|t' rest']; [exact Hend|].
      now destruct Hrest as (_ & H & _). }
    rewrite (IH _ Hrest Hend).
    rewrite (animate_drawing_short c timestamp s Hr Hlen Hst Hmid).
    rewrite animate_lastTime.
    rewrite (last_default timestamp rest (lastTime s) timestamp).
    destruct rest; cbn [last]; lra.
Qed.

(** X4. The drawing speed does not depend on the frame rate: as long as the
    end of the sequence is not reached, the progress after a run of frames
    of the drawing phase is the progress before it plus
    [speed * 50 / 1000] per millisecond between the frame before the run and
    its last frame, however many frames the run has and wherever they
    fall. *)
Theorem drawing_speed_ignores_frame_rate (c : AnimationProps)
    (tss : list R) (s : AnimationState) :
  (0 < pointsLength c)%nat -> drawing_ticks c s tss ->
  status (ticks c s tss) = drawing ->
  progress (ticks c s tss)
  = progress s + speed c * 50 * (last tss (lastTime s) - lastTime s) / 1000.
Proof.
  intros Hlen Hrun Hend. now apply drawing_run.
Qed.

(** The drawing frame that stops short of the end, in full. *)
Lemma animate_drawing_value (c : AnimationProps) (timestamp : R)
    (s : AnimationState) :
  running s = true -> (0 < pointsLength c)%nat -> status s = drawing ->
  progress s + speed c * 50 * (timestamp - lastTime s) / 1000
  < INR (pointsLength c) - 1 ->
  animate c timestamp s
  = {| progress :=
         progress s + speed c * 50 * (timestamp - lastTime s) / 1000;
       running := true; status := drawing;
       completionTimestamp := completionTimestamp s;
       lastTime := timestamp;
       spriteAlpha := spriteAlpha s; pathAlpha := pathAlpha s |}.
Proof.
  intros Hr Hlen Hst Hshort. unfold animate. cbn [running status].
  rewrite Hr. apply Nat.ltb_lt in Hlen. rewrite Hlen. cbn [andb].
  rewrite Hst. unfold drawingStep.
  cbn [progress lastTime running status completionTimestamp spriteAlpha
       pathAlpha].
  destruct (Rge_dec _ _) as [Hge|_]; [lra|]. rewrite ?Hr, ?Hst. reflexivity.
Qed.

Lemma drawing_speed_ignores_frame_rate_witness :
  progress (ticks defaultProps (initialState 0) [16; 32])
  = progress (initialState 0)
    + speed defaultProps * 50
      * (last [16; 32] (lastTime (initialState 0))
         - lastTime (initialState 0)) / 1000.
Proof.
  assert (INR 100 = 100) as H100 by (apply AnimationFacts.INR_100).
  assert (animate defaultProps 16 (initialState 0)
          = {| progress := 0 + 2 * 50 * (16 - 0) / 1000;
               running := true; status := drawing;
               completionTimestamp := None; lastTime := 16;
               spriteAlpha := 1; pathAlpha := 1 |}) as H1.
  { apply animate_drawing_value; try reflexivity.
    - cbn [pointsLength defaultProps]. lia.
    - cbn [pointsLength defaultProps progress initialState speed lastTime].
      rewrite H100. lra. }
  apply (drawing_speed_ignores_frame_rate defaultProps [16; 32]
           (initialState 0)).
  - cbn [pointsLength defaultProps]. lia.
  - cbn [drawing_ticks]. rewrite H1.
    cbn [lastTime status running initialState]. repeat split; lra.
  - unfold ticks. cbn [fold_left]. rewrite H1.
    rewrite animate_drawing_value; try reflexivity.
    + cbn [pointsLength defaultProps]. lia.
    + cbn [pointsLength defaultProps progress speed lastTime].
      rewrite H100. lra.
Defined.

End MachineFacts.

(** ** Panning and zooming *)

Module PointerFacts.

Import Canvas Notions.

Lemma nonzero_factors (a b : R) : a * b <> 0 -> b <> 0 /\ a <> 0.
Proof. intros H. split; intros H0; apply H; rewrite H0; ring. Qed.

(** X5. World to surface and surface to world are inverse of each other, in
    both directions, in every view whose scale and zoom are not 0. *)
Theorem coords_round_trip (v : View) (a b : R) :
  scale v * zoom v <> 0 ->
  toWorldCoords v (fst (toCanvasCoords v a b)) (snd (toCanvasCoords v a b))
  = (a, b) /\
  toCanvasCoords v (fst (toWorldCoords v a b)) (snd (toWorldCoords v a b))
  = (a, b).
Proof.
  intros Hsz. pose proof (nonzero_factors _ _ Hsz) as Hnz.
  unfold toWorldCoords, toCanvasCoords. cbn [fst snd].
  split; f_equal; field; exact Hnz.
Qed.

Lemma coords_round_trip_witness :
  toWorldCoords defaultView (fst (toCanvasCoords defaultView 2 3))
                (snd (toCanvasCoords defaultView 2 3)) = (2, 3) /\
  toCanvasCoords defaultView (fst (toWorldCoords defaultView 2 3))
                 (snd (toWorldCoords defaultView 2 3)) = (2, 3).
Proof.
  apply (coords_round_trip defaultView 2 3). cbn. lra.
Defined.

(** One move of a drag: the refs record where the cursor is, the offset
    moves by the displacement of the cursor in world units, and the world
    point that was under the cursor at the last position is under the cursor
    at the new one. *)
Lemma move_keeps_point (v : View) (rect : Rect) (e : Pointer.MouseEvent)
    (d : Pointer.Drag) :
  Pointer.isDragging d = true ->
  Pointer.isDragging (fst (Pointer.handleMouseMove v rect e d)) = true /\
  Pointer.lastMousePos (fst (Pointer.handleMouseMove v rect e d))
  = Pointer.surfacePos v rect e /\
  width (snd (Pointer.handleMouseMove v rect e d)) = width v /\
  height (snd (Pointer.handleMouseMove v rect e d)) = height v /\
  scale (snd (Pointer.handleMouseMove v rect e d)) = scale v /\
  zoom (snd (Pointer.handleMouseMove v rect e d)) = zoom v /\
  offset_x (snd (Pointer.handleMouseMove v rect e d))
  = offset_x v
    + (fst (Pointer.surfacePos v rect e) - fst (Pointer.lastMousePos d))
      / (scale v * zoom v) /\
  offset_y (snd (Pointer.handleMouseMove v rect e d))
  = offset_y v
    - (snd (Pointer.surfacePos v rect e) - snd (Pointer.lastMousePos d))
      / (scale v * zoom v).
Proof.
  intros Hdrag. unfold Pointer.handleMouseMove. rewrite Hdrag.
  cbn [negb fst snd Pointer.isDragging Pointer.lastMousePos
       width height scale zoom offset_x offset_y].
  repeat split; reflexivity.
Qed.

Lemma surfacePos_same_size (v v' : View) (rect : Rect)
    (e : Pointer.MouseEvent) :
  width v' = width v -> height v' = height v ->
  Pointer.surfacePos v' rect e = Pointer.surfacePos v rect e.
Proof. intros Hw Hh. unfold Pointer.surfacePos. now rewrite Hw, Hh. Qed.

(** A run of moves with the button down: the refs record the position of
    the last event, and the offset has moved by the displacement of the
    cursor since the run began, in world units. *)
Lemma moves_follow_cursor (rect : Rect) (es : list Pointer.MouseEvent) :
  forall (d : Pointer.Drag) (v : View),
    Pointer.isDragging d = true ->
    Pointer.isDragging (fst (Pointer.moves rect es d v)) = true /\
    Pointer.lastMousePos (fst (Pointer.moves rect es d v))
    = last (map (Pointer.surfacePos v rect) es) (Pointer.lastMousePos d) /\
    width (snd (Pointer.moves rect es d v)) = width v /\
    height (snd (Pointer.moves rect es d v)) = height v /\
    scale (snd (Pointer.moves rect es d v)) = scale v /\
    zoom (snd (Pointer.moves rect es d v)) = zoom v /\
    offset_x (snd (Pointer.moves rect es d v))
    = offset_x v
      + (fst (last (map (Pointer.surfacePos v rect) es)
                   (Pointer.lastMousePos d))
         - fst (Pointer.lastMousePos d)) / (scale v * zoom v) /\
    offset_y (snd (Pointer.moves rect es d v))
    = offset_y v
      - (snd (last (map (Pointer.surfacePos v rect) es)
                   (Pointer.lastMousePos d))
         - snd (Pointer.lastMousePos d)) / (scale v * zoom v).
Proof.
  induction es as [|e rest IH]; intros d v Hdrag; cbn [Pointer.moves].
  - cbn [fst snd map last]. repeat split; try reflexivity; try exact Hdrag.
    + unfold Rminus. rewrite Rplus_opp_r. unfold Rdiv.
      now rewrite Rmult_0_l, Rplus_0_r.
    + unfold Rminus at 2. rewrite Rplus_opp_r. unfold Rdiv, Rminus.
      now rewrite Rmult_0_l, Ropp_0, Rplus_0_r.
  - destruct (move_keeps_point v rect e d Hdrag)
      as (Hd1 & Hl1 & Hw1 & Hh1 & Hs1 & Hz1 & Hx1 & Hy1).
    destruct (Pointer.handleMouseMove v rect e d) as [d1 v1].
    cbn [fst snd] in *.
    destruct (IH d1 v1 Hd1)
      as (Hd2 & Hl2 & Hw2 & Hh2 & Hs2 & Hz2 & Hx2 & Hy2).
    assert (map (Pointer.surfacePos v1 rect) rest
            = map (Pointer.surfacePos v rect) rest) as Hmap.
    { apply map_ext. intros e'. now apply surfacePos_same_size. }
    rewrite Hmap, Hl1 in Hl2, Hx2, Hy2.
    assert (last (map (Pointer.surfacePos v rect) (e :: rest))
                 (Pointer.lastMousePos d)
            = last (map (Pointer.surfacePos v rect) rest)
                   (Pointer.surfacePos v rect e)) as Hlast.
    { cbn [map].
      destruct (map (Pointer.surfacePos v rect) rest) as [|q qs] eqn:Hq;
        [reflexivity|].
      change (last (q :: qs) (Pointer.lastMousePos d)
              = last (q :: qs) (Pointer.surfacePos v rect e)).
      clear. revert q. induction qs as [|q' qs IHq]; intros q;
        [reflexivity|].
      change (last (q' :: qs) (Pointer.lastMousePos d)
              = last (q' :: qs) (Pointer.surfacePos v rect e)).
      apply IHq. }
    rewrite Hlast.
    split; [exact Hd2|]. split; [exact Hl2|].
    split; [congruence|]. split; [congruence|].
    split; [congruence|]. split; [congruence|].
    rewrite Hx2, Hy2, Hx1, Hy1, Hs1, Hz1. unfold Rdiv. split; ring.
Qed.

(** X6. Dragging carries the grabbed point along.  After the press of the
    button and any run of moves, the refs record the surface position of the
    last event (of the press, if there was no move); zoom, scale and size
    are what they were; the offset has moved by the displacement of the
    cursor since the press, divided by [scale * zoom], to the right for
    [x] and the other way for [y]; and so the world point under the cursor
    after the last event is the world point that was under the cursor at
    the press.  Moves without the button down change nothing. *)
Theorem drag_keeps_grabbed_point
    (v : View) (rect : Rect) (press : Pointer.MouseEvent)
    (es : list Pointer.MouseEvent) (d : Pointer.Drag) :
  (let cursor := Pointer.surfacePos v rect (last es press) in
   let grabbed := Pointer.surfacePos v rect press in
   let d' := fst (Pointer.moves rect es
                    (Pointer.handleMouseDown v rect press d) v) in
   let v' := snd (Pointer.moves rect es
                    (Pointer.handleMouseDown v rect press d) v) in
   Pointer.isDragging d' = true /\
   Pointer.lastMousePos d' = cursor /\
   width v' = width v /\ height v' = height v /\
   scale v' = scale v /\ zoom v' = zoom v /\
   offset_x v' = offset_x v + (fst cursor - fst grabbed) / (scale v * zoom v) /\
   offset_y v' = offset_y v - (snd cursor - snd grabbed) / (scale v * zoom v) /\
   toWorldCoords v' (fst cursor) (snd cursor)
   = toWorldCoords v (fst grabbed) (snd grabbed)) /\
  Pointer.moves rect es (Pointer.handleMouseUp d) v
  = (Pointer.handleMouseUp d, v).
Proof.
  split.
  - cbv zeta.
    destruct (moves_follow_cursor rect es
                (Pointer.handleMouseDown v rect press d) v eq_refl)
      as (Hd & Hl & Hw & Hh & Hs & Hz & Hx & Hy).
    cbn [Pointer.handleMouseDown Pointer.lastMousePos] in Hl, Hx, Hy.
    assert (last (map (Pointer.surfacePos v rect) es)
                 (Pointer.surfacePos v rect press)
            = Pointer.surfacePos v rect (last es press)) as Hlast.
    { clear. induction es as [|e rest IH]; [reflexivity|].
      destruct rest as [|e' rest']; [reflexivity|].
      change (last (map (Pointer.surfacePos v rect) (e' :: rest'))
                   (Pointer.surfacePos v rect press)
              = Pointer.surfacePos v rect (last (e' :: rest') press)).
      exact IH. }
    rewrite Hlast in Hl, Hx, Hy.
    split; [exact Hd|]. split; [exact Hl|].
    split; [exact Hw|]. split; [exact Hh|].
    split; [exact Hs|]. split; [exact Hz|].
    split; [exact Hx|]. split; [exact Hy|].
    unfold toWorldCoords. rewrite Hw, Hh, Hs, Hz, Hx, Hy.
    unfold Rdiv. f_equal; ring.
  - induction es as [|e rest IH]; [reflexivity|].
    cbn [Pointer.moves]. unfold Pointer.handleMouseMove at 1.
    cbn [Pointer.handleMouseUp Pointer.isDragging negb]. exact IH.
Qed.

(** A press at the centre of the default surface shown at half its size,
    and a move of 50 client pixels to the right: 100 surface pixels, 2 world
    units. *)
Lemma drag_keeps_grabbed_point_witness :
  offset_x
    (snd (Pointer.moves halfRect
            [ {| Pointer.clientX := 260; Pointer.clientY := 145 |} ]
            (Pointer.handleMouseDown defaultView halfRect
               {| Pointer.clientX := 210; Pointer.clientY := 145 |}
               {| Pointer.isDragging := false;
                  Pointer.lastMousePos := (0, 0) |})
            defaultView)) = 2.
Proof.
  destruct (drag_keeps_grabbed_point defaultView halfRect
              {| Pointer.clientX := 210; Pointer.clientY := 145 |}
              [ {| Pointer.clientX := 260; Pointer.clientY := 145 |} ]
              {| Pointer.isDragging := false;
                 Pointer.lastMousePos := (0, 0) |})
    as [(_ & _ & _ & _ & _ & _ & Hx & _) _].
  rewrite Hx. unfold Pointer.surfacePos.
  cbn [last fst snd Pointer.clientX Pointer.clientY left top rect_width
       rect_height halfRect width height scale zoom offset_x defaultView].
  field.
Defined.

(** *** The zoom stays in its range *)

Lemma newZoom_range (v : View) (e : WheelEvent) :
  0.01 <= newZoom v e <= 100.
Proof.
  unfold newZoom. cbv zeta.
  set (z := zoom v + _ * zoom v).
  split.
  - apply Rmin_glb; [apply Rmax_l | lra].
  - apply Rmin_r.
Qed.

Lemma zoomStep_range (v : View) (e : Pointer.ZoomEvent) :
  zoom_in_range v ->
  zoom_in_range (Pointer.zoomStep v e) /\
  width (Pointer.zoomStep v e) = width v /\
  height (Pointer.zoomStep v e) = height v /\
  scale (Pointer.zoomStep v e) = scale v.
Proof.
  unfold zoom_in_range. intros [Hlo Hhi].
  destruct e as [rect w | | |]; cbn [Pointer.zoomStep].
  - unfold handleWheel. cbn [negb].
    destruct (Req_dec_T (newZoom v w) (zoom v)); cbn [zoom width height scale].
    + repeat split; assumption.
    + repeat split; apply newZoom_range.
  - unfold Pointer.setZoom, Pointer.handleZoomIn. cbn [zoom width height scale].
    repeat split.
    + apply Rmin_glb; lra.
    + apply Rmin_r.
  - unfold Pointer.setZoom, Pointer.handleZoomOut.
    cbn [zoom width height scale].
    repeat split.
    + apply Rmax_r.
    + apply Rmax_lub; lra.
  - cbn [Pointer.handleResetView zoom width height scale].
    repeat split; lra.
Qed.

(** X7. Whatever the user does with the wheel, the zoom buttons and the
    view reset, a zoom that is in [0.01, 100] stays there and the size and
    scale of the surface do not change; so for a scale that is not 0 the
    surface position of a world point always maps back to that point. *)
Theorem zoom_stays_in_range (es : list Pointer.ZoomEvent) (v : View) :
  zoom_in_range v -> scale v <> 0 ->
  let v' := fold_left Pointer.zoomStep es v in
  zoom_in_range v' /\
  width v' = width v /\ height v' = height v /\ scale v' = scale v /\
  forall a b,
    toWorldCoords v' (fst (toCanvasCoords v' a b))
                  (snd (toCanvasCoords v' a b)) = (a, b).
Proof.
  intros Hz Hs. cbv zeta.
  assert (zoom_in_range (fold_left Pointer.zoomStep es v) /\
          width (fold_left Pointer.zoomStep es v) = width v /\
          height (fold_left Pointer.zoomStep es v) = height v /\
          scale (fold_left Pointer.zoomStep es v) = scale v) as H.
  { revert v Hz Hs. induction es as [|e rest IH]; intros v Hz Hs.
    - cbn. split; [exact Hz | repeat split].
    - cbn [fold_left].
      destruct (zoomStep_range v e Hz) as (Hz1 & Hw1 & Hh1 & Hs1).
      destruct (IH (Pointer.zoomStep v e) Hz1 ltac:(congruence))
        as (Hz2 & Hw2 & Hh2 & Hs2).
      split; [exact Hz2 | repeat split; congruence]. }
  destruct H as (Hz' & Hw' & Hh' & Hs').
  split; [exact Hz' | ]. repeat split; try assumption.
  intros a b. apply ViewFacts.toWorldCoords_toCanvasCoords.
  rewrite Hs'. destruct Hz' as [Hlo _].
  apply Rmult_integral_contrapositive_currified; lra.
Qed.

Lemma zoom_stays_in_range_witness :
  zoom_in_range
    (fold_left Pointer.zoomStep
       [Pointer.ZoomIn; Pointer.Wheel halfRect wheelIn; Pointer.ZoomOut]
       defaultView).
Proof.
  apply (zoom_stays_in_range
           [Pointer.ZoomIn; Pointer.Wheel halfRect wheelIn; Pointer.ZoomOut]
           defaultView).
  - unfold zoom_in_range. cbn. lra.
  - cbn. lra.
Defined.

(** X8. The zoom buttons pivot about the centre of the surface: they leave
    the world point at the centre where it is.  A step in and a step out
    cancel when neither is clamped, whereas a wheel notch in followed by a
    notch out leaves the zoom at 0.99 of what it was. *)
Theorem zoom_buttons_pivot_at_centre (v : View) (z : R) :
  toWorldCoords (Pointer.setZoom z v) (width v / 2) (height v / 2)
  = toWorldCoords v (width v / 2) (height v / 2) /\
  (0.01 <= zoom v -> zoom v * 1.3 <= 100 ->
   Pointer.handleZoomOut (Pointer.handleZoomIn (zoom v)) = zoom v) /\
  (forall e_in e_out,
     deltaY e_in <= 0 -> deltaY e_out > 0 ->
     1 <= zoom v -> zoom v * 1.1 <= 100 ->
     newZoom (Pointer.setZoom (newZoom v e_in) v) e_out = 0.99 * zoom v).
Proof.
  split; [|split].
  - unfold toWorldCoords, Pointer.setZoom.
    cbn [width height scale zoom offset_x offset_y].
    unfold Rdiv. f_equal; ring.
  - intros Hlo Hhi. unfold Pointer.handleZoomIn, Pointer.handleZoomOut.
    rewrite Rmin_left by lra. rewrite Rmax_left; lra.
  - intros e_in e_out Hin Hout Hlo Hhi.
    assert (newZoom v e_in = 1.1 * zoom v) as Hz1.
    { unfold newZoom. cbv zeta.
      destruct (Rgt_dec (deltaY e_in) 0) as [H|_]; [lra|].
      rewrite Rmax_right by lra. rewrite Rmin_left by lra. lra. }
    unfold newZoom at 1. cbv zeta. cbn [Pointer.setZoom zoom].
    destruct (Rgt_dec (deltaY e_out) 0) as [_|H]; [|lra].
    rewrite Hz1. rewrite Rmax_right by lra. rewrite Rmin_left by lra. lra.
Qed.

Lemma zoom_buttons_pivot_at_centre_witness :
  Pointer.handleZoomOut (Pointer.handleZoomIn (zoom defaultView))
  = zoom defaultView.
Proof.
  apply (proj1 (proj2 (zoom_buttons_pivot_at_centre defaultView 1))).
  - cbn. lra.
  - cbn. lra.
Defined.

End PointerFacts.

(** ** The scene: grid step, marker and strokes *)

Module SceneFacts.

Import Canvas Notions.

(** *** The grid step *)

Lemma pow10_pos (n : Z) : 0 < Scene.pow10 n.
Proof. unfold Scene.pow10, Rpower. apply exp_pos. Qed.

Lemma pow10_succ (n : Z) : Scene.pow10 (n + 1) = 10 * Scene.pow10 n.
Proof.
  unfold Scene.pow10. rewrite plus_IZR, Rpower_plus, Rpower_1 by lra. ring.
Qed.

Lemma ln_10_pos : 0 < ln 10.
Proof. rewrite <- ln_1. apply ln_increasing; lra. Qed.

(** [10 ^ floor (log10 m)] is the power of ten at or just below [m]. *)
Lemma magnitude_brackets (m : R) :
  0 < m ->
  Scene.pow10 (Js.floor (Scene.log10 m)) <= m
  < 10 * Scene.pow10 (Js.floor (Scene.log10 m)).
Proof.
  intros Hm. rewrite <- pow10_succ.
  unfold Js.floor, Scene.log10.
  destruct (Zfloor_bound (ln m / ln 10)) as [Hlo Hhi].
  set (n := Zfloor (ln m / ln 10)) in *.
  pose proof ln_10_pos as H10.
  assert (IZR n * ln 10 <= ln m) as Hlo'.
  { apply (Rmult_le_compat_r (ln 10)) in Hlo; [|lra].
    unfold Rdiv in Hlo. rewrite Rmult_assoc, Rinv_l in Hlo by lra. lra. }
  assert (ln m < IZR (n + 1) * ln 10) as Hhi'.
  { rewrite plus_IZR.
    apply (Rmult_lt_compat_r (ln 10)) in Hhi; [|lra].
    unfold Rdiv in Hhi. rewrite Rmult_assoc, Rinv_l in Hhi by lra. lra. }
  unfold Scene.pow10, Rpower. split.
  - rewrite <- (exp_ln m Hm) at 1. now apply BoundingFacts.exp_monotone.
  - rewrite <- (exp_ln m Hm) at 1. now apply exp_increasing.
Qed.

(** X9. For a positive scale the grid step is 2, 5 or 10 times a power of
    ten, and two neighbouring grid lines are at least 60 and less than 150
    pixels apart. *)
Theorem grid_lines_60_to_150_pixels_apart (currentScale : R) :
  0 < currentScale ->
  60 <= Scene.calculateAdaptiveGridStep currentScale * currentScale < 150 /\
  exists n : Z,
    Scene.calculateAdaptiveGridStep currentScale = 2 * Scene.pow10 n \/
    Scene.calculateAdaptiveGridStep currentScale = 5 * Scene.pow10 n \/
    Scene.calculateAdaptiveGridStep currentScale = 10 * Scene.pow10 n.
Proof.
  intros Hs. unfold Scene.calculateAdaptiveGridStep. cbv zeta.
  assert (0 < 60 / currentScale) as Hm.
  { apply Rdiv_lt_0_compat; lra. }
  destruct (magnitude_brackets _ Hm) as [Hlo Hhi].
  set (mag := Scene.pow10 (Js.floor (Scene.log10 (60 / currentScale)))) in *.
  assert (0 < mag) as Hmag by apply pow10_pos.
  set (res := 60 / currentScale / mag).
  assert (res * (mag * currentScale) = 60) as Hprod.
  { unfold res. field. split; lra. }
  assert (1 <= res < 10) as [Hr1 Hr10].
  { unfold res. split.
    - apply (Rmult_le_reg_r mag); [lra|].
      unfold Rdiv at 1. rewrite Rmult_assoc, Rinv_l by lra. lra.
    - apply (Rmult_lt_reg_r mag); [lra|].
      unfold Rdiv at 1. rewrite Rmult_assoc, Rinv_l by lra. lra. }
  assert (0 < mag * currentScale) as Hu by (apply Rmult_lt_0_compat; lra).
  set (u := mag * currentScale) in *.
  destruct (Rgt_dec res 5) as [H5 | H5]; [|destruct (Rgt_dec res 2) as [H2 | H2]].
  - split; [|exists (Js.floor (Scene.log10 (60 / currentScale))); auto].
    replace (10 * mag * currentScale) with (10 * u) by (unfold u; ring).
    split; nra.
  - split; [|exists (Js.floor (Scene.log10 (60 / currentScale))); auto].
    replace (5 * mag * currentScale) with (5 * u) by (unfold u; ring).
    split; nra.
  - split; [|exists (Js.floor (Scene.log10 (60 / currentScale))); auto].
    replace (2 * mag * currentScale) with (2 * u) by (unfold u; ring).
    split; nra.
Qed.

Lemma grid_lines_60_to_150_pixels_apart_witness :
  60 <= Scene.calculateAdaptiveGridStep 45 * 45 < 150.
Proof.
  apply (grid_lines_60_to_150_pixels_apart 45). lra.
Defined.

(** *** The marker *)

Lemma index_of_nat {A : Type} (arr : list A) (k : nat) :
  Js.index arr (Z.of_nat k) = nth_error arr k.
Proof.
  unfold Js.index. destruct (Z.of_nat k <? 0)%Z eqn:H.
  - apply Z.ltb_lt in H. lia.
  - now rewrite Nat2Z.id.
Qed.

Lemma index_in_range {A : Type} (arr : list A) (k : nat) (d : A) :
  (k < List.length arr)%nat -> Js.index arr (Z.of_nat k) = Some (nth k arr d).
Proof. intros H. rewrite index_of_nat. now apply nth_error_nth'. Qed.

Lemma nth_length_last {A : Type} (l : list A) (d : A) :
  nth (List.length l - 1) l d = last l d.
Proof.
  induction l as [|a rest IH]; [reflexivity|].
  destruct rest as [|b rest]; [reflexivity|].
  cbn [List.length Nat.sub] in IH |- *. rewrite Nat.sub_0_r in IH.
  exact IH.
Qed.

Lemma lerp_same (a : R * R) (frac : R) : lerp a a frac = a.
Proof. destruct a as [ax ay]. unfold lerp. cbn. f_equal; ring. Qed.

Section Marker.

Variable atan2 : R -> R -> R.
Variable pts : list (R * R).
Variable progress : R.
Hypothesis nonempty : pts <> [].

Lemma length_pos : (0 < List.length pts)%nat.
Proof. destruct pts; [now elim nonempty | cbn; lia]. Qed.

Lemma lastIndex_nat : lastIndex pts = Z.of_nat (lastNat pts).
Proof. pose proof length_pos. unfold lastIndex, lastNat. lia. Qed.

Lemma safeProgress_range : 0 <= safeProgress pts progress <= IZR (lastIndex pts).
Proof.
  unfold safeProgress. split; [apply Rmax_l|].
  apply Rmax_lub; [|apply Rmin_r].
  rewrite lastIndex_nat. apply IZR_le. lia.
Qed.

Lemma currentIndex_range :
  (0 <= currentIndex pts progress <= lastIndex pts)%Z.
Proof.
  pose proof safeProgress_range as [Hlo Hhi].
  unfold currentIndex, Js.floor.
  destruct (Zfloor_bound (safeProgress pts progress)) as [Hfl Hfu].
  split.
  - assert (IZR (-1) < IZR (Zfloor (safeProgress pts progress))) as H
      by (cbn; lra).
    apply lt_IZR in H. lia.
  - apply le_IZR. lra.
Qed.

Lemma currentIndex_nat :
  currentIndex pts progress = Z.of_nat (markerIndex pts progress).
Proof. pose proof currentIndex_range. unfold markerIndex. lia. Qed.

Lemma markerIndex_range : (markerIndex pts progress <= lastNat pts)%nat.
Proof.
  pose proof currentIndex_range as H. rewrite lastIndex_nat in H.
  unfold markerIndex. lia.
Qed.

Lemma frac_range :
  0 <= safeProgress pts progress - INR (markerIndex pts progress) < 1.
Proof.
  rewrite INR_IZR_INZ, <- currentIndex_nat. unfold currentIndex, Js.floor.
  destruct (Zfloor_bound (safeProgress pts progress)) as [Hfl Hfu]. lra.
Qed.

Lemma spritePosition_value (frac : R) (d : R * R) :
  Scene.spritePosition pts (currentIndex pts progress) (lastIndex pts) frac
  = Some (lerp (nth (markerIndex pts progress) pts d)
               (nth (Nat.min (S (markerIndex pts progress)) (lastNat pts))
                    pts d) frac).
Proof.
  pose proof length_pos as Hlen. pose proof markerIndex_range as Hk.
  unfold Scene.spritePosition.
  rewrite currentIndex_nat, lastIndex_nat.
  set (k := markerIndex pts progress) in *.
  destruct (Z.of_nat k >=? Z.of_nat (lastNat pts))%Z eqn:Hge.
  - apply Z.geb_le in Hge. assert (k = lastNat pts) as -> by lia.
    rewrite (index_in_range pts (lastNat pts) d) by (unfold lastNat; lia).
    rewrite Nat.min_r by lia. now rewrite lerp_same.
  - rewrite Z.geb_leb in Hge. apply Z.leb_gt in Hge.
    rewrite (index_in_range pts k d) by (unfold lastNat in *; lia).
    cbn [Scene.or_else].
    replace (Z.min (Z.of_nat k + 1) (Z.of_nat (lastNat pts)))
      with (Z.of_nat (Nat.min (S k) (lastNat pts))) by lia.
    rewrite (index_in_range pts (Nat.min (S k) (lastNat pts)) d)
      by (unfold lastNat in *; lia).
    reflexivity.
Qed.

Lemma spriteAngle_defined :
  exists angle,
    Scene.spriteAngle atan2 pts (currentIndex pts progress) (lastIndex pts)
    = Some angle.
Proof.
  pose proof length_pos as Hlen. pose proof markerIndex_range as Hk.
  unfold Scene.spriteAngle.
  rewrite currentIndex_nat, lastIndex_nat.
  set (k := markerIndex pts progress) in *.
  destruct ((0 <? Z.of_nat k)%Z
            && (Z.of_nat k <? Z.of_nat (List.length pts) - 1)%Z) eqn:Hmid.
  - apply andb_prop in Hmid as [H0 H1].
    apply Z.ltb_lt in H0. apply Z.ltb_lt in H1.
    replace (Z.max 0 (Z.of_nat k - 1)) with (Z.of_nat (k - 1)) by lia.
    replace (Z.min (Z.of_nat k + 1) (Z.of_nat (lastNat pts)))
      with (Z.of_nat (S k)) by (unfold lastNat; lia).
    rewrite (index_in_range pts (k - 1) (0, 0)) by lia.
    rewrite (index_in_range pts (S k) (0, 0)) by lia.
    eauto.
  - destruct (1 <? List.length pts)%nat eqn:H1; [|eauto].
    apply Nat.ltb_lt in H1.
    change 1%Z with (Z.of_nat 1). change 0%Z with (Z.of_nat 0).
    rewrite (index_in_range pts 1 (0, 0)) by lia.
    rewrite (index_in_range pts 0 (0, 0)) by lia.
    eauto.
Qed.

(** At the first and at the last index the marker points along the first
    segment of the path. *)
Lemma spriteAngle_at_ends (p0 p1 : R * R) (rest : list (R * R)) :
  pts = p0 :: p1 :: rest ->
  markerIndex pts progress = 0%nat \/ markerIndex pts progress = lastNat pts ->
  Scene.spriteAngle atan2 pts (currentIndex pts progress) (lastIndex pts)
  = Some (atan2 (snd p1 - snd p0) (fst p1 - fst p0)).
Proof.
  intros Hpts Hend. unfold Scene.spriteAngle.
  rewrite currentIndex_nat.
  assert (((0 <? Z.of_nat (markerIndex pts progress))%Z
           && (Z.of_nat (markerIndex pts progress)
               <? Z.of_nat (List.length pts) - 1)%Z) = false) as ->.
  { apply andb_false_iff. destruct Hend as [-> | ->].
    - left. reflexivity.
    - right. apply Z.ltb_ge. pose proof length_pos. unfold lastNat. lia. }
  rewrite Hpts. reflexivity.
Qed.

Lemma Sprite_value (alpha : R) (spriteComplete : bool) (d : R * R) :
  exists angle,
    Scene.spriteAngle atan2 pts (currentIndex pts progress) (lastIndex pts)
    = Some angle /\
    Scene.Sprite atan2 pts progress alpha spriteComplete
    = Some (if spriteComplete
            then Scene.drawImage
                   (fst (lerp (nth (markerIndex pts progress) pts d)
                              (nth (Nat.min (S (markerIndex pts progress))
                                            (lastNat pts)) pts d)
                              (safeProgress pts progress
                               - INR (markerIndex pts progress))))
                   (snd (lerp (nth (markerIndex pts progress) pts d)
                              (nth (Nat.min (S (markerIndex pts progress))
                                            (lastNat pts)) pts d)
                              (safeProgress pts progress
                               - INR (markerIndex pts progress))))
                   angle alpha
            else Scene.fillDot
                   (fst (lerp (nth (markerIndex pts progress) pts d)
                              (nth (Nat.min (S (markerIndex pts progress))
                                            (lastNat pts)) pts d)
                              (safeProgress pts progress
                               - INR (markerIndex pts progress))))
                   (snd (lerp (nth (markerIndex pts progress) pts d)
                              (nth (Nat.min (S (markerIndex pts progress))
                                            (lastNat pts)) pts d)
                              (safeProgress pts progress
                               - INR (markerIndex pts progress))))
                   alpha).
Proof.
  destruct spriteAngle_defined as [angle Hangle].
  exists angle. split; [exact Hangle|].
  pose proof length_pos as Hlen. pose proof markerIndex_range as Hk.
  unfold Scene.Sprite.
  destruct (List.length pts =? 0)%nat eqn:H0.
  { apply Nat.eqb_eq in H0. lia. }
  cbv zeta.
  change (Z.of_nat (List.length pts) - 1)%Z with (lastIndex pts).
  change (Rmax 0 (Rmin progress (IZR (lastIndex pts))))
    with (safeProgress pts progress).
  change (Js.floor (safeProgress pts progress))
    with (currentIndex pts progress).
  rewrite Hangle.
  rewrite (spritePosition_value
             (safeProgress pts progress - IZR (currentIndex pts progress)) d).
  rewrite currentIndex_nat at 1.
  rewrite (index_in_range pts (markerIndex pts progress) d)
    by (unfold lastNat in *; lia).
  rewrite currentIndex_nat, <- INR_IZR_INZ.
  unfold lerp. reflexivity.
Qed.

End Marker.

(** X10. On a path that is not empty the marker is always painted, whatever
    the progress: every array read is in range.  It sits on the path, at the
    fraction [safeProgress - k] of the way from point [k] to the next one,
    where [safeProgress] is the progress clamped to the indices and [k] its
    integer part; so it is on point [j] when the progress is the index [j],
    on the first point for a progress of 0 or less and on the last one from
    the last index on. *)
Theorem sprite_marks_the_progress_point
    (atan2 : R -> R -> R) (pts : list (R * R)) (progress alpha : R)
    (spriteComplete : bool) (d : R * R) :
  pts <> [] ->
  exists cmd,
    Scene.Sprite atan2 pts progress alpha spriteComplete = Some cmd /\
    (markerIndex pts progress <= lastNat pts)%nat /\
    0 <= safeProgress pts progress - INR (markerIndex pts progress) < 1 /\
    commandPosition cmd
    = lerp (nth (markerIndex pts progress) pts d)
           (nth (Nat.min (S (markerIndex pts progress)) (lastNat pts)) pts d)
           (safeProgress pts progress - INR (markerIndex pts progress)) /\
    (forall j, (j <= lastNat pts)%nat -> progress = INR j ->
               commandPosition cmd = nth j pts d) /\
    (progress <= 0 -> commandPosition cmd = nth 0 pts d) /\
    (INR (lastNat pts) <= progress ->
     commandPosition cmd = nth (lastNat pts) pts d).
Proof.
  intros Hne.
  pose proof (length_pos pts Hne) as Hlen.
  assert (IZR (lastIndex pts) = INR (lastNat pts)) as Hlast.
  { rewrite (lastIndex_nat pts Hne). now rewrite INR_IZR_INZ. }
  destruct (Sprite_value atan2 pts progress Hne alpha spriteComplete d)
    as (angle & _ & Hval).
  pose proof (markerIndex_range pts progress Hne) as Hk.
  pose proof (frac_range pts progress Hne) as Hfrac.
  set (k := markerIndex pts progress) in *.
  set (safe := safeProgress pts progress) in *.
  set (p := lerp (nth k pts d) (nth (Nat.min (S k) (lastNat pts)) pts d)
                 (safe - INR k)) in *.
  assert (forall j, (j <= lastNat pts)%nat -> safe = INR j ->
                    p = nth j pts d) as Hat.
  { intros j Hj Hsafe.
    assert (k = j) as Hkj.
    { unfold k, markerIndex, currentIndex. fold safe.
      rewrite Hsafe, INR_IZR_INZ.
      unfold Js.floor. rewrite ZfloorZ. apply Nat2Z.id. }
    unfold p. rewrite Hkj, Hsafe.
    destruct (nth j pts d) as [ax ay]. unfold lerp. cbn [fst snd].
    f_equal; ring. }
  assert (0 <= INR (lastNat pts)) as Hl0 by apply pos_INR.
  exists (if spriteComplete
          then Scene.drawImage (fst p) (snd p) angle alpha
          else Scene.fillDot (fst p) (snd p) alpha).
  assert (commandPosition
            (if spriteComplete
             then Scene.drawImage (fst p) (snd p) angle alpha
             else Scene.fillDot (fst p) (snd p) alpha) = p) as Hcmd.
  { destruct spriteComplete; cbn [commandPosition];
      symmetry; apply surjective_pairing. }
  rewrite Hcmd.
  split; [exact Hval|]. split; [exact Hk|]. split; [exact Hfrac|].
  split; [reflexivity|]. split; [|split].
  - intros j Hj Hprog. apply Hat; [exact Hj|].
    unfold safe, safeProgress. rewrite Hlast, Hprog.
    rewrite Rmin_left by (apply le_INR; exact Hj).
    apply Rmax_right, pos_INR.
  - intros Hprog. apply (Hat 0%nat); [lia|].
    unfold safe, safeProgress. rewrite Hlast.
    rewrite Rmin_left by lra. cbn. now apply Rmax_left.
  - intros Hprog. apply (Hat (lastNat pts)); [lia|].
    unfold safe, safeProgress. rewrite Hlast.
    rewrite Rmin_right by exact Hprog. now apply Rmax_right.
Qed.

Lemma sprite_marks_the_progress_point_witness :
  exists cmd,
    Scene.Sprite (fun _ _ => 0) threePoints 1 1 false = Some cmd /\
    commandPosition cmd = nth 1 threePoints (0, 0).
Proof.
  destruct (sprite_marks_the_progress_point
              (fun _ _ => 0) threePoints 1 1 false (0, 0))
    as (cmd & Hcmd & _ & _ & _ & Hat & _).
  - discriminate.
  - exists cmd. split; [exact Hcmd|].
    apply (Hat 1%nat); [cbn; lia | reflexivity].
Defined.

(** X11. At both ends of a path of two points or more the marker points
    along the first segment: for a progress of 0 or less it is on the first
    point, from the last index on it is on the last point, and both times
    its angle is that of the segment from the first point to the second. *)
Theorem sprite_heading_at_the_ends
    (atan2 : R -> R -> R) (p0 p1 : R * R) (rest : list (R * R))
    (progress alpha : R) :
  (progress <= 0 ->
   Scene.Sprite atan2 (p0 :: p1 :: rest) progress alpha true
   = Some (Scene.drawImage (fst p0) (snd p0)
             (atan2 (snd p1 - snd p0) (fst p1 - fst p0)) alpha)) /\
  (INR (lastNat (p0 :: p1 :: rest)) <= progress ->
   Scene.Sprite atan2 (p0 :: p1 :: rest) progress alpha true
   = Some (Scene.drawImage (fst (last (p0 :: p1 :: rest) p0))
                           (snd (last (p0 :: p1 :: rest) p0))
             (atan2 (snd p1 - snd p0) (fst p1 - fst p0)) alpha)).
Proof.
  set (pts := p0 :: p1 :: rest).
  assert (pts <> []) as Hne by discriminate.
  assert (IZR (lastIndex pts) = INR (lastNat pts)) as Hlast.
  { rewrite (lastIndex_nat pts Hne). now rewrite INR_IZR_INZ. }
  assert (0 <= INR (lastNat pts)) as Hl0 by apply pos_INR.
  destruct (Sprite_value atan2 pts progress Hne alpha true p0)
    as (angle & Hangle & Hval).
  rewrite Hval. clear Hval.
  split.
  - intros Hprog.
    assert (safeProgress pts progress = 0) as Hsafe.
    { unfold safeProgress. rewrite Hlast, Rmin_left by lra.
      now apply Rmax_left. }
    assert (markerIndex pts progress = 0%nat) as Hk.
    { unfold markerIndex, currentIndex, Js.floor. rewrite Hsafe.
      change 0 with (IZR 0). now rewrite ZfloorZ. }
    rewrite (spriteAngle_at_ends atan2 pts progress Hne p0 p1 rest eq_refl
               (or_introl Hk)) in Hangle.
    injection Hangle as <-.
    rewrite Hsafe, Hk. unfold lerp. cbn [nth pts fst snd INR].
    do 2 f_equal; ring.
  - intros Hprog.
    assert (safeProgress pts progress = INR (lastNat pts)) as Hsafe.
    { unfold safeProgress. rewrite Hlast, Rmin_right by lra.
      now apply Rmax_right. }
    assert (markerIndex pts progress = lastNat pts) as Hk.
    { unfold markerIndex, currentIndex, Js.floor.
      rewrite Hsafe, INR_IZR_INZ, ZfloorZ. apply Nat2Z.id. }
    rewrite (spriteAngle_at_ends atan2 pts progress Hne p0 p1 rest eq_refl
               (or_intror Hk)) in Hangle.
    injection Hangle as <-.
    rewrite Hk. rewrite Nat.min_r by lia. rewrite lerp_same.
    unfold lastNat. rewrite nth_length_last. reflexivity.
Qed.

Lemma sprite_heading_at_the_ends_witness :
  Scene.Sprite (fun y x => y + x) threePoints 0 1 true
  = Some (Scene.drawImage 1 0 ((1 - 0) + (0 - 1)) 1).
Proof.
  apply (proj1 (sprite_heading_at_the_ends
                  (fun y x => y + x) (1, 0) (0, 1) [(-1, 0)] 0 1)).
  lra.
Defined.

(** *** The strokes of the path loop *)

Lemma slice_length {A : Type} (n : Z) (l : list A) :
  (0 < n)%Z ->
  List.length (firstn (Z.to_nat (Z.min (Z.of_nat (List.length l)) n)) l)
  = Nat.min (List.length l) (Z.to_nat n).
Proof. intros Hn. rewrite length_firstn. lia. Qed.

Lemma slices_concat {A : Type} (segments : list (Segment A)) :
  forall n : Z,
    concat (Scene.slices n segments)
    = firstn (Z.to_nat n) (concat (map points segments)).
Proof.
  induction segments as [|segment rest IH]; intros n; cbn [Scene.slices].
  - now rewrite firstn_nil.
  - destruct (n <=? 0)%Z eqn:Hn.
    + apply Z.leb_le in Hn. replace (Z.to_nat n) with 0%nat by lia.
      reflexivity.
    + apply Z.leb_gt in Hn. cbv zeta. cbn [concat map].
      rewrite IH, slice_length by exact Hn.
      rewrite firstn_app.
      destruct (Nat.le_gt_cases (Z.to_nat n) (List.length (points segment)))
        as [Hle | Hgt].
      * replace (Z.to_nat (Z.min (Z.of_nat (List.length (points segment))) n))
          with (Z.to_nat n) by lia.
        replace (Z.to_nat (n - Z.of_nat (Nat.min (List.length (points segment))
                                                 (Z.to_nat n))))
          with 0%nat by lia.
        replace (Z.to_nat n - List.length (points segment))%nat
          with 0%nat by lia.
        reflexivity.
      * replace (Z.to_nat (Z.min (Z.of_nat (List.length (points segment))) n))
          with (List.length (points segment)) by lia.
        replace (Z.to_nat (n - Z.of_nat (Nat.min (List.length (points segment))
                                                 (Z.to_nat n))))
          with (Z.to_nat n - List.length (points segment))%nat by lia.
        rewrite firstn_all, (firstn_all2 (n := Z.to_nat n)) by lia.
        reflexivity.
Qed.

Lemma drawSegments_slices {A : Type} (coords : A -> R * R) (v : View)
    (mode : Mode) (pathAlpha : R) (segments : list (Segment A)) :
  forall n : Z,
    map Scene.path (Scene.drawSegments coords v mode pathAlpha n segments)
    = map (surfacePath coords v) (filter strokable (Scene.slices n segments)).
Proof.
  induction segments as [|segment rest IH]; intros n;
    cbn [Scene.drawSegments Scene.slices]; [reflexivity|].
  destruct (n <=? 0)%Z; [reflexivity|]. cbv zeta. cbn [filter].
  unfold strokable at 1.
  set (segmentPoints :=
         firstn (Z.to_nat (Z.min (Z.of_nat (List.length (points segment))) n))
                (points segment)).
  destruct (List.length segmentPoints <? 2)%nat eqn:Hshort.
  - apply Nat.ltb_lt in Hshort.
    replace (2 <=? List.length segmentPoints)%nat with false
      by (symmetry; apply Nat.leb_gt; lia).
    apply IH.
  - apply Nat.ltb_ge in Hshort.
    replace (2 <=? List.length segmentPoints)%nat with true
      by (symmetry; apply Nat.leb_le; lia).
    cbn [map Scene.path]. now rewrite IH.
Qed.

Lemma drawSegments_strokes {A : Type} (coords : A -> R * R) (v : View)
    (mode : Mode) (pathAlpha : R) (segments : list (Segment A)) :
  forall n : Z,
    Forall (fun st =>
              Scene.strokeAlpha st = pathAlpha /\
              Scene.lineWidth st = (if is_fractal mode then 2 else 3)%Z /\
              exists segment m,
                In segment segments /\
                Scene.strokeColor st = color segment /\
                (2 <= m <= List.length (points segment))%nat /\
                Scene.path st
                = surfacePath coords v (firstn m (points segment)))
           (Scene.drawSegments coords v mode pathAlpha n segments).
Proof.
  induction segments as [|segment rest IH]; intros n;
    cbn [Scene.drawSegments]; [constructor|].
  destruct (n <=? 0)%Z; [constructor|]. cbv zeta.
  set (m := Z.to_nat (Z.min (Z.of_nat (List.length (points segment))) n)).
  assert (Forall (fun st =>
              Scene.strokeAlpha st = pathAlpha /\
              Scene.lineWidth st = (if is_fractal mode then 2 else 3)%Z /\
              exists segment0 m0,
                In segment0 (segment :: rest) /\
                Scene.strokeColor st = color segment0 /\
                (2 <= m0 <= List.length (points segment0))%nat /\
                Scene.path st
                = surfacePath coords v (firstn m0 (points segment0)))
           (Scene.drawSegments coords v mode pathAlpha
              (n - Z.of_nat (List.length (firstn m (points segment)))) rest))
    as Hrest.
  { eapply Forall_impl; [|apply IH].
    intros st (Ha & Hw & seg & m0 & Hin & Hc & Hm & Hp).
    split; [exact Ha|]. split; [exact Hw|].
    exists seg, m0. split; [now right | auto]. }
  destruct (List.length (firstn m (points segment)) <? 2)%nat eqn:Hshort;
    [exact Hrest|].
  apply Nat.ltb_ge in Hshort. rewrite length_firstn in Hshort.
  constructor; [|exact Hrest].
  cbn [Scene.strokeAlpha Scene.lineWidth Scene.strokeColor Scene.path].
  split; [reflexivity|]. split; [reflexivity|].
  exists segment, (Nat.min m (List.length (points segment))).
  split; [now left|]. split; [reflexivity|]. split; [lia|].
  unfold surfacePath. f_equal.
  rewrite <- firstn_firstn. now rewrite firstn_all.
Qed.

(** X12. The strokes of a frame follow the segments.  The path loop goes
    through the first [pointsToDraw] points of the segments, in order and
    segment by segment; it strokes each slice of two points or more, and
    such slices only, so a slice of one point leaves no mark.  Every stroke
    is a prefix of one segment in that segment's colour: no stroke joins two
    segments.  All strokes of a frame have the path alpha and the width of
    the mode. *)
Theorem strokes_follow_the_segments {A : Type} (coords : A -> R * R)
    (v : View) (mode : Mode) (pathAlpha : R) (pointsToDraw : Z)
    (segments : list (Segment A)) :
  map Scene.path
      (Scene.drawSegments coords v mode pathAlpha pointsToDraw segments)
  = map (surfacePath coords v)
        (filter strokable (Scene.slices pointsToDraw segments)) /\
  concat (Scene.slices pointsToDraw segments)
  = firstn (Z.to_nat pointsToDraw) (concat (map points segments)) /\
  Forall (fun st =>
            Scene.strokeAlpha st = pathAlpha /\
            Scene.lineWidth st = (if is_fractal mode then 2 else 3)%Z /\
            exists segment m,
              In segment segments /\
              Scene.strokeColor st = color segment /\
              (2 <= m <= List.length (points segment))%nat /\
              Scene.path st
              = surfacePath coords v (firstn m (points segment)))
         (Scene.drawSegments coords v mode pathAlpha pointsToDraw segments).
Proof.
  split; [apply drawSegments_slices|].
  split; [apply slices_concat | apply drawSegments_strokes].
Qed.

(** The point lists of the segments, concatenated, are the sequence. *)
Lemma pathSegments_concat (mulberry32 : Z -> nat -> R) (A : Type)
    (mode : Mode) (pts : list A) :
  concat (map points (pathSegments mulberry32 mode pts)) = pts.
Proof.
  destruct pts as [|a rest]; [reflexivity|].
  rewrite SegmentFacts.pathSegments_nonempty by discriminate.
  destruct (is_fractal mode); cbn [negb].
  - cbv zeta.
    set (rand := mulberry32 (Z.of_nat (List.length (a :: rest)))).
    pose proof (SegmentFacts.consumed_loop A rand (a :: rest)
                  (segmentInit rand)) as Hall.
    change (consumed (segmentInit rand)) with (@nil A) in Hall.
    unfold consumed in Hall. rewrite app_nil_l in Hall.
    remember (fold_left (segmentStep rand) (a :: rest) (segmentInit rand))
      as st eqn:Hst.
    destruct (points (currentSegment st)) as [|p ps] eqn:Hcur;
      cbn [Nat.ltb Nat.leb List.length].
    + now rewrite app_nil_r in Hall.
    + rewrite map_app, concat_app. cbn [map concat].
      now rewrite app_nil_r, Hcur.
  - cbn [map concat points]. apply app_nil_r.
Qed.

Lemma floor_index_range (x : R) (n : nat) :
  0 <= x <= INR n -> (0 <= Js.floor x <= Z.of_nat n)%Z.
Proof.
  intros [Hlo Hhi]. unfold Js.floor.
  destruct (Zfloor_bound x) as [Hfl Hfu]. split.
  - assert (IZR (-1) < IZR (Zfloor x)) as H by (cbn; lra).
    apply lt_IZR in H. lia.
  - apply le_IZR. rewrite <- INR_IZR_INZ. lra.
Qed.

(** X13. What a frame shows of the sequence.  In every state the machine
    can reach over a sequence that is not empty, the path loop goes through
    a prefix of the point sequence, whatever the segments are: all the
    points but at least the last one while the machine is drawing, and the
    whole sequence once it holds or fades. *)
Theorem frame_draws_a_prefix (mulberry32 : Z -> nat -> R) {A : Type}
    (pts : list A) (mode : Mode) (c : AnimationProps) (s : AnimationState) :
  pts <> [] -> pointsLength c = List.length pts -> 0 <= speed c ->
  Reachable c s ->
  concat (Scene.slices (Scene.pointsToDraw s (List.length pts))
                       (pathSegments mulberry32 mode pts))
  = firstn (Z.to_nat (Scene.pointsToDraw s (List.length pts))) pts /\
  (status s = drawing ->
   (0 <= Scene.pointsToDraw s (List.length pts)
      <= Z.of_nat (List.length pts) - 1)%Z) /\
  (status s <> drawing ->
   concat (Scene.slices (Scene.pointsToDraw s (List.length pts))
                        (pathSegments mulberry32 mode pts)) = pts).
Proof.
  intros Hne Hlen Hsp Hreach.
  assert (0 < List.length pts)%nat as Hpos.
  { destruct pts; [now elim Hne | cbn; lia]. }
  assert (forall n,
            concat (Scene.slices n (pathSegments mulberry32 mode pts))
            = firstn (Z.to_nat n) pts) as Hslices.
  { intros n. now rewrite slices_concat, pathSegments_concat. }
  split; [apply Hslices|]. split.
  - intros Hst. unfold Scene.pointsToDraw. rewrite Hst.
    pose proof (AnimationFacts.reachable_progress_in_range c s
                  ltac:(lia) Hsp Hreach) as [Hlo Hhi].
    rewrite Hlen in Hhi.
    destruct (floor_index_range (progress s) (List.length pts - 1))
      as [H0 H1].
    { split; [exact Hlo|]. rewrite minus_INR by lia. cbn. lra. }
    lia.
  - intros Hst. rewrite Hslices. unfold Scene.pointsToDraw.
    destruct (status s); [now elim Hst | |];
      rewrite Nat2Z.id; apply firstn_all.
Qed.

(** Three points at speed 2: a frame 16 ms after mount leaves the cursor
    at 1.6, and the frame shows the first point; a frame one second after
    mount ends the drawing, and the frame shows the three points. *)
Lemma frame_draws_a_prefix_witness :
  concat (Scene.slices
            (Scene.pointsToDraw
               (animate {| speed := 2; holdDuration := 1500;
                           fadeDuration := 2000; pointsLength := 3 |}
                        16 (initialState 0))
               (List.length threePoints))
            (pathSegments Rng.mulberry32 fractal threePoints))
  = [(1, 0)] /\
  concat (Scene.slices
            (Scene.pointsToDraw
               (animate {| speed := 2; holdDuration := 1500;
                           fadeDuration := 2000; pointsLength := 3 |}
                        1000 (initialState 0))
               (List.length threePoints))
            (pathSegments Rng.mulberry32 fractal threePoints))
  = threePoints.
Proof.
  assert (INR 3 = 3) as H3 by (rewrite INR_IZR_INZ; reflexivity).
  split.
  - destruct (frame_draws_a_prefix Rng.mulberry32 threePoints fractal
                {| speed := 2; holdDuration := 1500; fadeDuration := 2000;
                   pointsLength := 3 |}
                (animate {| speed := 2; holdDuration := 1500;
                            fadeDuration := 2000; pointsLength := 3 |}
                         16 (initialState 0)))
      as (Hprefix & _ & _).
    + discriminate.
    + reflexivity.
    + cbn. lra.
    + apply reach_frame; [apply reach_mount | cbn; lra].
    + rewrite Hprefix.
      rewrite MachineFacts.animate_drawing_value; try reflexivity.
      * unfold Scene.pointsToDraw.
        cbn [status progress initialState speed lastTime].
        rewrite (ComposerFacts.floor_between _ 1) by (cbn [IZR]; lra).
        reflexivity.
      * cbn. lia.
      * cbn [progress initialState speed lastTime pointsLength].
        rewrite H3. lra.
  - apply (frame_draws_a_prefix Rng.mulberry32 threePoints fractal
             {| speed := 2; holdDuration := 1500; fadeDuration := 2000;
                pointsLength := 3 |}
             (animate {| speed := 2; holdDuration := 1500;
                         fadeDuration := 2000; pointsLength := 3 |}
                      1000 (initialState 0))).
    + discriminate.
    + reflexivity.
    + cbn. lra.
    + apply reach_frame; [apply reach_mount | cbn; lra].
    + unfold animate, drawingStep.
      cbn [running status progress lastTime initialState speed pointsLength
           Nat.ltb Nat.leb andb].
      rewrite H3. destruct (Rge_dec _ _) as [_ | Hn];
        [cbn [status]; discriminate | exfalso; apply Hn; lra].
Defined.

End SceneFacts.


(** ** The lengths and colours of the segments *)

Module RunFacts.

Import Canvas Notions.

Lemma nextRun_range (rand : nat -> R) (k : nat) :
  0 <= rand k < 1 -> (200 <= nextRun rand k <= 599)%Z.
Proof.
  intros [Hlo Hhi]. unfold nextRun, Js.floor.
  destruct (Zfloor_bound (rand k * 400 + 200)) as [Hfl Hfu]. split.
  - assert (IZR 199 < IZR (Zfloor (rand k * 400 + 200))) as H by lra.
    apply lt_IZR in H. lia.
  - assert (IZR (Zfloor (rand k * 400 + 200)) < IZR 600) as H by lra.
    apply lt_IZR in H. lia.
Qed.

Section Runs.

Variable A : Type.
Variable rand : nat -> R.
Hypothesis rand_unit : forall k, 0 <= rand k < 1.

Lemma runs_sound_init : runs_sound rand (@segmentInit A rand).
Proof.
  unfold runs_sound, segmentInit. cbn.
  pose proof (nextRun_range rand 0 (rand_unit 0%nat)).
  split; [reflexivity|]. split; [reflexivity|]. split; [reflexivity|].
  split; [lia|]. split; [lia|].
  intros [|i] g Hnone; discriminate.
Qed.

Lemma runs_sound_step (st : SegmentLoop A) (point : A) :
  runs_sound rand st -> runs_sound rand (segmentStep rand st point).
Proof.
  intros (Hcalls & Hci & Hcol & Hpuc & Hlen & Hsegs).
  unfold segmentStep.
  destruct (pointsUntilChange st - 1 <=? 0)%Z eqn:Hchange.
  - apply Z.leb_le in Hchange.
    pose proof (nextRun_range rand (calls st) (rand_unit (calls st))) as Hnext.
    unfold runs_sound.
    cbn [segments colorIndex calls pointsUntilChange currentSegment color
         points].
    rewrite !length_app. cbn [List.length].
    replace (List.length (segments st) + 1)%nat
      with (S (List.length (segments st))) by lia.
    split; [now rewrite Hcalls|].
    split.
    { rewrite Hci. change (List.length colors) with 6%nat.
      rewrite Nat.Div0.add_mod_idemp_l. f_equal. lia. }
    split; [reflexivity|].
    split; [lia|].
    split; [rewrite <- Hcalls; lia|].
    intros i g Hi.
    destruct (Nat.lt_ge_cases i (List.length (segments st))) as [Hlt | Hge].
    + rewrite nth_error_app1 in Hi by exact Hlt. now apply Hsegs.
    + rewrite nth_error_app2 in Hi by exact Hge.
      destruct (i - List.length (segments st))%nat as [|j] eqn:Hj.
      * cbn in Hi. injection Hi as <-. cbn [color points].
        assert (i = List.length (segments st)) as -> by lia.
        split; [now rewrite Hcol, Hci|].
        rewrite length_app. cbn [List.length]. lia.
      * cbn in Hi. destruct j; discriminate.
  - apply Z.leb_gt in Hchange.
    unfold runs_sound.
    cbn [segments colorIndex calls pointsUntilChange currentSegment color
         points].
    rewrite length_app. cbn [List.length].
    split; [exact Hcalls|]. split; [exact Hci|]. split; [exact Hcol|].
    split; [lia|]. split; [lia|]. exact Hsegs.
Qed.

Lemma runs_sound_loop (pts : list A) (st : SegmentLoop A) :
  runs_sound rand st -> runs_sound rand (fold_left (segmentStep rand) pts st).
Proof.
  revert st. induction pts as [|point rest IH]; intros st H; cbn.
  - exact H.
  - apply IH, runs_sound_step, H.
Qed.

End Runs.

(** X15. How long the segments are and which colours they have.  With a
    generator that draws from [0,1), in fractal mode, every draw asks for a
    run of 200 to 599 points; the [i]-th segment has the [i]-th colour of
    the cycle of six, and exactly as many points as the [i]-th draw asked
    for, except the last segment, which may have fewer (but has one at
    least).  So a sequence of fewer than 200 points is one segment, in the
    first colour. *)
Theorem segments_are_runs_of_200_to_599
    (mulberry32 : Z -> nat -> R) {A : Type} (pts : list A) (i : nat) :
  Pookalam.unit_interval_rng mulberry32 ->
  (i < List.length (pathSegments mulberry32 fractal pts))%nat ->
  (200 <= nextRun (mulberry32 (Z.of_nat (List.length pts))) i <= 599)%Z /\
  color (nth i (pathSegments mulberry32 fractal pts) noSegment)
  = colorAt (i mod 6) /\
  (1 <= Z.of_nat (List.length
                    (points (nth i (pathSegments mulberry32 fractal pts)
                                 noSegment)))
     <= nextRun (mulberry32 (Z.of_nat (List.length pts))) i)%Z /\
  ((S i < List.length (pathSegments mulberry32 fractal pts))%nat ->
   Z.of_nat (List.length
               (points (nth i (pathSegments mulberry32 fractal pts)
                            noSegment)))
   = nextRun (mulberry32 (Z.of_nat (List.length pts))) i) /\
  ((List.length pts < 200)%nat ->
   pathSegments mulberry32 fractal pts
   = [ {| color := "255, 165, 0"; points := pts |} ]).
Proof.
  intros Hunit Hi.
  set (rand := mulberry32 (Z.of_nat (List.length pts))).
  assert (forall k, 0 <= rand k < 1) as Hrand by (intros k; apply Hunit).
  pose proof (nextRun_range rand i (Hrand i)) as Hrun.
  assert (pts <> []) as Hne.
  { intros Hnil. rewrite Hnil in Hi. cbn in Hi. lia. }
  pose proof (SceneFacts.pathSegments_concat mulberry32 A fractal pts)
    as Hconcat.
  revert Hi Hconcat.
  rewrite (SegmentFacts.pathSegments_nonempty mulberry32 A fractal pts Hne).
  cbn [is_fractal negb]. cbv zeta. fold rand.
  pose proof (runs_sound_loop A rand Hrand pts (segmentInit rand)
                (runs_sound_init A rand Hrand))
    as (Hcalls & Hci & Hcol & Hpuc & Hcur & Hsegs).
  remember (fold_left (segmentStep rand) pts (segmentInit rand)) as st
    eqn:Hst.
  set (segs := if (0 <? List.length (points (currentSegment st)))%nat
               then segments st ++ [currentSegment st] else segments st).
  intros Hi Hconcat.
  assert (forall j g, nth_error segs j = Some g ->
            color g = colorAt (j mod 6) /\
            (1 <= Z.of_nat (List.length (points g)) <= nextRun rand j)%Z /\
            ((S j < List.length segs)%nat ->
             Z.of_nat (List.length (points g)) = nextRun rand j)) as Hall.
  { intros j g Hj. unfold segs in *.
    destruct (0 <? List.length (points (currentSegment st)))%nat eqn:Hleft.
    - apply Nat.ltb_lt in Hleft.
      destruct (Nat.lt_ge_cases j (List.length (segments st))) as [Hlt | Hge].
      + rewrite nth_error_app1 in Hj by exact Hlt.
        destruct (Hsegs j g Hj) as [Hc Hl].
        pose proof (nextRun_range rand j (Hrand j)).
        split; [exact Hc|]. split; [lia|]. intros _. exact Hl.
      + rewrite nth_error_app2 in Hj by exact Hge.
        destruct (j - List.length (segments st))%nat as [|j'] eqn:Hj'.
        * cbn in Hj. injection Hj as <-.
          assert (j = List.length (segments st)) as -> by lia.
          split; [now rewrite Hcol, Hci|]. split; [lia|].
          rewrite length_app. cbn [List.length]. lia.
        * cbn in Hj. destruct j'; discriminate.
    - destruct (Hsegs j g Hj) as [Hc Hl].
      pose proof (nextRun_range rand j (Hrand j)).
      split; [exact Hc|]. split; [lia|]. intros _. exact Hl. }
  destruct (nth_error segs i) as [g|] eqn:Hg.
  2:{ apply nth_error_None in Hg. lia. }
  rewrite (nth_error_nth segs i noSegment Hg).
  destruct (Hall i g Hg) as (Hc & Hl & Hfull).
  split; [exact Hrun|]. split; [exact Hc|]. split; [exact Hl|].
  split; [exact Hfull|].
  intros Hshort.
  destruct segs as [|g0 [|g1 more]] eqn:Hsegs_eq.
  - cbn in Hi. lia.
  - cbn [map concat] in Hconcat. rewrite app_nil_r in Hconcat.
    destruct (Hall 0%nat g0 eq_refl) as (Hc0 & _ & _).
    destruct g0 as [c0 p0]. cbn [color points] in *.
    now rewrite Hc0, Hconcat.
  - exfalso.
    destruct (Hall 0%nat g0 eq_refl) as (_ & _ & Hfull0).
    specialize (Hfull0 ltac:(cbn; lia)).
    pose proof (nextRun_range rand 0 (Hrand 0%nat)) as H0.
    assert (List.length (points g0) <= List.length pts)%nat as Hle.
    { rewrite <- Hconcat. cbn [map concat]. rewrite length_app. lia. }
    lia.
Qed.

Lemma segments_are_runs_of_200_to_599_witness :
  color (nth 0 (pathSegments Rng.mulberry32 fractal threePoints) noSegment)
  = colorAt (0 mod 6) /\
  pathSegments Rng.mulberry32 fractal threePoints
  = [ {| color := "255, 165, 0"; points := threePoints |} ].
Proof.
  assert (0 < List.length (pathSegments Rng.mulberry32 fractal threePoints))%nat
    as Hpos.
  { pose proof (SceneFacts.pathSegments_concat Rng.mulberry32 _ fractal
                  threePoints) as H.
    destruct (pathSegments Rng.mulberry32 fractal threePoints);
      [discriminate | cbn; lia]. }
  destruct (segments_are_runs_of_200_to_599 Rng.mulberry32 threePoints 0
              RngFacts.mulberry32_unit_interval Hpos)
    as (_ & Hc & _ & _ & Hone).
  split; [exact Hc|]. apply Hone. cbn. lia.
Defined.

End RunFacts.

(** ** The fragment, layer by layer *)

Module FragmentFacts.

Import Pookalam Notions.

(** A property of every point pushed in every turn of the layer loop is a
    property of the fragment. *)
Lemma fragment_Forall (mulberry32 : Z -> nat -> R) (params : Params) (t : R)
    (P : Setup -> Point -> Prop) :
  unit_interval_rng mulberry32 ->
  (forall s i,
     setup mulberry32 params = Some s ->
     baseRadius s = size params ->
     complexityFactor s = Js.or_default (complexity params) 0.7 ->
     numLayers s = Z.max 3 (Js.floor (density params * 10)) ->
     asymmetryOffset s
     = (1 - Js.or_default (symmetry params) 1.0)
       * (mulberry32 (style params + 54321)%Z 2%nat - 0.5) * 0.3 ->
     (Z.of_nat i < numLayers s)%Z ->
     Forall (P s) (layerPoints s t i)) ->
  exists s pts,
    setup mulberry32 params = Some s /\
    finalPookalam mulberry32 params t = Some pts /\
    Forall (P s) pts.
Proof.
  intros draws Hlayer.
  destruct (ComposerFacts.setup_total mulberry32 draws params)
    as (primary & secondary & Hs).
  unfold finalPookalam. rewrite Hs. eexists. eexists.
  split; [reflexivity|]. split; [reflexivity|].
  apply Forall_flat_map, Forall_forall. intros i Hi.
  apply in_seq in Hi. cbn [numLayers] in Hi.
  apply Hlayer; try reflexivity; [exact Hs | cbn [numLayers]; lia].
Qed.

(** X16. The detail petals stay within the base radius whatever the
    complexity, the symmetry and the patterns drawn are: for a positive size
    and an angle from 0 on (so that [fibonacci] takes the logarithm of a
    positive number), every petal point of the fragment is at most [size]
    away from the origin.  The rescaling of the petals holds where the
    [Math.min] of the main ring does not. *)
Theorem petals_within_size_at_any_complexity
    (mulberry32 : Z -> nat -> R) (params : Params) (t : R) :
  unit_interval_rng mulberry32 ->
  0 < size params -> 0 <= t ->
  exists pts,
    finalPookalam mulberry32 params t = Some pts /\
    Forall (fun p => layer p = petalsLayer ->
                     distanceFromOrigin p <= size params) pts.
Proof.
  intros draws Hsize Ht.
  destruct (fragment_Forall mulberry32 params t
              (fun s p => layer p = petalsLayer ->
                          distanceFromOrigin p <= size params) draws)
    as (s & pts & _ & Hpts & Hall).
  - intros s i _ Hbase _ _ _ _. unfold layerPoints.
    constructor; [cbn; discriminate|].
    apply Forall_app. split.
    + rewrite <- Hbase. eapply Forall_impl;
        [|apply (BoundingFacts.petalPoints_bounded s t i); lra].
      intros p Hp _. exact Hp.
    + unfold corePoints. destruct (Rge_dec _ _); [|constructor].
      constructor; [cbn; discriminate | constructor].
  - exists pts. split; [exact Hpts | exact Hall].
Qed.

Lemma petals_within_size_at_any_complexity_witness :
  exists pts,
    finalPookalam Rng.mulberry32 runaway 0 = Some pts /\
    Forall (fun p => layer p = petalsLayer ->
                     distanceFromOrigin p <= size runaway) pts.
Proof.
  apply (petals_within_size_at_any_complexity Rng.mulberry32 runaway 0).
  - exact RngFacts.mulberry32_unit_interval.
  - cbn. lra.
  - lra.
Defined.

(** *** Colours and depths *)

Lemma main_color_range (L : Z) (i : nat) :
  (3 <= L)%Z -> (Z.of_nat i < L)%Z ->
  (0 <= Js.floor (INR i * 7 / IZR L) <= 6)%Z.
Proof.
  intros HL Hi. unfold Js.floor.
  destruct (Zfloor_bound (INR i * 7 / IZR L)) as [Hfl Hfu].
  assert (0 < IZR L) as HLr by (apply IZR_lt; lia).
  assert (0 <= INR i) as Hi0 by apply pos_INR.
  assert (INR i < IZR L) as Hi1 by (rewrite INR_IZR_INZ; now apply IZR_lt).
  assert (0 <= INR i * 7 / IZR L < 7) as [Hq0 Hq7].
  { split.
    - apply Rmult_le_pos; [lra|]. left. now apply Rinv_0_lt_compat.
    - apply (Rmult_lt_reg_r (IZR L)); [exact HLr|].
      unfold Rdiv. rewrite Rmult_assoc, Rinv_l by lra. lra. }
  split.
  - assert (IZR (-1) < IZR (Zfloor (INR i * 7 / IZR L))) as H by (cbn; lra).
    apply lt_IZR in H. lia.
  - assert (IZR (Zfloor (INR i * 7 / IZR L)) < IZR 7) as H by lra.
    apply lt_IZR in H. lia.
Qed.

Lemma numLayers_small (density : R) :
  density * 10 < 11 -> (Z.max 3 (Js.floor (density * 10)) <= 10)%Z.
Proof.
  intros H. unfold Js.floor.
  destruct (Zfloor_bound (density * 10)) as [Hfl _].
  assert (IZR (Zfloor (density * 10)) < IZR 11) as Hlt by lra.
  apply lt_IZR in Hlt. lia.
Qed.

(** X17. Every point carries what tells its layer.  The colour index of a
    main point is in 0..6, that of a petal point in 2..6 and that of a core
    point is 7 or 8.  For a density below 1.1 (at most ten layers) the
    depths of the three kinds of points lie in three bands, main points
    below 500, petal points from 500 to below 1000, core points from 1000
    up: a sort of the fragment by falling depth, as the canvas does, puts
    the core first and the main ring last. *)
Theorem points_carry_their_layer
    (mulberry32 : Z -> nat -> R) (params : Params) (t : R) :
  unit_interval_rng mulberry32 ->
  exists pts,
    finalPookalam mulberry32 params t = Some pts /\
    Forall (fun p =>
              match layer p with
              | main => (0 <= color p <= 6)%Z
              | petalsLayer => (2 <= color p <= 6)%Z
              | core => (7 <= color p <= 8)%Z
              end) pts /\
    (density params * 10 < 11 ->
     Forall (fun p =>
               match layer p with
               | main => (0 <= depth p < 500)%Z
               | petalsLayer => (500 <= depth p < 1000)%Z
               | core => (1000 <= depth p < 1500)%Z
               end) pts).
Proof.
  intros draws.
  destruct (fragment_Forall mulberry32 params t
              (fun s p =>
                 match layer p with
                 | main => (0 <= color p <= 6)%Z
                 | petalsLayer => (2 <= color p <= 6)%Z
                 | core => (7 <= color p <= 8)%Z
                 end /\
                 (density params * 10 < 11 ->
                  match layer p with
                  | main => (0 <= depth p < 500)%Z
                  | petalsLayer => (500 <= depth p < 1000)%Z
                  | core => (1000 <= depth p < 1500)%Z
                  end)) draws)
    as (s & pts & _ & Hpts & Hall).
  - intros s i _ _ _ HL _ Hi.
    assert (3 <= numLayers s)%Z as H3 by (rewrite HL; apply Z.le_max_l).
    assert (density params * 10 < 11 -> (numLayers s <= 10)%Z) as H10.
    { intros Hd. rewrite HL. now apply numLayers_small. }
    unfold layerPoints. constructor; [|apply Forall_app; split].
    + cbn [mainPoint layer color depth]. split.
      * now apply main_color_range.
      * intros Hd. specialize (H10 Hd). lia.
    + unfold petalPoints. destruct (Rgt_dec _ _); [|constructor].
      apply Forall_map, Forall_forall. intros j _.
      cbn [petalPoint layer color depth]. split.
      * pose proof (Z.mod_pos_bound (Z.of_nat j + Z.of_nat i) 5). lia.
      * intros Hd. specialize (H10 Hd). lia.
    + unfold corePoints. destruct (Rge_dec _ _); [|constructor].
      constructor; [|constructor]. cbn [layer color depth]. split.
      * pose proof (Z.mod_pos_bound (Z.of_nat i) 2). lia.
      * intros Hd. specialize (H10 Hd). lia.
  - exists pts. split; [exact Hpts|]. split.
    + eapply Forall_impl; [|exact Hall]. intros p [H _]. exact H.
    + intros Hd. eapply Forall_impl; [|exact Hall].
      intros p [_ H]. now apply H.
Qed.

Lemma points_carry_their_layer_witness :
  exists pts,
    finalPookalam Rng.mulberry32 traditional 1 = Some pts /\
    Forall (fun p =>
              match layer p with
              | main => (0 <= depth p < 500)%Z
              | petalsLayer => (500 <= depth p < 1000)%Z
              | core => (1000 <= depth p < 1500)%Z
              end) pts.
Proof.
  destruct (points_carry_their_layer Rng.mulberry32 traditional 1
              RngFacts.mulberry32_unit_interval)
    as (pts & Hpts & _ & Hdepth).
  exists pts. split; [exact Hpts|]. apply Hdepth. cbn. lra.
Defined.

(** *** The core points *)

Lemma core_test (L : Z) (i : nat) :
  INR i >= IZR L * 0.6 <-> (firstCoreLayer L <= Z.of_nat i)%Z.
Proof.
  unfold firstCoreLayer. rewrite INR_IZR_INZ. split.
  - intros H.
    assert (IZR (3 * L) <= IZR (5 * Z.of_nat i)) as Hz
      by (rewrite !mult_IZR; lra).
    apply le_IZR in Hz. Z.div_mod_to_equations. lia.
  - intros H.
    assert (3 * L <= 5 * Z.of_nat i)%Z as Hz
      by (Z.div_mod_to_equations; lia).
    apply IZR_le in Hz. rewrite !mult_IZR in Hz. lra.
Qed.

Lemma count_corePoints (s : Setup) (t : R) (i : nat) :
  count_layer core (layerPoints s t i)
  = if (firstCoreLayer (numLayers s) <=? Z.of_nat i)%Z then 1%nat else 0%nat.
Proof.
  unfold layerPoints.
  change (mainPoint s t i :: petalPoints s t i ++ corePoints s t i)
    with ([mainPoint s t i] ++ petalPoints s t i ++ corePoints s t i).
  rewrite !ComposerFacts.count_layer_app.
  assert (count_layer core (petalPoints s t i) = 0%nat) as ->.
  { unfold petalPoints. destruct (Rgt_dec _ _); [|reflexivity].
    now rewrite ComposerFacts.count_petalPoints_map. }
  unfold corePoints.
  destruct (Rge_dec (INR i) (IZR (numLayers s) * 0.6)) as [Hge | Hlt].
  - apply core_test in Hge. apply Z.leb_le in Hge. now rewrite Hge.
  - destruct (firstCoreLayer (numLayers s) <=? Z.of_nat i)%Z eqn:Hc;
      [|reflexivity].
    apply Z.leb_le, core_test in Hc. contradiction.
Qed.

Lemma count_from (f : nat -> list Point) (c : Z) (n : nat) :
  (forall i, count_layer core (f i)
             = if (c <=? Z.of_nat i)%Z then 1%nat else 0%nat) ->
  forall a,
    count_layer core (flat_map f (seq a n))
    = (a + n - Nat.max a (Z.to_nat c))%nat.
Proof.
  intros Hf. induction n as [|n IH]; intros a; cbn [seq flat_map].
  - cbn. lia.
  - rewrite ComposerFacts.count_layer_app, Hf, IH.
    destruct (c <=? Z.of_nat a)%Z eqn:Hc.
    + apply Z.leb_le in Hc. lia.
    + apply Z.leb_gt in Hc. lia.
Qed.

(** X18. How many core points a fragment has: one for every layer index
    from the least integer that is at least [0.6 * numLayers] on, that is
    [numLayers - ceil (0.6 * numLayers)] of them, whatever the angle and
    the other parameters are; at least one, and at most two for every five
    layers. *)
Theorem core_points_count
    (mulberry32 : Z -> nat -> R) (params : Params) (t : R) :
  unit_interval_rng mulberry32 ->
  exists pts,
    finalPookalam mulberry32 params t = Some pts /\
    Z.of_nat (count_layer core pts)
    = (Z.max 3 (Js.floor (density params * 10))
       - firstCoreLayer (Z.max 3 (Js.floor (density params * 10))))%Z /\
    (1 <= count_layer core pts)%nat /\
    (5 * Z.of_nat (count_layer core pts)
     <= 2 * Z.max 3 (Js.floor (density params * 10)))%Z.
Proof.
  intros draws.
  destruct (ComposerFacts.setup_total mulberry32 draws params)
    as (primary & secondary & Hs).
  unfold finalPookalam. rewrite Hs. eexists. split; [reflexivity|].
  cbn [numLayers].
  set (L := Z.max 3 (Js.floor (density params * 10))).
  assert (3 <= L)%Z as HL by apply Z.le_max_l.
  match goal with
  | |- context [flat_map (layerPoints ?s0 t) _] =>
      rewrite (count_from (layerPoints s0 t) (firstCoreLayer L)
                 (Z.to_nat L) (count_corePoints s0 t) 0%nat)
  end.
  unfold firstCoreLayer.
  split; [|split]; Z.div_mod_to_equations; lia.
Qed.

Lemma core_points_count_witness :
  exists pts,
    finalPookalam Rng.mulberry32 traditional 1 = Some pts /\
    (1 <= count_layer core pts)%nat.
Proof.
  destruct (core_points_count Rng.mulberry32 traditional 1
              RngFacts.mulberry32_unit_interval)
    as (pts & Hpts & _ & Hone & _).
  exists pts. split; [exact Hpts | exact Hone].
Defined.

(** *** Falsy symmetry *)

(** X19. A symmetry of 0 is read as 1: [params.symmetry || 1.0] replaces
    the 0, the asymmetry offset vanishes, and the fragment is the one of
    the fully symmetric parameters, for every generator and every angle. *)
Theorem zero_symmetry_is_full_symmetry
    (mulberry32 : Z -> nat -> R) (params : Params) (t : R) :
  finalPookalam mulberry32 (with_symmetry 0 params) t
  = finalPookalam mulberry32 (with_symmetry 1 params) t /\
  (forall s, setup mulberry32 (with_symmetry 0 params) = Some s ->
             asymmetryOffset s = 0).
Proof.
  assert (setup mulberry32 (with_symmetry 0 params)
          = setup mulberry32 (with_symmetry 1 params)) as Hsetup.
  { unfold setup, with_symmetry.
    cbn [size density petals style complexity symmetry].
    rewrite ComposerFacts.or_default_zero.
    assert (Js.or_default 1 1.0 = 1.0) as ->.
    { unfold Js.or_default. destruct (Req_dec_T 1 0); lra. }
    reflexivity. }
  split.
  - unfold finalPookalam. now rewrite Hsetup.
  - intros s Hs. unfold setup, with_symmetry in Hs.
    cbn [size density petals style complexity symmetry] in Hs.
    rewrite ComposerFacts.or_default_zero in Hs.
    destruct (Js.index patternTypes _); [|discriminate].
    destruct (Js.index patternTypes _); [|discriminate].
    injection Hs as <-. cbn [asymmetryOffset]. lra.
Qed.

(** *** The rings *)

Lemma currentRadius_falls (s : Setup) (i : nat) :
  0 < baseRadius s -> (3 <= numLayers s)%Z ->
  currentRadius s (S i) < currentRadius s i.
Proof.
  intros Hb HL. unfold currentRadius, layerProgress. rewrite S_INR.
  apply IZR_le in HL.
  assert (0 < / (IZR (numLayers s) - 1)) as Hinv
    by (apply Rinv_0_lt_compat; lra).
  unfold Rdiv. nra.
Qed.

Lemma currentRadius_floor (s : Setup) (i : nat) :
  0 < baseRadius s -> (3 <= numLayers s)%Z ->
  INR i <= IZR (numLayers s) - 1 ->
  baseRadius s / 10 <= currentRadius s i.
Proof.
  intros Hb HL Hi.
  destruct (BoundingFacts.layerProgress_range s i HL Hi) as [_ Hp].
  unfold currentRadius. nra.
Qed.

(** X20. The rings nest.  For a complexity and a symmetry between 0 and 1,
    a positive size and an angle from 0 on, the main point of layer [i] is
    within the radius of that layer, [size * (1 - 0.9 * i / (numLayers -
    1))], and its core point within a quarter of it; the layer radius falls
    from [size] at the outermost layer to a tenth of it at the innermost
    one. *)
Theorem rings_nest
    (mulberry32 : Z -> nat -> R) (params : Params) (t : R) :
  unit_interval_rng mulberry32 ->
  0 < size params ->
  0 <= complexity params <= 1 ->
  0 <= symmetry params <= 1 ->
  0 <= t ->
  exists s,
    setup mulberry32 params = Some s /\
    forall i, (Z.of_nat i < numLayers s)%Z ->
      distanceFromOrigin (mainPoint s t i) <= currentRadius s i /\
      Forall (fun p => distanceFromOrigin p <= currentRadius s i * 0.25)
             (corePoints s t i) /\
      size params / 10 <= currentRadius s i <= size params /\
      currentRadius s (S i) < currentRadius s i /\
      currentRadius s 0 = size params /\
      currentRadius s (Z.to_nat (numLayers s - 1)) = size params / 10.
Proof.
  intros draws Hsize Hc Hsym Ht.
  destruct (ComposerFacts.setup_total mulberry32 draws params)
    as (primary & secondary & Hs).
  eexists. split; [exact Hs|].
  match goal with
  | |- forall i, (_ < numLayers ?s0)%Z -> _ => set (s := s0)
  end.
  intros i Hi.
  destruct (BoundingFacts.or_default_range (complexity params) 0.7 Hc
              ltac:(lra)) as [Hcf Hcf'].
  destruct (BoundingFacts.or_default_range (symmetry params) 1.0 Hsym
              ltac:(lra)) as [Hsf Hsf'].
  destruct (draws (style params + 54321)%Z 2%nat) as [Hr Hr'].
  assert (0 < baseRadius s) as Hb by exact Hsize.
  assert (0 <= complexityFactor s <= 1) as Hcs by (cbn; lra).
  assert (3 <= numLayers s)%Z as HL by apply Z.le_max_l.
  assert (- (3 / 20) <= asymmetryOffset s <= 3 / 20) as Has.
  { cbn [asymmetryOffset s].
    set (sf := Js.or_default (symmetry params) 1.0) in *.
    set (r := mulberry32 (style params + 54321)%Z 2%nat) in *.
    split; nra. }
  assert (INR i <= IZR (numLayers s) - 1) as Hloop.
  { rewrite INR_IZR_INZ, <- minus_IZR. apply IZR_le. lia. }
  pose proof (BoundingFacts.r_main_range s t i Hb Hcs HL Has Hloop Ht)
    as [Hm0 Hm1].
  pose proof (BoundingFacts.r_core_range s t i Hb Hcs HL Hloop Ht)
    as [Hc0 Hc1].
  pose proof (BoundingFacts.currentRadius_range s i Hb HL Hloop)
    as [Hcr0 Hcr1].
  split; [|split; [|split; [|split; [|split]]]].
  - unfold distanceFromOrigin, mainPoint. cbn [x y].
    rewrite BoundingFacts.polar_distance. apply Rabs_le. lra.
  - unfold corePoints. destruct (Rge_dec _ _); [|constructor].
    constructor; [|constructor].
    unfold distanceFromOrigin. cbn [x y].
    rewrite BoundingFacts.polar_distance. apply Rabs_le. lra.
  - split; [|exact Hcr1].
    now apply (currentRadius_floor s i Hb HL).
  - now apply currentRadius_falls.
  - unfold currentRadius, layerProgress. cbn [INR baseRadius s]. lra.
  - unfold currentRadius, layerProgress.
    rewrite INR_IZR_INZ, Z2Nat.id, minus_IZR by lia.
    apply IZR_le in HL. cbn [baseRadius s].
    unfold Rdiv at 1. rewrite Rinv_r by (cbn [IZR] in *; lra). lra.
Qed.

Lemma rings_nest_witness :
  exists s,
    setup Rng.mulberry32 traditional = Some s /\
    distanceFromOrigin (mainPoint s 1 0) <= currentRadius s 0.
Proof.
  destruct (rings_nest Rng.mulberry32 traditional 1
              RngFacts.mulberry32_unit_interval)
    as (s & Hs & Hall).
  - cbn. lra.
  - cbn. lra.
  - cbn. lra.
  - lra.
  - exists s. split; [exact Hs|].
    apply (Hall 0%nat).
    unfold setup in Hs.
    destruct (Js.index patternTypes _); [|discriminate].
    destruct (Js.index patternTypes _); [|discriminate].
    injection Hs as <-. cbn [numLayers]. lia.
Defined.

End FragmentFacts.

(** ** The size only scales the fragment *)

Module ScalingFacts.

Import Pookalam Notions.

(** Every basis function is linear in its radius unit. *)
Lemma pattern_homogeneous (name : Pattern) (k t scale freq amplitude : R) :
  fractalPatterns name t (k * scale) freq amplitude
  = k * fractalPatterns name t scale freq amplitude.
Proof.
  destruct name; cbn [fractalPatterns];
    unfold fibonacci, dragon, koch, mandelbrot, fern; cbv zeta;
    rewrite !Rmult_assoc; reflexivity.
Qed.

Lemma Rmin_scaled (k a b : R) : 0 <= k -> Rmin (k * a) (k * b) = k * Rmin a b.
Proof.
  intros Hk. unfold Rmin.
  destruct (Rle_dec (k * a) (k * b)), (Rle_dec a b); try reflexivity; nra.
Qed.

Lemma sqrt_scaled (k X Y : R) :
  0 <= k ->
  sqrt (k * X * (k * X) + k * Y * (k * Y)) = k * sqrt (X * X + Y * Y).
Proof.
  intros Hk.
  replace (k * X * (k * X) + k * Y * (k * Y))
    with (k * k * (X * X + Y * Y)) by ring.
  rewrite sqrt_mult by nra. now rewrite sqrt_square.
Qed.

(** The test and the rescaling of lines 152-156 commute with a scaling. *)
Lemma clamp_scaled (k b X Y W : R) :
  0 < k -> 0 < b ->
  (if Rgt_dec (sqrt (k * X * (k * X) + k * Y * (k * Y))) (k * b)
   then k * W * (k * b / sqrt (k * X * (k * X) + k * Y * (k * Y)))
   else k * W)
  = k * (if Rgt_dec (sqrt (X * X + Y * Y)) b
         then W * (b / sqrt (X * X + Y * Y)) else W).
Proof.
  intros Hk Hb. rewrite sqrt_scaled by lra.
  set (d := sqrt (X * X + Y * Y)).
  destruct (Rgt_dec (k * d) (k * b)) as [Hfar' | Hnear'],
           (Rgt_dec d b) as [Hfar | Hnear]; try reflexivity; try nra.
  field. split; lra.
Qed.

Lemma petalPoint_unclamped (s : Setup) (t : R) (i j : nat) :
  petalPoint s t i j
  = {| x := if Rgt_dec (sqrt (fst (unclampedPetal s t i j)
                              * fst (unclampedPetal s t i j)
                              + snd (unclampedPetal s t i j)
                                * snd (unclampedPetal s t i j)))
                       (baseRadius s)
            then fst (unclampedPetal s t i j)
                 * (baseRadius s
                    / sqrt (fst (unclampedPetal s t i j)
                            * fst (unclampedPetal s t i j)
                            + snd (unclampedPetal s t i j)
                              * snd (unclampedPetal s t i j)))
            else fst (unclampedPetal s t i j);
       y := if Rgt_dec (sqrt (fst (unclampedPetal s t i j)
                              * fst (unclampedPetal s t i j)
                              + snd (unclampedPetal s t i j)
                                * snd (unclampedPetal s t i j)))
                       (baseRadius s)
            then snd (unclampedPetal s t i j)
                 * (baseRadius s
                    / sqrt (fst (unclampedPetal s t i j)
                            * fst (unclampedPetal s t i j)
                            + snd (unclampedPetal s t i j)
                              * snd (unclampedPetal s t i j)))
            else snd (unclampedPetal s t i j);
       depth := Z.of_nat i * 50 + 500;
       layer := petalsLayer;
       color := (Z.of_nat j + Z.of_nat i) mod 5 + 2;
       pattern := secondaryPattern s |}.
Proof.
  unfold petalPoint, unclampedPetal. cbv zeta. cbn [fst snd].
  destruct (Rgt_dec _ _); reflexivity.
Qed.

Section Scaled.

Variable k : R.
Variable s : Setup.
Variable t : R.

Hypothesis k_pos : 0 < k.
Hypothesis base_pos : 0 < baseRadius s.

Lemma currentRadius_scaled (i : nat) :
  currentRadius (resized k s) i = k * currentRadius s i.
Proof. unfold currentRadius, layerProgress. cbn. ring. Qed.

Lemma mainPoint_scaled (i : nat) :
  mainPoint (resized k s) t i = scalePoint k (mainPoint s t i).
Proof.
  assert (r_main (resized k s) t i = k * r_main s t i) as Hr.
  { unfold r_main. cbv zeta. rewrite !currentRadius_scaled.
    rewrite !pattern_homogeneous.
    change (layerProgress (resized k s) i) with (layerProgress s i).
    change (amplitude (resized k s) i) with (amplitude s i).
    cbn [primaryPattern secondaryPattern mainPetals asymmetryOffset
         resized].
    rewrite <- Rmin_scaled by lra. f_equal. ring. }
  unfold mainPoint, scalePoint. cbn [x y depth layer color pattern].
  rewrite Hr. cbn [numLayers primaryPattern resized].
  f_equal; ring.
Qed.

Lemma unclampedPetal_scaled (i j : nat) :
  unclampedPetal (resized k s) t i j
  = (k * fst (unclampedPetal s t i j),
     k * snd (unclampedPetal s t i j)).
Proof.
  unfold unclampedPetal. cbv zeta. cbn [fst snd].
  rewrite !currentRadius_scaled.
  change (amplitude (resized k s) i) with (amplitude s i).
  change (numDetailPetals (resized k s)) with (numDetailPetals s).
  cbn [complexityFactor secondaryPattern resized].
  rewrite !Rmult_assoc, pattern_homogeneous.
  f_equal; ring.
Qed.

Lemma petalPoint_scaled (i j : nat) :
  petalPoint (resized k s) t i j = scalePoint k (petalPoint s t i j).
Proof.
  rewrite !petalPoint_unclamped, unclampedPetal_scaled.
  unfold scalePoint. cbn [fst snd x y depth layer color pattern].
  cbn [baseRadius secondaryPattern resized].
  set (X := fst (unclampedPetal s t i j)).
  set (Y := snd (unclampedPetal s t i j)).
  f_equal; now apply clamp_scaled.
Qed.

Lemma core_sum_scaled (coreRadius coreAmplitude : R) (coreComplexity : Z)
    (harmonics : list nat) :
  forall acc,
    fold_left
      (fun acc harmonic =>
         acc +
         (fractalPatterns (primaryPattern s) (t * INR harmonic)
            (k * coreRadius / (INR harmonic * 2))
            (IZR coreComplexity * INR harmonic)
            (coreAmplitude / INR harmonic)
          - k * coreRadius / (INR harmonic * 2)))
      harmonics (k * acc)
    = k * fold_left
            (fun acc harmonic =>
               acc +
               (fractalPatterns (primaryPattern s) (t * INR harmonic)
                  (coreRadius / (INR harmonic * 2))
                  (IZR coreComplexity * INR harmonic)
                  (coreAmplitude / INR harmonic)
                - coreRadius / (INR harmonic * 2)))
            harmonics acc.
Proof.
  induction harmonics as [|h rest IH]; intros acc; cbn [fold_left].
  - reflexivity.
  - rewrite <- IH. f_equal.
    replace (k * coreRadius / (INR h * 2))
      with (k * (coreRadius / (INR h * 2))) by (unfold Rdiv; ring).
    rewrite pattern_homogeneous. ring.
Qed.

Lemma r_core_scaled (i : nat) : r_core (resized k s) t i = k * r_core s t i.
Proof.
  unfold r_core. cbv zeta. rewrite currentRadius_scaled.
  change (amplitude (resized k s) i) with (amplitude s i).
  change (layerProgress (resized k s) i) with (layerProgress s i).
  cbn [complexityFactor primaryPattern resized].
  rewrite !(Rmult_assoc k).
  rewrite core_sum_scaled. now apply Rmin_scaled; lra.
Qed.

Lemma layerPoints_scaled (i : nat) :
  layerPoints (resized k s) t i = map (scalePoint k) (layerPoints s t i).
Proof.
  unfold layerPoints. cbn [map]. rewrite map_app. f_equal.
  - apply mainPoint_scaled.
  - f_equal.
    + unfold petalPoints.
      change (numDetailPetals (resized k s)) with (numDetailPetals s).
      cbn [complexityFactor resized].
      destruct (Rgt_dec (complexityFactor s) 0.4); [|reflexivity].
      rewrite map_map. apply map_ext. intros j. apply petalPoint_scaled.
    + unfold corePoints. cbn [numLayers resized].
      destruct (Rge_dec (INR i) (IZR (numLayers s) * 0.6)); [|reflexivity].
      cbn [map]. unfold scalePoint. cbn [x y depth layer color pattern].
      rewrite r_core_scaled. cbn [goldenAngle primaryPattern resized].
      f_equal. f_equal; ring.
Qed.

End Scaled.

(** X21. The size only scales the fragment.  For a positive size and a
    positive factor [k], the fragment of the parameters with [k] times the
    size is the fragment of the parameters themselves with every point
    moved away from the origin by the factor [k]: same points in the same
    order, same layers, depths, colours and patterns, and the coordinates
    multiplied by [k]. *)
Theorem size_scales_the_fragment
    (mulberry32 : Z -> nat -> R) (params : Params) (k t : R) :
  0 < k -> 0 < size params ->
  finalPookalam mulberry32 (with_size (k * size params) params) t
  = option_map (map (scalePoint k)) (finalPookalam mulberry32 params t).
Proof.
  intros Hk Hsize. unfold finalPookalam, setup, with_size.
  cbn [size density petals style complexity symmetry].
  destruct (Js.index patternTypes _) as [primary|]; [|reflexivity].
  destruct (Js.index patternTypes _) as [secondary|]; [|reflexivity].
  cbn [option_map numLayers]. f_equal.
  rewrite flat_map_concat_map, (flat_map_concat_map (layerPoints _ t)).
  rewrite concat_map, map_map. f_equal. apply map_ext. intros i.
  match goal with
  | |- _ = map _ (layerPoints ?s0 t i) =>
      apply (layerPoints_scaled k s0 t Hk Hsize)
  end.
Qed.

Lemma size_scales_the_fragment_witness :
  finalPookalam Rng.mulberry32 (with_size (2 * size traditional) traditional) 1
  = option_map (map (scalePoint 2))
               (finalPookalam Rng.mulberry32 traditional 1).
Proof.
  apply (size_scales_the_fragment Rng.mulberry32 traditional 2 1).
  - lra.
  - cbn. lra.
Defined.

End ScalingFacts.

(** ** The escape loop of [mandelbrot] *)

Module EscapeFacts.

Import Pookalam.

Lemma mandel_step_bound (zr zi : R) :
  zr * zr + zi * zi <= 4 ->
  0 <= sqrt ((zr * zr - zi * zi + 0.3) * (zr * zr - zi * zi + 0.3)
             + (2 * zr * zi + 0.1) * (2 * zr * zi + 0.1)) <= 4.4.
Proof.
  intros Hz. split; [apply sqrt_pos|].
  rewrite <- (sqrt_square 4.4) by lra.
  apply sqrt_le_1_alt.
  pose proof (Rle_0_sqr zr) as Hr. pose proof (Rle_0_sqr zi) as Hi.
  pose proof (Rle_0_sqr (zr - zi)) as Hd.
  pose proof (Rle_0_sqr (zr + zi)) as Hp.
  unfold Rsqr in Hr, Hi, Hd, Hp.
  set (u := zr * zr) in *. set (w := zi * zi) in *.
  assert (zr * zi * (zr * zi) = u * w) as Hprod by (unfold u, w; ring).
  set (q := zr * zi) in *.
  assert (2 * q <= u + w) as Hq1 by (unfold u, w, q; lra).
  assert (- (u + w) <= 2 * q) as Hq2 by (unfold u, w, q; lra).
  replace ((u - w + 0.3) * (u - w + 0.3) + (2 * zr * zi + 0.1) * (2 * zr * zi + 0.1))
    with ((u + w) * (u + w) + 0.6 * (u - w) + 0.4 * q + 0.1).
  - nra.
  - replace (2 * zr * zi) with (2 * q) by (unfold q; ring).
    transitivity (u * u - 2 * (u * w) + w * w + 4 * (q * q)
                  + 0.6 * (u - w) + 0.4 * q + 0.1); [|lra].
    rewrite Hprod. lra.
Qed.

Lemma mandel_loop_bound (fuel : nat) :
  forall zr zi magnitude,
    zr * zr + zi * zi <= 4 -> 0 <= magnitude <= 4.4 ->
    0 <= mandel_loop fuel zr zi magnitude <= 4.4.
Proof.
  induction fuel as [|fuel IH]; intros zr zi magnitude Hz Hm;
    cbn [mandel_loop]; [exact Hm|].
  cbv zeta.
  pose proof (mandel_step_bound zr zi Hz) as Hstep.
  set (newR := zr * zr - zi * zi + 0.3) in *.
  set (newI := 2 * zr * zi + 0.1) in *.
  destruct (Rgt_dec (sqrt (newR * newR + newI * newI)) 2) as [Hout | Hin].
  - exact Hstep.
  - apply IH; [|exact Hstep].
    rewrite <- (sqrt_sqrt (newR * newR + newI * newI)) by nra.
    destruct Hstep as [H0 _]. nra.
Qed.

(** X22. The escape loop of [mandelbrot] never returns a magnitude above
    4.4, whatever the angle: an iterate is tested against 2 before the next
    one is computed, so the last magnitude computed is that of [z * z + c]
    for a [z] of magnitude 2 at most.  The modulation of [mandelbrot] is
    therefore the sine of a phase of at most [4.4 * |freq * t|] in absolute
    value. *)
Theorem mandelbrot_escape_is_bounded (t freq : R) :
  0 <= mandel_loop 8 (cos t) (sin t) 0 <= 4.4 /\
  Rabs (mandel_loop 8 (cos t) (sin t) 0 * freq * t) <= 4.4 * Rabs (freq * t).
Proof.
  assert (0 <= mandel_loop 8 (cos t) (sin t) 0 <= 4.4) as Hm.
  { apply mandel_loop_bound; [|lra].
    pose proof (sin2_cos2 t) as H. unfold Rsqr in H. lra. }
  split; [exact Hm|].
  rewrite Rmult_assoc, Rabs_mult, (Rabs_right (mandel_loop _ _ _ _)) by lra.
  apply Rmult_le_compat_r; [apply Rabs_pos | lra].
Qed.

End EscapeFacts.

(** ** What the sampler keeps *)

Module SamplerFacts.

Import PrimFloat.
Import Plotter.

Local Open Scope float_scope.

Lemma oneDLoop_graph (equation : float -> float) (xMax step : float)
    (fuel : nat) :
  forall x0 acc pts,
    Forall (fun p => y p = equation (x p) /\ isFinite (y p) = true /\
                     (x p <=? xMax) = true) acc ->
    oneDLoop fuel equation xMax step x0 acc = Some pts ->
    Forall (fun p => y p = equation (x p) /\ isFinite (y p) = true /\
                     (x p <=? xMax) = true) pts.
Proof.
  induction fuel as [|fuel IH]; intros x0 acc pts Hacc Hrun; cbn in Hrun.
  - discriminate.
  - destruct (x0 <=? xMax) eqn:Hx.
    + apply IH in Hrun; [exact Hrun|].
      destruct (isFinite (equation x0)) eqn:Hy; [|exact Hacc].
      apply Forall_app. split; [exact Hacc|].
      constructor; [|constructor]. cbn. auto.
    + now injection Hrun as <-.
Qed.

Lemma parametricLoop_samples (parametric : float -> option SamplePoint)
    (tRange step : float) (fuel : nat) :
  forall t0 acc pts,
    Forall (fun p => isFinite (x p) = true /\ isFinite (y p) = true /\
                     exists t, (t <=? tRange) = true /\
                               parametric t = Some p) acc ->
    parametricLoop fuel parametric tRange step t0 acc = Some pts ->
    Forall (fun p => isFinite (x p) = true /\ isFinite (y p) = true /\
                     exists t, (t <=? tRange) = true /\
                               parametric t = Some p) pts.
Proof.
  induction fuel as [|fuel IH]; intros t0 acc pts Hacc Hrun; cbn in Hrun.
  - discriminate.
  - destruct (t0 <=? tRange) eqn:Ht.
    + apply IH in Hrun; [exact Hrun|].
      destruct (parametric t0) as [result|] eqn:Hres; [|exact Hacc].
      destruct (isFinite (x result)) eqn:Hx; [|exact Hacc].
      destruct (isFinite (y result)) eqn:Hy; [|exact Hacc].
      apply Forall_app. split; [exact Hacc|].
      constructor; [|constructor]. cbn [x y].
      split; [exact Hx|]. split; [exact Hy|].
      exists t0. split; [exact Ht|]. rewrite Hres. now destruct result.
    + now injection Hrun as <-.
Qed.

Lemma implicitInner_near (implicit : float -> float -> float)
    (xMax yMax stepY x0 : float) (fuel : nat) :
  (x0 <=? xMax) = true ->
  forall y0 acc pts,
    Forall (fun p => (abs (implicit (x p) (y p)) <? 0x1.999999999999ap-4)
                     = true /\
                     (x p <=? xMax) = true /\ (y p <=? yMax) = true) acc ->
    implicitInner fuel implicit yMax stepY x0 y0 acc = Some pts ->
    Forall (fun p => (abs (implicit (x p) (y p)) <? 0x1.999999999999ap-4)
                     = true /\
                     (x p <=? xMax) = true /\ (y p <=? yMax) = true) pts.
Proof.
  intros Hx0.
  induction fuel as [|fuel IH]; intros y0 acc pts Hacc Hrun; cbn in Hrun.
  - discriminate.
  - destruct (y0 <=? yMax) eqn:Hy.
    + apply IH in Hrun; [exact Hrun|].
      destruct (abs (implicit x0 y0) <? 0x1.999999999999ap-4) eqn:Hv;
        [|exact Hacc].
      apply Forall_app. split; [exact Hacc|].
      constructor; [|constructor]. cbn [x y]. auto.
    + now injection Hrun as <-.
Qed.

Lemma implicitOuter_near (implicit : float -> float -> float)
    (v : ViewBox) (stepX stepY : float) (fuel : nat) :
  forall x0 acc pts,
    Forall (fun p => (abs (implicit (x p) (y p)) <? 0x1.999999999999ap-4)
                     = true /\
                     (x p <=? xMax v) = true /\ (y p <=? yMax v) = true)
           acc ->
    implicitOuter fuel implicit v stepX stepY x0 acc = Some pts ->
    Forall (fun p => (abs (implicit (x p) (y p)) <? 0x1.999999999999ap-4)
                     = true /\
                     (x p <=? xMax v) = true /\ (y p <=? yMax v) = true)
           pts.
Proof.
  induction fuel as [|fuel IH]; intros x0 acc pts Hacc Hrun; cbn in Hrun.
  - discriminate.
  - destruct (x0 <=? xMax v) eqn:Hx.
    + destruct (implicitInner fuel implicit (yMax v) stepY x0 (yMin v) acc)
        as [points'|] eqn:Hinner; [|discriminate].
      apply IH in Hrun; [exact Hrun|].
      eapply implicitInner_near; [exact Hx | exact Hacc | exact Hinner].
    + now injection Hrun as <-.
Qed.

(** X23. Outside fractal mode the sampler keeps a sample only if it passes
    the test of its mode, and keeps it as it is.  In 1d mode every point
    returned is a point [(x, equation(x))] of the graph with a finite
    ordinate and [x <= xMax]; in parametric mode it is a value of the
    source at a parameter up to [2 * PI], with both coordinates finite; in
    implicit mode it is a grid point of the view where the absolute value
    of the source is below the tolerance 0.1. *)
Theorem sampler_keeps_what_passes_its_test (fuel : nat)
    (equation : EquationProp)
    (parametric : option (float -> option SamplePoint))
    (implicit : option (float -> float -> float))
    (resolution : float) (view : ViewBox) (pts : list SamplePoint) :
  (forall f,
     EquationPlotter fuel Canvas.oneD (numberFunction f) parametric implicit
       resolution view = Some pts ->
     Forall (fun p => y p = f (x p) /\ isFinite (y p) = true /\
                      (x p <=? xMax view) = true) pts) /\
  (forall g,
     EquationPlotter fuel Canvas.parametric equation (Some g) implicit
       resolution view = Some pts ->
     Forall (fun p => isFinite (x p) = true /\ isFinite (y p) = true /\
                      exists t, (t <=? Math_PI * 2) = true /\
                                g t = Some p) pts) /\
  (forall g,
     EquationPlotter fuel Canvas.implicit equation parametric (Some g)
       resolution view = Some pts ->
     Forall (fun p => (abs (g (x p) (y p)) <? 0x1.999999999999ap-4) = true /\
                      (x p <=? xMax view) = true /\
                      (y p <=? yMax view) = true) pts).
Proof.
  split; [|split].
  - intros f H. cbn in H.
    eapply oneDLoop_graph; [|exact H]. constructor.
  - intros g H. unfold EquationPlotter in H.
    destruct equation;
      (eapply parametricLoop_samples; [|exact H]; constructor).
  - intros g H. unfold EquationPlotter in H.
    destruct equation, parametric;
      (eapply implicitOuter_near; [|exact H]; constructor).
Qed.

Lemma sampler_keeps_what_passes_its_test_witness :
  exists pts,
    EquationPlotter 100 Canvas.implicit notAFunction None
      (Some (fun a b => a - b)) 1 staticView = Some pts /\
    pts <> [] /\
    Forall (fun p => (abs (x p - y p) <? 0x1.999999999999ap-4) = true /\
                     (x p <=? xMax staticView) = true /\
                     (y p <=? yMax staticView) = true) pts.
Proof.
  destruct (EquationPlotter 100 Canvas.implicit notAFunction None
              (Some (fun a b => a - b)) 1 staticView)
    as [pts|] eqn:Hrun.
  - exists pts. split; [reflexivity|]. split.
    + intros Hnil. rewrite Hnil in Hrun. vm_compute in Hrun. discriminate.
    + apply (proj2 (proj2 (sampler_keeps_what_passes_its_test 100
                             notAFunction None
                             (Some (fun a b => a - b))
                             1 staticView pts))
               (fun a b => a - b) Hrun).
  - vm_compute in Hrun. discriminate.
Defined.

End SamplerFacts.
